(** * blackthorne.social.network: the social-network queries over a property graph

    The Python class [SocialNetwork] sends Cypher text to a graph database.
    The store is modelled as the property graph those statements read and
    write: a list of nodes and a list of relationships, the identity of a
    node (of a relationship) being its position in the list.  Every method
    is the function its Cypher statement computes on that graph. *)

From Stdlib Require Import List String Ascii ZArith Arith Bool Lia.
From Stdlib Require Import Permutation Sorted.
Import ListNotations.
Open Scope string_scope.
Open Scope nat_scope.
Open Scope list_scope.

(* ================================================================== *)
(** ** Data model *)

Module Store.

(** Nodes carry one of the two labels the statements use.  A [:User] has
    the properties written by [create_user]; an [:Interest] has a name. *)
Inductive node : Type :=
| UserNode (id name : string) (age : Z) (location created_at : string)
| InterestNode (name : string).

(** Relationships are directed; the endpoints are node identities. *)
Inductive rel : Type :=
| FRIENDS_WITH (src dst : nat) (since : string)
| INTERESTED_IN (src dst : nat).

Record graph : Type := mkGraph { nodes : list node; rels : list rel }.

Definition empty : graph := mkGraph [] [].

Definition node_name (n : node) : string :=
  match n with
  | UserNode _ name _ _ _ => name
  | InterestNode name => name
  end.

Definition is_user (n : node) : bool :=
  match n with UserNode _ _ _ _ _ => true | InterestNode _ => false end.

(** [(u:User {id: $user_id})] *)
Definition user_has_id (user_id : string) (n : node) : bool :=
  match n with
  | UserNode id _ _ _ _ => String.eqb id user_id
  | InterestNode _ => false
  end.

(** [(i:Interest {name: $interest})] *)
Definition interest_has_name (interest : string) (n : node) : bool :=
  match n with
  | UserNode _ _ _ _ _ => false
  | InterestNode name => String.eqb name interest
  end.

Definition node_ids (g : graph) : list nat := seq 0 (List.length (nodes g)).

Definition node_sat (g : graph) (p : node -> bool) (i : nat) : bool :=
  match nth_error (nodes g) i with
  | Some n => p n
  | None => false
  end.

(** The node scan of a [MATCH] on a label and one property. *)
Definition match_nodes (g : graph) (p : node -> bool) : list nat :=
  filter (node_sat g p) (node_ids g).

Definition users_with_id (g : graph) (user_id : string) : list nat :=
  match_nodes g (user_has_id user_id).

Definition interests_with_name (g : graph) (interest : string) : list nat :=
  match_nodes g (interest_has_name interest).

(** Relationships paired with their identity. *)
Definition irels (g : graph) : list (nat * rel) :=
  combine (seq 0 (List.length (rels g))) (rels g).

(** [(a)-[:FRIENDS_WITH]->(x)]: identity of the relationship and [x]. *)
Definition friends_out (g : graph) (a : nat) : list (nat * nat) :=
  flat_map (fun ir =>
    match snd ir with
    | FRIENDS_WITH s d _ => if s =? a then [(fst ir, d)] else []
    | INTERESTED_IN _ _ => []
    end) (irels g).

(** [(a)-[:INTERESTED_IN]->(x)] *)
Definition interests_out (g : graph) (a : nat) : list (nat * nat) :=
  flat_map (fun ir =>
    match snd ir with
    | INTERESTED_IN s d => if s =? a then [(fst ir, d)] else []
    | FRIENDS_WITH _ _ _ => []
    end) (irels g).

(** [(x)-[:INTERESTED_IN]->(i)], seen from [i]. *)
Definition interests_in (g : graph) (i : nat) : list (nat * nat) :=
  flat_map (fun ir =>
    match snd ir with
    | INTERESTED_IN s d => if d =? i then [(fst ir, s)] else []
    | FRIENDS_WITH _ _ _ => []
    end) (irels g).

(** The pattern predicate [(a)-[:FRIENDS_WITH]->(b)]. *)
Definition friend (g : graph) (a b : nat) : bool :=
  existsb (fun r =>
    match r with
    | FRIENDS_WITH s d _ => (s =? a) && (d =? b)
    | INTERESTED_IN _ _ => false
    end) (rels g).

(** [(a)-[:FRIENDS_WITH]-(x)], direction ignored. *)
Definition friends_any (g : graph) (a : nat) : list nat :=
  flat_map (fun r =>
    match r with
    | FRIENDS_WITH s d _ =>
        (if s =? a then [d] else []) ++ (if d =? a then [s] else [])
    | INTERESTED_IN _ _ => []
    end) (rels g).

Definition add_node (g : graph) (n : node) : graph :=
  mkGraph (nodes g ++ [n]) (rels g).

Definition add_rels (g : graph) (rs : list rel) : graph :=
  mkGraph (nodes g) (rels g ++ rs).

End Store.

Import Store.

(* ================================================================== *)
(** ** Property access, aggregation and ordering

    Cypher property access yields null on a node without the property;
    null is [None]. *)

Module Cypher.

Definition node_id (n : node) : option string :=
  match n with
  | UserNode id _ _ _ _ => Some id
  | InterestNode _ => None
  end.

Definition node_location (n : node) : option string :=
  match n with
  | UserNode _ _ _ location _ => Some location
  | InterestNode _ => None
  end.

Definition prop (g : graph) (f : node -> option string) (i : nat)
  : option string :=
  match nth_error (nodes g) i with
  | Some n => f n
  | None => None
  end.

Definition prop_id (g : graph) := prop g node_id.
Definition prop_name (g : graph) := prop g (fun n => Some (node_name n)).
Definition prop_location (g : graph) := prop g node_location.

Definition ostring_eq_dec (x y : option string) : {x = y} + {x <> y}.
Proof. decide equality. apply string_dec. Defined.

(** Grouping key of [find_friends_of_friends]: the three returned
    properties of [fof]. *)
Definition key : Type := option string * option string * option string.

Definition key_eq_dec (x y : key) : {x = y} + {x <> y}.
Proof. decide equality; try apply ostring_eq_dec. decide equality; apply ostring_eq_dec. Defined.

(** [COUNT(DISTINCT x)] over a column without nulls. *)
Definition count_distinct (l : list nat) : nat :=
  List.length (nodup Nat.eq_dec l).

(** The non-null values of a column: aggregates skip null. *)
Definition non_null {A : Type} (l : list (option A)) : list A :=
  flat_map (fun o => match o with Some a => [a] | None => [] end) l.

(** [OPTIONAL MATCH]: the matches, or one row binding null. *)
Definition optional {A : Type} (l : list A) : list (option A) :=
  match l with
  | [] => [None]
  | _ :: _ => map Some l
  end.

(** [ORDER BY f DESC], as a stable insertion sort: Cypher leaves the order
    of rows with equal [f] to the engine. *)
Fixpoint insert_desc {A : Type} (f : A -> nat) (x : A) (l : list A) : list A :=
  match l with
  | [] => [x]
  | y :: t => if f x <? f y then y :: insert_desc f x t else x :: y :: t
  end.

Definition order_by_desc {A : Type} (f : A -> nat) (l : list A) : list A :=
  fold_right (insert_desc f) [] l.

(** [result.single()] of the driver: the first record, [None] without one. *)
Definition single {A : Type} (l : list A) : option A :=
  match l with
  | [] => None
  | r :: _ => Some r
  end.

End Cypher.

Import Cypher.

(* ================================================================== *)
(** ** The methods of [SocialNetwork] *)

(** What a call does: it returns, or it raises.  [ShortestPathCommonNodes]
    is the database's refusal of [shortestPath] between a node and itself.
    [OverflowError] is the driver's refusal of an integer parameter that
    does not fit 64 bits; it is raised before the statement is sent.
    [DuplicateKey] and [NotFound] are the error kinds the specification
    names; no statement of the class raises them. *)
Inductive error : Type :=
| DuplicateKey
| NotFound
| ShortestPathCommonNodes
| OverflowError.

Inductive outcome (A : Type) : Type :=
| Returned (a : A)
| Raised (e : error).
Arguments Returned {A} a.
Arguments Raised {A} e.

(** The integers the driver sends as a query parameter: a Python [int]
    is unbounded, a parameter is a signed 64-bit integer. *)
Definition int64 (z : Z) : bool :=
  ((-9223372036854775808 <=? z) && (z <=? 9223372036854775807))%Z.

(** [create_user]: one [CREATE] of a [:User] node; [now] is [datetime()].
    An [age] the driver cannot send raises and leaves the store as it
    was. *)
Definition create_user (user_id name : string) (age : Z) (location : string)
    (now : string) (g : graph) : outcome unit * graph :=
  if int64 age
  then (Returned tt, add_node g (UserNode user_id name age location now))
  else (Raised OverflowError, g).

(** The rows binding [(u1:User {id: $user1_id})] and
    [(u2:User {id: $user2_id})]. *)
Definition user_pairs (g : graph) (user1_id user2_id : string)
  : list (nat * nat) :=
  flat_map (fun u1 => map (fun u2 => (u1, u2)) (users_with_id g user2_id))
           (users_with_id g user1_id).

(** [add_friendship]: both [CREATE]s run once per matched row; [now] is
    [datetime.now().isoformat()], used when [since] is [None]. *)
Definition add_friendship (user1_id user2_id : string) (since : option string)
    (now : string) (g : graph) : outcome unit * graph :=
  let since := match since with Some s => s | None => now end in
  (Returned tt,
   add_rels g
     (flat_map (fun r => [FRIENDS_WITH (fst r) (snd r) since;
                          FRIENDS_WITH (snd r) (fst r) since])
               (user_pairs g user1_id user2_id))).

(** [MERGE (i:Interest {name: $interest})]: the nodes that match, or a
    node created because none does. *)
Definition merge_interest (interest : string) (g : graph) : graph * list nat :=
  match interests_with_name g interest with
  | [] => (add_node g (InterestNode interest), [List.length (nodes g)])
  | i :: l => (g, i :: l)
  end.

(** [add_interest]: per matched user, [MERGE] then [CREATE]. *)
Definition add_interest_row (interest : string) (g : graph) (u : nat) : graph :=
  let (g1, l) := merge_interest interest g in
  add_rels g1 (map (fun i => INTERESTED_IN u i) l).

Definition add_interest (user_id interest : string) (g : graph)
  : outcome unit * graph :=
  (Returned tt,
   fold_left (add_interest_row interest) (users_with_id g user_id) g).

(** [clear_database]: [MATCH (n) DETACH DELETE n]. *)
Definition clear_database (g : graph) : outcome unit * graph :=
  (Returned tt, empty).

(** *** find_friends_of_friends *)

Record fof_binding : Type :=
  mkBinding { b_user : nat; b_friend : nat; b_fof : nat }.

(** The matches of
    [(user:User {id})-[:FRIENDS_WITH]->(friend)-[:FRIENDS_WITH]->(fof:User)]
    that pass the [WHERE].  One pattern never binds one relationship
    twice, hence the test on the two identities. *)
Definition fof_bindings (g : graph) (user_id : string) : list fof_binding :=
  flat_map (fun user =>
    flat_map (fun rf =>
      flat_map (fun rc =>
        if negb (fst rf =? fst rc)
           && node_sat g is_user (snd rc)
           && negb (user =? snd rc)
           && negb (friend g user (snd rc))
        then [mkBinding user (snd rf) (snd rc)] else [])
        (friends_out g (snd rf)))
      (friends_out g user))
    (users_with_id g user_id).

Record fof_record : Type := mkFof {
  fof_user_id : option string;
  fof_name : option string;
  fof_location : option string;
  mutual_friends : nat
}.

Definition fof_key (g : graph) (c : nat) : key :=
  (prop_id g c, prop_name g c, prop_location g c).

Definition in_group (g : graph) (k : key) (b : fof_binding) : bool :=
  if key_eq_dec (fof_key g (b_fof b)) k then true else false.

(** The [RETURN] with its aggregate: one record per distinct key,
    counting the distinct [friend] nodes of the rows with that key.  The
    order in which an aggregate hands on its groups is the engine's. *)
Definition fof_groups (g : graph) (user_id : string) : list fof_record :=
  let bs := fof_bindings g user_id in
  map (fun k =>
         mkFof (fst (fst k)) (snd (fst k)) (snd k)
               (count_distinct (map b_friend (filter (in_group g k) bs))))
      (nodup key_eq_dec (map (fun b => fof_key g (b_fof b)) bs)).

Definition find_friends_of_friends (g : graph) (user_id : string)
  : list fof_record :=
  firstn 10 (order_by_desc mutual_friends (fof_groups g user_id)).

(** *** find_shortest_connection_path *)

(** One node [n] seen from the path [p] (kept last node first). *)
Fixpoint extend (visited : list nat) (p : list nat) (ns : list nat)
  : list nat * list (list nat) :=
  match ns with
  | [] => (visited, [])
  | n :: ns' =>
      if existsb (Nat.eqb n) visited then extend visited p ns'
      else let (v, ps) := extend (n :: visited) p ns' in (v, (n :: p) :: ps)
  end.

(** One level of the search: every path of the frontier grows by every
    neighbour not seen before. *)
Fixpoint expand (g : graph) (visited : list nat) (frontier : list (list nat))
  : list nat * list (list nat) :=
  match frontier with
  | [] => (visited, [])
  | p :: fr =>
      let (v1, ps1) := extend visited p (friends_any g (hd 0 p)) in
      let (v2, ps2) := expand g v1 fr in
      (v2, ps1 ++ ps2)
  end.

(** [shortestPath((a)-[:FRIENDS_WITH*]-(b))] for [a <> b]: breadth-first,
    level by level, until a path of the frontier ends in [target]. *)
Fixpoint bfs (fuel : nat) (g : graph) (target : nat) (visited : list nat)
    (frontier : list (list nat)) : option (list nat) :=
  match fuel with
  | 0 => None
  | S fuel' =>
      match find (fun p => hd 0 p =? target) frontier with
      | Some p => Some (rev p)
      | None =>
          let (visited', next) := expand g visited frontier in
          match next with
          | [] => None
          | _ :: _ => bfs fuel' g target visited' next
          end
      end
  end.

Definition shortest_path (g : graph) (a b : nat) : option (list nat) :=
  bfs (S (2 * List.length (rels g))) g b [a] [[a]].

(** The rows of the statement, one per pair of matched end nodes joined by
    a path; the database raises on a pair made of one node. *)
Fixpoint path_rows (g : graph) (pairs : list (nat * nat))
  : outcome (list (list nat)) :=
  match pairs with
  | [] => Returned []
  | ab :: rest =>
      if fst ab =? snd ab then Raised ShortestPathCommonNodes
      else match path_rows g rest with
           | Raised e => Raised e
           | Returned ps =>
               Returned (match shortest_path g (fst ab) (snd ab) with
                         | Some p => p :: ps
                         | None => ps
                         end)
           end
  end.

Definition find_shortest_connection_path (g : graph)
    (user1_id user2_id : string) : outcome (option (list (option string))) :=
  match path_rows g (user_pairs g user1_id user2_id) with
  | Raised e => Raised e
  | Returned ps => Returned (option_map (map (prop_name g)) (single ps))
  end.

(** *** find_communities *)

Definition is_interest (n : node) : bool := negb (is_user n).

(** The matches of [(i:Interest)<-[:INTERESTED_IN]-(u:User)], as [(i, u)]. *)
Definition community_rows (g : graph) : list (nat * nat) :=
  flat_map (fun i =>
    flat_map (fun ru =>
      if node_sat g is_user (snd ru) then [(i, snd ru)] else [])
      (interests_in g i))
    (match_nodes g is_interest).

Record community_record : Type := mkCommunity {
  interest : option string;
  size : nat;
  members : list string
}.

(** [WITH i, COLLECT(u.name) AS members, COUNT(u) AS size]: one group per
    distinct [i]; [COUNT(u)] counts the rows of the group. *)
Definition community_groups (g : graph) : list community_record :=
  let rows := community_rows g in
  map (fun i =>
         let us := map snd (filter (fun r => fst r =? i) rows) in
         mkCommunity (prop_name g i) (List.length us)
                     (non_null (map (prop_name g) us)))
      (nodup Nat.eq_dec (map fst rows)).

(** [WHERE size >= $min_connections ... ORDER BY size DESC]. *)
Definition community_query (g : graph) (min_connections : Z)
  : list community_record :=
  order_by_desc size
    (filter (fun c => (min_connections <=? Z.of_nat (size c))%Z)
            (community_groups g)).

(** [find_communities]: the query runs when the driver can send
    [min_connections]; otherwise the call raises. *)
Definition find_communities (g : graph) (min_connections : Z)
  : outcome (list community_record) :=
  if int64 min_connections
  then Returned (community_query g min_connections)
  else Raised OverflowError.

(** *** get_network_statistics *)

(** The matches of [(user)-[:FRIENDS_WITH]->()-[:FRIENDS_WITH]->(fof)]
    that pass the [WHERE] of the last [OPTIONAL MATCH]. *)
Definition stats_fofs (g : graph) (user : nat) : list nat :=
  flat_map (fun rf =>
    flat_map (fun rc =>
      if negb (fst rf =? fst rc)
         && negb (friend g user (snd rc))
         && negb (user =? snd rc)
      then [snd rc] else [])
      (friends_out g (snd rf)))
    (friends_out g user).

Record stats_row : Type := mkRow {
  r_user : nat;
  r_friend : option nat;
  r_interest : option nat;
  r_fof : option nat
}.

(** The rows after the [MATCH] and the three [OPTIONAL MATCH]es. *)
Definition stats_rows (g : graph) (user_id : string) : list stats_row :=
  flat_map (fun user =>
    flat_map (fun friend =>
      flat_map (fun interest =>
        map (fun fof => mkRow user friend interest fof)
            (optional (stats_fofs g user)))
        (optional (map snd (interests_out g user))))
      (optional (map snd (friends_out g user))))
    (users_with_id g user_id).

Record stats_record : Type := mkStats {
  stats_name : option string;
  friend_count : nat;
  interest_count : nat;
  potential_connections : nat
}.

Definition in_name_group (g : graph) (k : option string) (r : stats_row) : bool :=
  if ostring_eq_dec (prop_name g (r_user r)) k then true else false.

(** The [RETURN]: grouped by [user.name], three [COUNT(DISTINCT ...)]. *)
Definition stats_groups (g : graph) (user_id : string) : list stats_record :=
  let rows := stats_rows g user_id in
  map (fun k =>
         let grp := filter (in_name_group g k) rows in
         mkStats k
                 (count_distinct (non_null (map r_friend grp)))
                 (count_distinct (non_null (map r_interest grp)))
                 (count_distinct (non_null (map r_fof grp))))
      (nodup ostring_eq_dec (map (fun r => prop_name g (r_user r)) rows)).

(** [dict(record) if record else {}]: the empty dict is [None]. *)
Definition get_network_statistics (g : graph) (user_id : string)
  : option stats_record :=
  single (stats_groups g user_id).

(** *** recommend_friends_by_interests *)

Record rec_binding : Type :=
  mkRecBinding { rb_user : nat; rb_interest : nat; rb_other : nat }.

(** The matches of
    [(user:User {id})-[:INTERESTED_IN]->(interest)<-[:INTERESTED_IN]-(other:User)]
    that pass the [WHERE]. *)
Definition rec_bindings (g : graph) (user_id : string) : list rec_binding :=
  flat_map (fun user =>
    flat_map (fun ri =>
      flat_map (fun ro =>
        if negb (fst ri =? fst ro)
           && node_sat g is_user (snd ro)
           && negb (user =? snd ro)
           && negb (friend g user (snd ro))
        then [mkRecBinding user (snd ri) (snd ro)] else [])
        (interests_in g (snd ri)))
      (interests_out g user))
    (users_with_id g user_id).

Record rec_record : Type := mkRec {
  rec_user_id : option string;
  rec_name : option string;
  rec_location : option string;
  shared_interests : nat;
  common_interests : list string
}.

(** The interests bound in the rows of the group of [other]. *)
Definition rec_group (g : graph) (user_id : string) (other : nat) : list nat :=
  map rb_interest
      (filter (fun b => rb_other b =? other) (rec_bindings g user_id)).

(** [WITH other, COUNT(DISTINCT interest), COLLECT(DISTINCT interest.name)]
    and the [RETURN]: one record per distinct [other]. *)
Definition rec_groups (g : graph) (user_id : string) : list rec_record :=
  map (fun other =>
         let l := rec_group g user_id other in
         mkRec (prop_id g other) (prop_name g other) (prop_location g other)
               (count_distinct l)
               (nodup string_dec (non_null (map (prop_name g) l))))
      (nodup Nat.eq_dec (map rb_other (rec_bindings g user_id))).

Definition recommend_friends_by_interests (g : graph) (user_id : string)
  : list rec_record :=
  firstn 10 (order_by_desc shared_interests (rec_groups g user_id)).

(* ================================================================== *)
(** ** Sequences of calls *)

Inductive call : Type :=
| CreateUser (user_id name : string) (age : Z) (location now : string)
| AddFriendship (user1_id user2_id : string) (since : option string)
                (now : string)
| AddInterest (user_id interest : string)
| ClearDatabase.

Definition perform (c : call) (g : graph) : outcome unit * graph :=
  match c with
  | CreateUser user_id name age location now =>
      create_user user_id name age location now g
  | AddFriendship user1_id user2_id since now =>
      add_friendship user1_id user2_id since now g
  | AddInterest user_id i => add_interest user_id i g
  | ClearDatabase => clear_database g
  end.

Definition run (cs : list call) (g : graph) : graph :=
  fold_left (fun g c => snd (perform c g)) cs g.

(** The graphs a client can build through the class. *)
Definition reachable (g : graph) : Prop := exists cs, g = run cs empty.

(** *** create_demo_network *)

Module Demo.

Definition users : list (string * string * Z * string) :=
  [("alice", "Alice Johnson", 28%Z, "New York");
   ("bob", "Bob Smith", 32%Z, "San Francisco");
   ("carol", "Carol White", 25%Z, "New York");
   ("david", "David Brown", 30%Z, "Boston");
   ("eve", "Eve Davis", 27%Z, "San Francisco");
   ("frank", "Frank Miller", 35%Z, "Chicago");
   ("grace", "Grace Wilson", 29%Z, "New York");
   ("henry", "Henry Moore", 31%Z, "Boston")].

Definition friendships : list (string * string) :=
  [("alice", "bob"); ("alice", "carol"); ("alice", "grace");
   ("bob", "david"); ("bob", "eve"); ("carol", "grace");
   ("david", "henry"); ("eve", "frank"); ("frank", "henry")].

Definition interests : list (string * list string) :=
  [("alice", ["photography"; "hiking"; "cooking"]);
   ("bob", ["hiking"; "technology"; "gaming"]);
   ("carol", ["cooking"; "photography"; "travel"]);
   ("david", ["technology"; "gaming"; "music"]);
   ("eve", ["travel"; "photography"; "yoga"]);
   ("frank", ["music"; "cooking"; "gaming"]);
   ("grace", ["yoga"; "cooking"; "travel"]);
   ("henry", ["music"; "technology"; "hiking"])].

(** The calls of [create_demo_network], in order; [now] stands for the
    clock readings of the run. *)
Definition calls (now : string) : list call :=
  ClearDatabase
  :: map (fun u => CreateUser (fst (fst (fst u))) (snd (fst (fst u)))
                              (snd (fst u)) (snd u) now) users
  ++ map (fun p => AddFriendship (fst p) (snd p) None now) friendships
  ++ flat_map (fun p => map (AddInterest (fst p)) (snd p)) interests.

Definition create_demo_network (now : string) (g : graph) : graph :=
  run (calls now) g.

End Demo.

(* ================================================================== *)
(** ** The vocabulary of the statements

    What the specification calls a user is a [:User] node found by its
    [id] property.  The definitions of this module follow the words of
    the specification, not the Cypher text. *)

Module Spec.

(** Node [u] is a user whose id is [user_id]. *)
Definition user_at (g : graph) (user_id : string) (u : nat) : Prop :=
  node_sat g (user_has_id user_id) u = true.

Definition same_user_id (g : graph) (u v : nat) : bool :=
  match nth_error (nodes g) u, nth_error (nodes g) v with
  | Some (UserNode a _ _ _ _), Some (UserNode b _ _ _ _) => String.eqb a b
  | _, _ => false
  end.

(** No two [:User] nodes carry the same id. *)
Definition unique_user_ids (g : graph) : bool :=
  forallb (fun u =>
    forallb (fun v => implb (same_user_id g u v) (u =? v)) (node_ids g))
    (node_ids g).

(** [Neighbors(u, FRIENDS_WITH)]: the one-hop set of [u]. *)
Definition one_hop (g : graph) (u : nat) : list nat :=
  nodup Nat.eq_dec (map snd (friends_out g u)).

Definition mem (x : nat) (l : list nat) : bool := existsb (Nat.eqb x) l.

(** [SecondDegree(u)]: expand the one-hop set, expand each of its members,
    unite, take away [u] and the one-hop set. *)
Definition SecondDegree (g : graph) (u : nat) : list nat :=
  filter (fun c => negb (c =? u) && negb (mem c (one_hop g u)))
         (nodup Nat.eq_dec (flat_map (one_hop g) (one_hop g u))).

(** Mutual-friend count: the members of the one-hop set of [u] that have
    [c] in their own one-hop set. *)
Definition mutual_count (g : graph) (u c : nat) : nat :=
  List.length (filter (fun f => mem c (one_hop g f)) (one_hop g u)).

(** The entry of [c] in the answer computed for [u]. *)
Definition fof_entry (g : graph) (u c : nat) : fof_record :=
  mkFof (prop_id g c) (prop_name g c) (prop_location g c) (mutual_count g u c).

(** A list ranked by [m], largest first. *)
Definition ranked {A : Type} (m : A -> nat) (l : list A) : Prop :=
  StronglySorted (fun x y => m y <= m x) l.

(** Undirected friendship and the walks along it. *)
Definition linked (g : graph) (x y : nat) : Prop :=
  friend g x y = true \/ friend g y x = true.

Inductive walk (g : graph) : nat -> list nat -> nat -> Prop :=
| walk_one : forall a, walk g a [a] a
| walk_step : forall a b c p,
    linked g a b -> walk g b p c -> walk g a (a :: p) c.

(** [p] is a shortest walk from [a] to [b]. *)
Definition shortest (g : graph) (a : nat) (p : list nat) (b : nat) : Prop :=
  walk g a p b /\ forall q, walk g a q b -> List.length p <= List.length q.

Definition connected (g : graph) (a b : nat) : Prop :=
  exists p, walk g a p b.

(** The ordered pairs joined by a [FRIENDS_WITH] relationship, one entry
    per relationship. *)
Definition friend_pairs (g : graph) : list (nat * nat) :=
  flat_map (fun r =>
    match r with
    | FRIENDS_WITH s d _ => [(s, d)]
    | INTERESTED_IN _ _ => []
    end) (rels g).

Definition irreflexive (g : graph) : Prop := forall a, friend g a a = false.

Definition simple (g : graph) : Prop := NoDup (friend_pairs g).

(** The users from which an [INTERESTED_IN] relationship reaches [i], one
    entry per relationship. *)
Definition memberships (g : graph) (i : nat) : list nat :=
  filter (node_sat g is_user) (map snd (interests_in g i)).

(** The incident [User] set of [i]. *)
Definition member_set (g : graph) (i : nat) : list nat :=
  nodup Nat.eq_dec (memberships g i).

Definition community_entry (g : graph) (i : nat) : community_record :=
  mkCommunity (prop_name g i) (List.length (memberships g i))
              (non_null (map (prop_name g) (memberships g i))).

(** Every relationship joins nodes of the labels its statement matched. *)
Definition typed_rel (g : graph) (r : rel) : Prop :=
  match r with
  | FRIENDS_WITH s d _ =>
      node_sat g is_user s = true /\ node_sat g is_user d = true
  | INTERESTED_IN s d =>
      node_sat g is_user s = true /\ node_sat g is_interest d = true
  end.

Definition typed (g : graph) : Prop := Forall (typed_rel g) (rels g).

(** The friendship relationships of the graph. *)
Definition is_friendship (r : rel) : bool :=
  match r with FRIENDS_WITH _ _ _ => true | INTERESTED_IN _ _ => false end.

Definition friendships (g : graph) : list rel := filter is_friendship (rels g).

(** Every friendship has its mirror image with the same [since]. *)
Definition symmetric (g : graph) : Prop :=
  forall s d t, In (FRIENDS_WITH s d t) (rels g) ->
                In (FRIENDS_WITH d s t) (rels g).

(** At most one [:Interest] node per name. *)
Definition interest_unique (g : graph) : Prop :=
  forall name, List.length (interests_with_name g name) <= 1.

(** [g'] holds everything [g] holds. *)
Definition extends (g g' : graph) : Prop :=
  incl (rels g) (rels g')
  /\ forall p i, node_sat g p i = true -> node_sat g' p i = true.

(** Every [:Interest] node is held by some user. *)
Definition interest_populated (g : graph) : Prop :=
  forall i, node_sat g is_interest i = true -> memberships g i <> [].

(** [x] is at most [k] hops from [a]. *)
Definition within (g : graph) (a k x : nat) : Prop :=
  exists p, walk g a p x /\ List.length p <= S k.

(** The nodes a walk from [a] can reach at all: [a] and the end nodes of
    the friendships. *)
Definition universe (g : graph) (a : nat) : list nat :=
  a :: flat_map (fun r =>
         match r with
         | FRIENDS_WITH s d _ => [s; d]
         | INTERESTED_IN _ _ => []
         end) (rels g).

(** Some path of the frontier ends in [x]. *)
Definition heads (frontier : list (list nat)) (x : nat) : Prop :=
  exists p, In p frontier /\ hd 0 p = x.

(** What holds of the search from [a] for [b] when it starts level [k]. *)
Record bfs_inv (g : graph) (a b k : nat) (visited : list nat)
    (frontier : list (list nat)) : Prop := {
  inv_paths : forall p, In p frontier ->
      walk g a (rev p) (hd 0 p) /\ List.length p = S k;
  inv_visited : forall x, In x visited <-> within g a k x;
  inv_front : forall x, In x visited ->
      (forall q, walk g a q x -> S k <= List.length q) -> heads frontier x;
  inv_closed : forall x, In x visited ->
      heads frontier x \/ (forall y, linked g x y -> In y visited);
  inv_far : forall q, walk g a q b -> S k <= List.length q;
  inv_nodup : NoDup visited
}.

(** The interests [u] holds, and those it shares with [c]. *)
Definition held (g : graph) (u : nat) : list nat :=
  nodup Nat.eq_dec (map snd (interests_out g u)).

Definition shared (g : graph) (u c : nat) : list nat :=
  filter (fun i => mem i (held g c)) (held g u).

(** Every relationship ends in nodes of the store. *)
Definition in_range (g : graph) (r : rel) : Prop :=
  match r with
  | FRIENDS_WITH s d _ | INTERESTED_IN s d =>
      s < List.length (nodes g) /\ d < List.length (nodes g)
  end.

End Spec.

Import Spec.

(* ================================================================== *)
(** ** Scenarios *)

Module Scenario.

Definition user (user_id name : string) : call :=
  CreateUser user_id name 30%Z "New York" "2024-01-01T00:00:00".

Definition friends (a b : string) : call :=
  AddFriendship a b (Some "2024-02-02") "2024-03-03T00:00:00".

(** Alice - Bob - Carol. *)
Definition abc : graph :=
  run [user "alice" "Alice"; user "bob" "Bob"; user "carol" "Carol";
       friends "alice" "bob"; friends "bob" "carol"] empty.

(** The chain A - B - C - D, and the same with the edge A - D. *)
Definition chain_calls : list call :=
  [user "a" "A"; user "b" "B"; user "c" "C"; user "d" "D";
   friends "a" "b"; friends "b" "c"; friends "c" "d"].

Definition chain : graph := run chain_calls empty.


(** A hub with one friend who has eleven further friends. *)
Definition far : list string :=
  ["f01"; "f02"; "f03"; "f04"; "f05"; "f06"; "f07"; "f08"; "f09"; "f10"; "f11"].

Definition star_calls : list call :=
  [user "hub" "Hub"; user "mid" "Mid"]
  ++ map (fun s => user s s) far
  ++ [friends "hub" "mid"]
  ++ map (fun s => friends "mid" s) far.

Definition star : graph := run star_calls empty.

(** One user who records the same interest twice. *)
Definition twice : graph :=
  run [user "alice" "Alice";
       AddInterest "alice" "hiking"; AddInterest "alice" "hiking"] empty.

(** Two users share an interest; a third joins. *)
Definition two_hikers : graph :=
  run [user "alice" "Alice"; user "bob" "Bob"; user "carol" "Carol";
       AddInterest "alice" "hiking"; AddInterest "bob" "hiking"] empty.

Definition three_hikers : graph :=
  snd (add_interest "carol" "hiking" two_hikers).

(** One user alone. *)
Definition solo : graph := run [user "alice" "Alice"] empty.

(** Alice - Bob - Carol, and a second user created with the id of Alice. *)
Definition namesake : graph :=
  run [user "alice" "Alice"; user "bob" "Bob"; user "carol" "Carol";
       friends "alice" "bob"; friends "bob" "carol";
       user "alice" "Alice"] empty.

(** A and D have the two mutual friends B and C. *)
Definition diamond : graph :=
  run [user "a" "A"; user "b" "B"; user "c" "C"; user "d" "D";
       friends "a" "b"; friends "a" "c"; friends "b" "d"; friends "c" "d"]
      empty.

End Scenario.

(* ================================================================== *)
(** * Properties *)

(** ** Lists *)

Section Lists.

Context {A : Type}.

Lemma in_combine_seq (l : list A) (s i : nat) (x : A) :
  In (i, x) (combine (seq s (List.length l)) l)
  <-> s <= i /\ nth_error l (i - s) = Some x.
Proof.
  revert s; induction l as [|y l IH]; intros s; simpl.
  - split; [tauto|]. intros [_ H]. destruct (i - s); discriminate.
  - rewrite IH. split.
    + intros [H|[H1 H2]].
      * inversion H; subst. rewrite Nat.sub_diag. split; [lia|reflexivity].
      * split; [lia|]. replace (i - s) with (S (i - S s)) by lia. exact H2.
    + intros [H1 H2]. destruct (Nat.eq_dec s i) as [->|Hne].
      * rewrite Nat.sub_diag in H2. simpl in H2. left. congruence.
      * right. split; [lia|].
        replace (i - s) with (S (i - S s)) in H2 by lia. exact H2.
Qed.

Lemma mem_spec (x : nat) (l : list nat) : mem x l = true <-> In x l.
Proof.
  unfold mem. rewrite existsb_exists. split.
  - intros [y [Hy E]]. apply Nat.eqb_eq in E. subst. exact Hy.
  - intros H. exists x. split; [exact H|apply Nat.eqb_refl].
Qed.

Lemma mem_false (x : nat) (l : list nat) : mem x l = false <-> ~ In x l.
Proof.
  rewrite <- mem_spec. destruct (mem x l); split; intros; congruence.
Qed.

(** Two duplicate-free lists with the same members have the same length. *)
Lemma NoDup_same_length (l1 l2 : list A) :
  NoDup l1 -> NoDup l2 -> (forall x, In x l1 <-> In x l2) ->
  List.length l1 = List.length l2.
Proof.
  intros H1 H2 H. apply Nat.le_antisymm; apply NoDup_incl_length; auto;
    intros x Hx; apply H; exact Hx.
Qed.

End Lists.

Lemma count_distinct_same (l1 l2 : list nat) :
  (forall x, In x l1 <-> In x l2) -> count_distinct l1 = count_distinct l2.
Proof.
  intros H. unfold count_distinct. apply NoDup_same_length.
  - apply NoDup_nodup.
  - apply NoDup_nodup.
  - intros x. rewrite !nodup_In. apply H.
Qed.

Lemma count_distinct_NoDup (l1 l2 : list nat) :
  NoDup l2 -> (forall x, In x l1 <-> In x l2) ->
  count_distinct l1 = List.length l2.
Proof.
  intros H2 H. unfold count_distinct. apply NoDup_same_length; auto.
  - apply NoDup_nodup.
  - intros x. rewrite nodup_In. apply H.
Qed.

(** ** Reading the store *)

Lemma in_irels (g : graph) (i : nat) (r : rel) :
  In (i, r) (irels g) <-> nth_error (rels g) i = Some r.
Proof.
  unfold irels. rewrite in_combine_seq. rewrite Nat.sub_0_r.
  split; [tauto|]. intros H; split; [lia|exact H].
Qed.

Lemma in_friends_out (g : graph) (a i d : nat) :
  In (i, d) (friends_out g a)
  <-> exists t, nth_error (rels g) i = Some (FRIENDS_WITH a d t).
Proof.
  unfold friends_out. rewrite in_flat_map. split.
  - intros [[j r] [Hin H]]. apply in_irels in Hin. simpl in H.
    destruct r as [s d' t|s d']; [|contradiction].
    destruct (s =? a) eqn:E; [|contradiction].
    apply Nat.eqb_eq in E. destruct H as [H|[]]. inversion H; subst.
    exists t. exact Hin.
  - intros [t H]. exists (i, FRIENDS_WITH a d t). split.
    + apply in_irels. exact H.
    + simpl. rewrite Nat.eqb_refl. left. reflexivity.
Qed.

Lemma friend_spec (g : graph) (a b : nat) :
  friend g a b = true <-> exists t, In (FRIENDS_WITH a b t) (rels g).
Proof.
  unfold friend. rewrite existsb_exists. split.
  - intros [r [Hin H]]. destruct r as [s d t|s d]; [|discriminate].
    apply andb_true_iff in H. destruct H as [H1 H2].
    apply Nat.eqb_eq in H1, H2. subst. exists t. exact Hin.
  - intros [t H]. exists (FRIENDS_WITH a b t). split; [exact H|].
    rewrite !Nat.eqb_refl. reflexivity.
Qed.

Lemma in_friends_out_friend (g : graph) (a d : nat) :
  In d (map snd (friends_out g a)) <-> friend g a d = true.
Proof.
  rewrite in_map_iff, friend_spec. split.
  - intros [[i d'] [E H]]. simpl in E. subst d'.
    apply in_friends_out in H. destruct H as [t H]. exists t.
    eapply nth_error_In. exact H.
  - intros [t H]. apply In_nth_error in H. destruct H as [i H].
    exists (i, d). split; [reflexivity|]. apply in_friends_out. eauto.
Qed.

Lemma in_one_hop (g : graph) (a d : nat) :
  In d (one_hop g a) <-> friend g a d = true.
Proof. unfold one_hop. rewrite nodup_In. apply in_friends_out_friend. Qed.

Lemma NoDup_one_hop (g : graph) (a : nat) : NoDup (one_hop g a).
Proof. apply NoDup_nodup. Qed.

Lemma node_sat_lt (g : graph) (p : node -> bool) (i : nat) :
  node_sat g p i = true -> i < List.length (nodes g).
Proof.
  unfold node_sat. destruct (nth_error (nodes g) i) eqn:E; [|discriminate].
  intros _. apply nth_error_Some. congruence.
Qed.

Lemma in_match_nodes (g : graph) (p : node -> bool) (i : nat) :
  In i (match_nodes g p) <-> node_sat g p i = true.
Proof.
  unfold match_nodes, node_ids. rewrite filter_In, in_seq. split; [tauto|].
  intros H. split; [|exact H]. apply node_sat_lt in H. lia.
Qed.

Lemma NoDup_match_nodes (g : graph) (p : node -> bool) :
  NoDup (match_nodes g p).
Proof. apply NoDup_filter, seq_NoDup. Qed.

Lemma in_users_with_id (g : graph) (user_id : string) (u : nat) :
  In u (users_with_id g user_id) <-> user_at g user_id u.
Proof. apply in_match_nodes. Qed.

(** ** Writing the store *)

Lemma node_sat_add_node (g : graph) (n : node) (p : node -> bool) (i : nat) :
  node_sat (add_node g n) p i =
  if i =? List.length (nodes g) then p n else node_sat g p i.
Proof.
  unfold node_sat, add_node; simpl.
  destruct (i =? List.length (nodes g)) eqn:E.
  - apply Nat.eqb_eq in E. subst.
    rewrite nth_error_app2, Nat.sub_diag by lia. reflexivity.
  - apply Nat.eqb_neq in E.
    destruct (Nat.lt_ge_cases i (List.length (nodes g))) as [Hlt|Hge].
    + rewrite nth_error_app1 by exact Hlt. reflexivity.
    + assert (H1 : nth_error (nodes g ++ [n]) i = None).
      { apply nth_error_None. rewrite length_app. simpl. lia. }
      assert (H2 : nth_error (nodes g) i = None).
      { apply nth_error_None. lia. }
      rewrite H1, H2. reflexivity.
Qed.

Lemma node_sat_add_node_mono (g : graph) (n : node) (p : node -> bool) (i : nat) :
  node_sat g p i = true -> node_sat (add_node g n) p i = true.
Proof.
  intros H. rewrite node_sat_add_node.
  pose proof (node_sat_lt _ _ _ H) as Hlt.
  destruct (i =? List.length (nodes g)) eqn:E; [|exact H].
  apply Nat.eqb_eq in E. lia.
Qed.

Lemma match_nodes_add_node (g : graph) (n : node) (p : node -> bool) :
  match_nodes (add_node g n) p =
  match_nodes g p ++ (if p n then [List.length (nodes g)] else []).
Proof.
  unfold match_nodes, node_ids. simpl. rewrite length_app. simpl.
  rewrite Nat.add_1_r, seq_S, filter_app. simpl. f_equal.
  - apply filter_ext_in. intros i Hi. apply in_seq in Hi.
    rewrite node_sat_add_node.
    destruct (i =? List.length (nodes g)) eqn:E; [|reflexivity].
    apply Nat.eqb_eq in E. lia.
  - rewrite node_sat_add_node, Nat.eqb_refl. reflexivity.
Qed.

Lemma add_rels_nil (g : graph) : add_rels g [] = g.
Proof. destruct g. unfold add_rels. simpl. rewrite app_nil_r. reflexivity. Qed.

(** What one row of [add_interest] writes. *)
Lemma add_interest_row_cases (name : string) (g : graph) (u : nat) :
  (interests_with_name g name = []
   /\ add_interest_row name g u =
      mkGraph (nodes g ++ [InterestNode name])
              (rels g ++ [INTERESTED_IN u (List.length (nodes g))]))
  \/ (interests_with_name g name <> []
      /\ add_interest_row name g u =
         mkGraph (nodes g)
                 (rels g ++ map (INTERESTED_IN u) (interests_with_name g name))).
Proof.
  unfold add_interest_row, merge_interest.
  destruct (interests_with_name g name) as [|i l] eqn:E.
  - left. split; reflexivity.
  - right. split; [discriminate|reflexivity].
Qed.

Lemma add_interest_row_user (name : string) (g : graph) (u v : nat) :
  node_sat g is_user v = true ->
  node_sat (add_interest_row name g u) is_user v = true.
Proof.
  intros H. destruct (add_interest_row_cases name g u) as [[_ E]|[_ E]];
    rewrite E.
  - apply (node_sat_add_node_mono g (InterestNode name)). exact H.
  - exact H.
Qed.

(** An invariant kept by every row is kept by the whole statement. *)
Lemma add_interest_fold (P : graph -> Prop) (name : string) :
  (forall g u, P g -> node_sat g is_user u = true ->
               P (add_interest_row name g u)) ->
  forall us g, P g -> Forall (fun u => node_sat g is_user u = true) us ->
               P (fold_left (add_interest_row name) us g).
Proof.
  intros Hstep us. induction us as [|u us IH]; intros g HP Hus; simpl.
  - exact HP.
  - inversion Hus as [|? ? Hu Hrest]; subst. apply IH.
    + apply Hstep; assumption.
    + eapply Forall_impl; [|exact Hrest].
      intros v Hv. apply add_interest_row_user. exact Hv.
Qed.

Lemma user_has_id_is_user (user_id : string) (g : graph) (u : nat) :
  node_sat g (user_has_id user_id) u = true -> node_sat g is_user u = true.
Proof.
  unfold node_sat. destruct (nth_error (nodes g) u) as [[]|]; simpl; congruence.
Qed.

Lemma users_with_id_users (g : graph) (user_id : string) :
  Forall (fun u => node_sat g is_user u = true) (users_with_id g user_id).
Proof.
  apply Forall_forall. intros u Hu. apply in_users_with_id in Hu.
  eapply user_has_id_is_user. exact Hu.
Qed.

Lemma add_interest_inv (P : graph -> Prop) (user_id name : string) (g : graph) :
  (forall g u, P g -> node_sat g is_user u = true ->
               P (add_interest_row name g u)) ->
  P g -> P (snd (add_interest user_id name g)).
Proof.
  intros Hstep HP. simpl. apply add_interest_fold; auto.
  apply users_with_id_users.
Qed.

(** ** Reachable graphs *)

Lemma run_snoc (cs : list call) (c : call) (g : graph) :
  run (cs ++ [c]) g = snd (perform c (run cs g)).
Proof. unfold run. rewrite fold_left_app. reflexivity. Qed.

Lemma reachable_empty : reachable empty.
Proof. exists []. reflexivity. Qed.

Lemma reachable_step (g : graph) (c : call) :
  reachable g -> reachable (snd (perform c g)).
Proof.
  intros [cs ->]. exists (cs ++ [c]). rewrite run_snoc. reflexivity.
Qed.

(** [create_user] appends one node, or raises and leaves the store. *)
Lemma create_user_cases (user_id name : string) (age : Z)
    (location now : string) (g : graph) :
  (int64 age = true
   /\ create_user user_id name age location now g
      = (Returned tt, add_node g (UserNode user_id name age location now)))
  \/ (int64 age = false
      /\ create_user user_id name age location now g
         = (Raised OverflowError, g)).
Proof.
  unfold create_user. destruct (int64 age); [left|right]; split; reflexivity.
Qed.

Lemma create_user_inv (P : graph -> Prop) (user_id name : string) (age : Z)
    (location now : string) (g : graph) :
  P g -> P (add_node g (UserNode user_id name age location now)) ->
  P (snd (create_user user_id name age location now g)).
Proof.
  intros H0 H1.
  destruct (create_user_cases user_id name age location now g)
    as [[_ E]|[_ E]]; rewrite E; assumption.
Qed.

Lemma reachable_induction (P : graph -> Prop) :
  P empty ->
  (forall g c, reachable g -> P g -> P (snd (perform c g))) ->
  forall g, reachable g -> P g.
Proof.
  intros H0 Hstep g [cs ->]. induction cs as [|c cs IH] using rev_ind.
  - exact H0.
  - rewrite run_snoc. apply Hstep; [|exact IH]. exists cs. reflexivity.
Qed.

Lemma typed_rel_add_node (g : graph) (n : node) (r : rel) :
  typed_rel g r -> typed_rel (add_node g n) r.
Proof.
  destruct r; simpl; intros [H1 H2]; split;
    apply node_sat_add_node_mono; assumption.
Qed.

Lemma typed_add_node (g : graph) (n : node) : typed g -> typed (add_node g n).
Proof.
  unfold typed. simpl. intros H. eapply Forall_impl; [|exact H].
  intros r. apply typed_rel_add_node.
Qed.

Lemma typed_add_rels (g : graph) (rs : list rel) :
  typed g -> Forall (typed_rel g) rs -> typed (add_rels g rs).
Proof.
  unfold typed. simpl. intros H1 H2. apply Forall_app. split; assumption.
Qed.

Lemma in_user_pairs (g : graph) (id1 id2 : string) (a b : nat) :
  In (a, b) (user_pairs g id1 id2) <-> user_at g id1 a /\ user_at g id2 b.
Proof.
  unfold user_pairs. rewrite in_flat_map. split.
  - intros [x [Hx H]]. apply in_map_iff in H. destruct H as [y [E Hy]].
    inversion E; subst. split; apply in_users_with_id; assumption.
  - intros [Ha Hb]. exists a. split; [apply in_users_with_id; exact Ha|].
    apply in_map_iff. exists b. split; [reflexivity|].
    apply in_users_with_id. exact Hb.
Qed.

Lemma in_friendship_rels (g : graph) (id1 id2 t : string) (r : rel) :
  In r (flat_map (fun p => [FRIENDS_WITH (fst p) (snd p) t;
                            FRIENDS_WITH (snd p) (fst p) t])
                 (user_pairs g id1 id2))
  <-> exists a b, user_at g id1 a /\ user_at g id2 b
                  /\ (r = FRIENDS_WITH a b t \/ r = FRIENDS_WITH b a t).
Proof.
  rewrite in_flat_map. split.
  - intros [[a b] [Hp H]]. apply in_user_pairs in Hp. simpl in H.
    exists a, b. destruct Hp as [Ha Hb]. repeat split; auto.
    destruct H as [H|[H|[]]]; auto.
  - intros [a [b [Ha [Hb H]]]]. exists (a, b). split.
    + apply in_user_pairs. split; assumption.
    + simpl. destruct H as [H|H]; auto.
Qed.

Lemma in_interest_is_interest (g : graph) (name : string) (i : nat) :
  In i (interests_with_name g name) -> node_sat g is_interest i = true.
Proof.
  intros H. apply in_match_nodes in H. revert H. unfold node_sat.
  destruct (nth_error (nodes g) i) as [[]|]; unfold is_interest; simpl;
    congruence.
Qed.

Lemma typed_add_interest_row (name : string) (g : graph) (u : nat) :
  typed g -> node_sat g is_user u = true -> typed (add_interest_row name g u).
Proof.
  intros Ht Hu. destruct (add_interest_row_cases name g u) as [[_ E]|[_ E]];
    rewrite E.
  - change (typed (add_rels (add_node g (InterestNode name))
                            [INTERESTED_IN u (List.length (nodes g))])).
    apply typed_add_rels; [apply typed_add_node; exact Ht|].
    constructor; [|constructor]. simpl. split.
    + apply node_sat_add_node_mono. exact Hu.
    + rewrite node_sat_add_node, Nat.eqb_refl. reflexivity.
  - change (typed (add_rels g (map (INTERESTED_IN u)
                                   (interests_with_name g name)))).
    apply typed_add_rels; [exact Ht|]. apply Forall_forall. intros r Hr.
    apply in_map_iff in Hr. destruct Hr as [i [<- Hi]]. simpl. split.
    + exact Hu.
    + eapply in_interest_is_interest. exact Hi.
Qed.

Lemma typed_perform (g : graph) (c : call) :
  typed g -> typed (snd (perform c g)).
Proof.
  intros Ht. destruct c as [uid nm age loc now|id1 id2 since now|uid nm|]; simpl.
  - apply (create_user_inv typed uid nm age loc now g);
      [exact Ht|apply typed_add_node; exact Ht].
  - apply typed_add_rels; [exact Ht|]. apply Forall_forall. intros r Hr.
    apply in_friendship_rels in Hr.
    destruct Hr as [a [b [Ha [Hb H]]]].
    apply user_has_id_is_user in Ha, Hb.
    destruct H as [-> | ->]; simpl; split; assumption.
  - apply (add_interest_inv typed uid nm g); [|exact Ht].
    intros g0 u. apply typed_add_interest_row.
  - constructor.
Qed.

Lemma reachable_typed (g : graph) : reachable g -> typed g.
Proof.
  apply reachable_induction.
  - constructor.
  - intros g0 c _. apply typed_perform.
Qed.

(** ** Friendships are written in pairs *)

Lemma in_friendships (g : graph) (s d : nat) (t : string) :
  In (FRIENDS_WITH s d t) (friendships g) <-> In (FRIENDS_WITH s d t) (rels g).
Proof. unfold friendships. rewrite filter_In. simpl. tauto. Qed.

Lemma friendships_add_interest_row (name : string) (g : graph) (u : nat) :
  friendships (add_interest_row name g u) = friendships g.
Proof.
  unfold friendships.
  destruct (add_interest_row_cases name g u) as [[_ E]|[_ E]]; rewrite E;
    simpl; rewrite filter_app.
  - simpl. apply app_nil_r.
  - assert (H : forall l, filter is_friendship (map (INTERESTED_IN u) l) = []).
    { induction l; simpl; auto. }
    rewrite H. apply app_nil_r.
Qed.

Lemma friendships_add_interest (user_id name : string) (g : graph) :
  friendships (snd (add_interest user_id name g)) = friendships g.
Proof.
  apply (add_interest_inv (fun g' => friendships g' = friendships g)).
  - intros g0 u H _. rewrite friendships_add_interest_row. exact H.
  - reflexivity.
Qed.

Lemma friendships_create_user (user_id name : string) (age : Z)
    (location now : string) (g : graph) :
  friendships (snd (create_user user_id name age location now g))
  = friendships g.
Proof.
  apply (create_user_inv (fun g' => friendships g' = friendships g));
    reflexivity.
Qed.

Lemma friend_by_friendships (g g' : graph) :
  friendships g' = friendships g -> forall a b, friend g' a b = friend g a b.
Proof.
  intros E a b. apply eq_true_iff_eq. rewrite !friend_spec.
  split; intros [t H]; exists t; apply in_friendships;
    [rewrite <- E|rewrite E]; apply in_friendships; exact H.
Qed.

Lemma symmetric_perform (g : graph) (c : call) :
  symmetric g -> symmetric (snd (perform c g)).
Proof.
  intros Hs. destruct c as [uid nm age loc now|id1 id2 since now|uid nm|].
  - apply (create_user_inv symmetric uid nm age loc now g); exact Hs.
  - intros s d t. simpl. rewrite !in_app_iff, !in_friendship_rels.
    intros [H|[a [b [Ha [Hb H]]]]].
    + left. apply Hs. exact H.
    + right. exists a, b. repeat split; auto.
      destruct H as [H|H]; inversion H; subst; auto.
  - intros s d t H. apply in_friendships.
    simpl perform. rewrite friendships_add_interest.
    apply in_friendships, Hs, in_friendships.
    rewrite <- (friendships_add_interest uid nm g).
    apply in_friendships. exact H.
  - intros s d t [].
Qed.

Lemma reachable_symmetric (g : graph) : reachable g -> symmetric g.
Proof.
  apply reachable_induction.
  - intros s d t [].
  - intros g0 c _. apply symmetric_perform.
Qed.

Lemma add_friendship_writes (id1 id2 : string) (since : option string)
    (now : string) (g : graph) (a b : nat) :
  user_at g id1 a -> user_at g id2 b ->
  let t := match since with Some s => s | None => now end in
  let g' := snd (add_friendship id1 id2 since now g) in
  In (FRIENDS_WITH a b t) (rels g') /\ In (FRIENDS_WITH b a t) (rels g').
Proof.
  intros Ha Hb t g'. unfold g'. simpl.
  split; apply in_app_iff; right; apply in_friendship_rels; exists a, b; auto.
Qed.

(** C3. After [add_friendship] between two existing users the graph holds
    the relationship in both directions with one [since] (the argument,
    or the current time when it is [None]), each user is in the one-hop
    set of the other and the call returns; and in every graph built
    through the class, each [FRIENDS_WITH] relationship has its mirror
    image with the same [since]. *)
Theorem add_friendship_symmetric :
  (forall (g : graph) (id1 id2 : string) (since : option string)
          (now : string) (a b : nat),
      user_at g id1 a -> user_at g id2 b ->
      let t := match since with Some s => s | None => now end in
      let g' := snd (add_friendship id1 id2 since now g) in
      fst (add_friendship id1 id2 since now g) = Returned tt
      /\ In (FRIENDS_WITH a b t) (rels g')
      /\ In (FRIENDS_WITH b a t) (rels g')
      /\ In b (one_hop g' a) /\ In a (one_hop g' b))
  /\ (forall g : graph, reachable g ->
        forall a b t, In (FRIENDS_WITH a b t) (rels g) ->
                      In (FRIENDS_WITH b a t) (rels g)
                      /\ In b (one_hop g a) /\ In a (one_hop g b)).
Proof.
  split.
  - intros g id1 id2 since now a b Ha Hb t g'.
    destruct (add_friendship_writes id1 id2 since now g a b Ha Hb) as [H1 H2].
    fold t in H1, H2. fold g' in H1, H2.
    split; [reflexivity|]. split; [exact H1|]. split; [exact H2|].
    split; apply in_one_hop, friend_spec; exists t; assumption.
  - intros g Hr a b t H. pose proof (reachable_symmetric g Hr a b t H) as H'.
    split; [exact H'|].
    split; apply in_one_hop, friend_spec; exists t; assumption.
Qed.

Lemma add_friendship_symmetric_witness :
  let g := Scenario.solo in
  let g2 := snd (create_user "bob" "Bob" 31%Z "Boston" "2024-01-02" g) in
  let g' := snd (add_friendship "alice" "bob" None "2024-05-05" g2) in
  (In (FRIENDS_WITH 0 1 "2024-05-05") (rels g')
   /\ In (FRIENDS_WITH 1 0 "2024-05-05") (rels g'))
  /\ In (FRIENDS_WITH 2 1 "2024-02-02") (rels Scenario.abc).
Proof.
  intros g g2 g'. split.
  - destruct (proj1 add_friendship_symmetric g2 "alice" "bob" None
                "2024-05-05" 0 1 eq_refl eq_refl) as [_ [H1 [H2 _]]].
    split; [exact H1|exact H2].
  - refine (proj1 (proj2 add_friendship_symmetric Scenario.abc _ 1 2
                         "2024-02-02" _)).
    + exists [Scenario.user "alice" "Alice"; Scenario.user "bob" "Bob";
              Scenario.user "carol" "Carol";
              Scenario.friends "alice" "bob"; Scenario.friends "bob" "carol"].
      reflexivity.
    + vm_compute. tauto.
Defined.

(** ** Identifiers of users *)

Lemma same_user_id_spec (g : graph) (u v : nat) :
  same_user_id g u v = true
  <-> exists user_id, user_at g user_id u /\ user_at g user_id v.
Proof.
  unfold same_user_id, user_at, node_sat. split.
  - destruct (nth_error (nodes g) u) as [[a ? ? ? ?|]|]; try discriminate.
    destruct (nth_error (nodes g) v) as [[b ? ? ? ?|]|]; try discriminate.
    intros E. apply String.eqb_eq in E. subst b. exists a. simpl.
    rewrite String.eqb_refl. split; reflexivity.
  - intros [uid [Hu Hv]].
    destruct (nth_error (nodes g) u) as [[a ? ? ? ?|]|]; try discriminate.
    destruct (nth_error (nodes g) v) as [[b ? ? ? ?|]|]; try discriminate.
    simpl in Hu, Hv. apply String.eqb_eq in Hu, Hv. subst.
    apply String.eqb_refl.
Qed.

Lemma unique_user_ids_spec (g : graph) :
  unique_user_ids g = true
  <-> forall user_id u v, user_at g user_id u -> user_at g user_id v -> u = v.
Proof.
  unfold unique_user_ids. split.
  - intros H uid u v Hu Hv.
    assert (Iu : In u (node_ids g)).
    { apply in_seq. apply node_sat_lt in Hu. lia. }
    assert (Iv : In v (node_ids g)).
    { apply in_seq. apply node_sat_lt in Hv. lia. }
    rewrite forallb_forall in H. specialize (H u Iu).
    rewrite forallb_forall in H. specialize (H v Iv).
    assert (S : same_user_id g u v = true).
    { apply same_user_id_spec. exists uid. split; assumption. }
    rewrite S in H. simpl in H. apply Nat.eqb_eq. exact H.
  - intros H. apply forallb_forall. intros u _.
    apply forallb_forall. intros v _.
    destruct (same_user_id g u v) eqn:S; [|reflexivity]. simpl.
    apply same_user_id_spec in S. destruct S as [uid [Hu Hv]].
    apply Nat.eqb_eq. eapply H; eassumption.
Qed.

Lemma users_with_id_unique (g : graph) (user_id : string) (u : nat) :
  unique_user_ids g = true -> user_at g user_id u ->
  users_with_id g user_id = [u].
Proof.
  intros Hq Hu. pose proof (NoDup_match_nodes g (user_has_id user_id)) as Hnd.
  fold (users_with_id g user_id) in Hnd.
  assert (Hall : forall v, In v (users_with_id g user_id) -> v = u).
  { intros v Hv. apply in_users_with_id in Hv.
    eapply unique_user_ids_spec; eassumption. }
  apply in_users_with_id in Hu.
  destruct (users_with_id g user_id) as [|x l]; [contradiction|].
  assert (x = u) by (apply Hall; left; reflexivity). subst x.
  destruct l as [|y l]; [reflexivity|].
  assert (y = u) by (apply Hall; right; left; reflexivity). subst y.
  inversion Hnd as [|? ? Hn _]; subst. exfalso. apply Hn. left. reflexivity.
Qed.

(** ** Calls that name a missing user *)

Lemma user_pairs_nil (g : graph) (id1 id2 : string) :
  users_with_id g id1 = [] \/ users_with_id g id2 = [] ->
  user_pairs g id1 id2 = [].
Proof.
  unfold user_pairs. intros [E|E]; rewrite E; [reflexivity|].
  induction (users_with_id g id1); simpl; auto.
Qed.

Lemma add_friendship_no_rows (g : graph) (id1 id2 : string)
    (since : option string) (now : string) :
  users_with_id g id1 = [] \/ users_with_id g id2 = [] ->
  add_friendship id1 id2 since now g = (Returned tt, g).
Proof.
  intros H. unfold add_friendship.
  rewrite (user_pairs_nil g id1 id2 H). simpl. rewrite add_rels_nil.
  reflexivity.
Qed.

(** C4, as the code has it.  [add_friendship] and [add_interest] on a user
    id that matches no node return without an error and leave the graph
    as it was: nothing is written, in particular not one direction of a
    friendship. *)
Theorem missing_endpoint_no_effect :
  (forall (g : graph) (id1 id2 : string) (since : option string) (now : string),
      users_with_id g id1 = [] \/ users_with_id g id2 = [] ->
      add_friendship id1 id2 since now g = (Returned tt, g))
  /\ (forall (g : graph) (user_id name : string),
        users_with_id g user_id = [] ->
        add_interest user_id name g = (Returned tt, g)).
Proof.
  split.
  - intros g id1 id2 since now H. apply add_friendship_no_rows. exact H.
  - intros g uid name H. unfold add_interest. rewrite H. reflexivity.
Qed.

Lemma missing_endpoint_no_effect_witness :
  add_friendship "alice" "ghost" None "2024-05-05" Scenario.solo
    = (Returned tt, Scenario.solo)
  /\ add_interest "ghost" "hiking" Scenario.solo = (Returned tt, Scenario.solo).
Proof.
  split.
  - apply (proj1 missing_endpoint_no_effect). right. reflexivity.
  - apply (proj2 missing_endpoint_no_effect). reflexivity.
Defined.

(** C4 as stated fails: with the second user missing, [add_friendship]
    does not raise [NotFound]; neither does [add_interest] on a missing
    user. *)
Lemma missing_endpoint_not_reported :
  users_with_id Scenario.solo "ghost" = []
  /\ fst (add_friendship "alice" "ghost" None "2024-05-05" Scenario.solo)
     <> Raised NotFound
  /\ fst (add_interest "ghost" "hiking" Scenario.solo) <> Raised NotFound.
Proof. repeat split; discriminate. Qed.

(** ** Creating a user whose id is taken *)

(** C8, as the code has it.  [create_user] knows no duplicate.  With an
    [age] the driver can send, it returns and appends one [:User] node,
    whatever ids the graph holds; the nodes matched by the id are the
    former ones and the new one, so an id that was present is carried by
    more than one node afterwards.  Only the identity of a node, its
    position, is unique.  With an [age] outside 64 bits the call raises
    [OverflowError] and the store is as before.  [DuplicateKey] is never
    raised. *)
Theorem create_user_appends :
  forall (g : graph) (user_id name : string) (age : Z) (location now : string),
    let r := create_user user_id name age location now g in
    (int64 age = true ->
       fst r = Returned tt
       /\ nodes (snd r) = nodes g ++ [UserNode user_id name age location now]
       /\ rels (snd r) = rels g
       /\ users_with_id (snd r) user_id
          = users_with_id g user_id ++ [List.length (nodes g)]
       /\ (users_with_id g user_id <> [] ->
           unique_user_ids (snd r) = false))
    /\ (int64 age = false -> r = (Raised OverflowError, g))
    /\ fst r <> Raised DuplicateKey.
Proof.
  intros g uid name age loc now r. unfold r, create_user.
  split; [|split];
    [intros Ha; rewrite Ha; simpl
    |intros Ha; rewrite Ha; reflexivity
    |destruct (int64 age); discriminate].
  split; [reflexivity|]. split; [reflexivity|]. split; [reflexivity|].
  assert (E : users_with_id (add_node g (UserNode uid name age loc now)) uid
              = users_with_id g uid ++ [List.length (nodes g)]).
  { unfold users_with_id. rewrite match_nodes_add_node. simpl.
    rewrite String.eqb_refl. reflexivity. }
  split; [exact E|].
  intros Hne. destruct (unique_user_ids _) eqn:Hq; [|reflexivity].
  exfalso. destruct (users_with_id g uid) as [|u l] eqn:Hu; [congruence|].
  assert (Hin : In u (users_with_id g uid)) by (rewrite Hu; left; reflexivity).
  pose proof Hin as Hlt. apply in_users_with_id, node_sat_lt in Hlt.
  assert (H1 : user_at (add_node g (UserNode uid name age loc now)) uid u).
  { apply in_users_with_id. rewrite E. apply in_app_iff. left.
    left. reflexivity. }
  assert (H2 : user_at (add_node g (UserNode uid name age loc now)) uid
                       (List.length (nodes g))).
  { apply in_users_with_id. rewrite E. apply in_app_iff. right.
    left. reflexivity. }
  pose proof (proj1 (unique_user_ids_spec _) Hq uid _ _ H1 H2). lia.
Qed.

Lemma create_user_appends_witness :
  (users_with_id Scenario.solo "alice" <> []
   /\ unique_user_ids
        (snd (create_user "alice" "Alice II" 41%Z "Boston" "2024-06-06"
                          Scenario.solo)) = false)
  /\ create_user "zoe" "Zoe" 9223372036854775808%Z "Boston" "2024-06-06"
                 Scenario.solo
     = (Raised OverflowError, Scenario.solo).
Proof.
  assert (H0 : users_with_id Scenario.solo "alice" <> []) by discriminate.
  split; [split; [exact H0|]|].
  - pose proof (create_user_appends Scenario.solo "alice" "Alice II" 41%Z
                  "Boston" "2024-06-06") as H.
    cbv zeta in H. destruct H as [H _].
    destruct (H eq_refl) as [_ [_ [_ [_ H1]]]]. apply H1. exact H0.
  - pose proof (create_user_appends Scenario.solo "zoe" "Zoe"
                  9223372036854775808%Z "Boston" "2024-06-06") as H.
    cbv zeta in H. destruct H as [_ [H _]]. apply H. reflexivity.
Defined.

(** C8 as stated fails: a second [create_user] with the id of Alice
    returns, and two nodes carry the id. *)
Lemma create_user_duplicate_accepted :
  let r := create_user "alice" "Alice II" 41%Z "Boston" "2024-06-06"
                       Scenario.solo in
  users_with_id Scenario.solo "alice" = [0]
  /\ fst r <> Raised DuplicateKey
  /\ users_with_id (snd r) "alice" = [0; 1].
Proof. repeat split; discriminate. Qed.

(** ** One node per interest name *)

Lemma extends_refl (g : graph) : extends g g.
Proof. split; [apply incl_refl|auto]. Qed.

Lemma extends_trans (g1 g2 g3 : graph) :
  extends g1 g2 -> extends g2 g3 -> extends g1 g3.
Proof.
  intros [A1 B1] [A2 B2]. split.
  - eapply incl_tran; eassumption.
  - auto.
Qed.

Lemma extends_add_interest_row (name : string) (g : graph) (u : nat) :
  extends g (add_interest_row name g u).
Proof.
  destruct (add_interest_row_cases name g u) as [[_ E]|[_ E]]; rewrite E;
    split; simpl; try (apply incl_appl, incl_refl).
  - intros p i H. apply (node_sat_add_node_mono g (InterestNode name)). exact H.
  - auto.
Qed.

Lemma extends_fold (name : string) (us : list nat) (g : graph) :
  extends g (fold_left (add_interest_row name) us g).
Proof.
  revert g. induction us as [|u us IH]; intros g; simpl.
  - apply extends_refl.
  - eapply extends_trans; [apply extends_add_interest_row|apply IH].
Qed.

Lemma extends_interests (g g' : graph) (name : string) (i : nat) :
  extends g g' -> In i (interests_with_name g name) ->
  In i (interests_with_name g' name).
Proof.
  intros [_ H] Hi. apply in_match_nodes. apply H. apply in_match_nodes.
  exact Hi.
Qed.

Lemma interests_add_interest_node (g : graph) (name name' : string) :
  interests_with_name (add_node g (InterestNode name)) name'
  = interests_with_name g name'
    ++ (if String.eqb name name' then [List.length (nodes g)] else []).
Proof. unfold interests_with_name. apply match_nodes_add_node. Qed.

Lemma interest_unique_row (name : string) (g : graph) (u : nat) :
  interest_unique g -> interest_unique (add_interest_row name g u).
Proof.
  intros Hq name'.
  destruct (add_interest_row_cases name g u) as [[E0 E]|[_ E]]; rewrite E.
  - change (List.length (interests_with_name
                           (add_node g (InterestNode name)) name') <= 1).
    rewrite interests_add_interest_node.
    destruct (String.eqb name name') eqn:En.
    + apply String.eqb_eq in En. subst name'. rewrite E0. simpl. lia.
    + rewrite app_nil_r. apply Hq.
  - apply Hq.
Qed.

Lemma interest_row_written (name : string) (g : graph) (u : nat) :
  exists i, In i (interests_with_name (add_interest_row name g u) name)
            /\ In (INTERESTED_IN u i) (rels (add_interest_row name g u)).
Proof.
  destruct (add_interest_row_cases name g u) as [[E0 E]|[Hne E]]; rewrite E.
  - exists (List.length (nodes g)). split.
    + change (In (List.length (nodes g))
                 (interests_with_name (add_node g (InterestNode name)) name)).
      rewrite interests_add_interest_node, String.eqb_refl.
      apply in_app_iff. right. left. reflexivity.
    + simpl. apply in_app_iff. right. left. reflexivity.
  - destruct (interests_with_name g name) as [|i l] eqn:Ei; [congruence|].
    exists i. split.
    + change (In i (interests_with_name g name)). rewrite Ei. left. reflexivity.
    + simpl. apply in_app_iff. right. left. reflexivity.
Qed.

Lemma interest_row_reuses (name : string) (g : graph) (u : nat) :
  interests_with_name g name <> [] ->
  nodes (add_interest_row name g u) = nodes g.
Proof.
  intros Hne.
  destruct (add_interest_row_cases name g u) as [[E0 _]|[_ E]];
    [congruence|rewrite E; reflexivity].
Qed.

Lemma interest_fold_post (name : string) (us : list nat) (g : graph) :
  let g' := fold_left (add_interest_row name) us g in
  (interest_unique g -> interest_unique g')
  /\ (forall u, In u us ->
        exists i, In i (interests_with_name g' name)
                  /\ In (INTERESTED_IN u i) (rels g'))
  /\ (interests_with_name g name <> [] -> nodes g' = nodes g).
Proof.
  revert g. induction us as [|u us IH]; intros g; simpl.
  - split; [auto|]. split; [intros u []|reflexivity].
  - destruct (IH (add_interest_row name g u)) as [A [B C]].
    split; [|split].
    + intros Hq. apply A, interest_unique_row, Hq.
    + intros v [->|Hv]; [|apply B; exact Hv].
      destruct (interest_row_written name g v) as [i [Hi Hr]].
      pose proof (extends_fold name us (add_interest_row name g v)) as Hx.
      exists i. split.
      * eapply extends_interests; eassumption.
      * apply (proj1 Hx). exact Hr.
    + intros Hne. rewrite C.
      * apply interest_row_reuses. exact Hne.
      * destruct (interests_with_name g name) as [|i l] eqn:Ei; [congruence|].
        assert (Hi : In i (interests_with_name (add_interest_row name g u) name)).
        { eapply extends_interests; [apply extends_add_interest_row|].
          rewrite Ei. left. reflexivity. }
        intros E0. rewrite E0 in Hi. contradiction.
Qed.

Lemma interest_unique_perform (g : graph) (c : call) :
  interest_unique g -> interest_unique (snd (perform c g)).
Proof.
  intros Hq. destruct c as [uid nm age loc now|id1 id2 since now|uid nm|].
  - apply (create_user_inv interest_unique uid nm age loc now g);
      [exact Hq|].
    intros name. unfold interests_with_name.
    rewrite match_nodes_add_node. simpl. rewrite app_nil_r. apply Hq.
  - exact Hq.
  - simpl. apply (proj1 (interest_fold_post nm (users_with_id g uid) g)), Hq.
  - intros name. simpl. lia.
Qed.

Lemma reachable_interest_unique (g : graph) :
  reachable g -> interest_unique g.
Proof.
  apply reachable_induction.
  - intros name. simpl. lia.
  - intros g0 c _. apply interest_unique_perform.
Qed.

Lemma interest_unique_singleton (g : graph) (name : string) (i : nat) :
  interest_unique g -> In i (interests_with_name g name) ->
  interests_with_name g name = [i].
Proof.
  intros Hq Hi. specialize (Hq name).
  destruct (interests_with_name g name) as [|j [|k l]]; simpl in *.
  - contradiction.
  - destruct Hi as [->|[]]. reflexivity.
  - lia.
Qed.

(** C5. In every graph built through the class, a name is carried by at
    most one [:Interest] node; and in such a graph, [add_interest] with one
    name for two existing users leaves exactly one node of that name, the
    second call creating no node and reusing the node of the first, with
    an [INTERESTED_IN] relationship from each of the two users to it. *)
Theorem interest_deduplicated :
  (forall (g : graph) (name : string),
      reachable g -> List.length (interests_with_name g name) <= 1)
  /\ (forall (g : graph) (id1 id2 name : string) (a b : nat),
        reachable g -> user_at g id1 a -> user_at g id2 b ->
        let g1 := snd (add_interest id1 name g) in
        let g2 := snd (add_interest id2 name g1) in
        exists i,
          interests_with_name g1 name = [i]
          /\ interests_with_name g2 name = [i]
          /\ nodes g2 = nodes g1
          /\ In (INTERESTED_IN a i) (rels g2)
          /\ In (INTERESTED_IN b i) (rels g2)).
Proof.
  split.
  - intros g name Hr. apply reachable_interest_unique. exact Hr.
  - intros g id1 id2 name a b Hr Ha Hb g1 g2.
    pose proof (reachable_interest_unique g Hr) as Hq.
    destruct (interest_fold_post name (users_with_id g id1) g) as [A1 [B1 _]].
    fold (snd (add_interest id1 name g)) in A1, B1. fold g1 in A1, B1.
    assert (Hx1 : extends g g1) by apply extends_fold.
    assert (Hb1 : user_at g1 id2 b) by (apply (proj2 Hx1); exact Hb).
    destruct (interest_fold_post name (users_with_id g1 id2) g1) as [A2 [B2 C2]].
    fold (snd (add_interest id2 name g1)) in A2, B2, C2.
    fold g2 in A2, B2, C2.
    assert (Hx2 : extends g1 g2) by apply extends_fold.
    destruct (B1 a) as [i [Hi Hra]]; [apply in_users_with_id; exact Ha|].
    destruct (B2 b) as [j [Hj Hrb]]; [apply in_users_with_id; exact Hb1|].
    pose proof (extends_interests g1 g2 name i Hx2 Hi) as Hi2.
    pose proof (interest_unique_singleton g1 name i (A1 Hq) Hi) as E1.
    pose proof (interest_unique_singleton g2 name i (A2 (A1 Hq)) Hi2) as E2.
    assert (j = i).
    { pose proof (interest_unique_singleton g2 name j (A2 (A1 Hq)) Hj) as E3.
      congruence. }
    subst j. exists i. split; [exact E1|]. split; [exact E2|].
    split; [apply C2; rewrite E1; discriminate|].
    split; [apply (proj1 Hx2); exact Hra|exact Hrb].
Qed.

Lemma interest_deduplicated_witness :
  List.length (interests_with_name Scenario.two_hikers "hiking") <= 1
  /\ exists i,
       interests_with_name
         (snd (add_interest "alice" "yoga" Scenario.abc)) "yoga" = [i]
       /\ interests_with_name
            (snd (add_interest "carol" "yoga"
                    (snd (add_interest "alice" "yoga" Scenario.abc)))) "yoga"
          = [i]
       /\ nodes (snd (add_interest "carol" "yoga"
                        (snd (add_interest "alice" "yoga" Scenario.abc))))
          = nodes (snd (add_interest "alice" "yoga" Scenario.abc))
       /\ In (INTERESTED_IN 0 i)
             (rels (snd (add_interest "carol" "yoga"
                           (snd (add_interest "alice" "yoga" Scenario.abc)))))
       /\ In (INTERESTED_IN 2 i)
             (rels (snd (add_interest "carol" "yoga"
                           (snd (add_interest "alice" "yoga" Scenario.abc))))).
Proof.
  split.
  - apply (proj1 interest_deduplicated).
    exists [Scenario.user "alice" "Alice"; Scenario.user "bob" "Bob";
            Scenario.user "carol" "Carol";
            AddInterest "alice" "hiking"; AddInterest "bob" "hiking"].
    reflexivity.
  - apply (proj2 interest_deduplicated Scenario.abc "alice" "carol" "yoga" 0 2).
    + exists [Scenario.user "alice" "Alice"; Scenario.user "bob" "Bob";
              Scenario.user "carol" "Carol";
              Scenario.friends "alice" "bob"; Scenario.friends "bob" "carol"].
      reflexivity.
    + reflexivity.
    + reflexivity.
Defined.

(** ** Self-friendships and repeated friendships *)

Lemma in_friend_pairs (g : graph) (a b : nat) :
  In (a, b) (friend_pairs g) <-> friend g a b = true.
Proof.
  unfold friend_pairs. rewrite in_flat_map, friend_spec. split.
  - intros [r [Hr H]]. destruct r as [s d t|s d]; [|contradiction].
    destruct H as [H|[]]. inversion H; subst. exists t. exact Hr.
  - intros [t H]. exists (FRIENDS_WITH a b t). split; [exact H|].
    left. reflexivity.
Qed.

Lemma friend_pairs_by_friendships (g g' : graph) :
  friendships g' = friendships g -> friend_pairs g' = friend_pairs g.
Proof.
  assert (H : forall l,
             flat_map (fun r => match r with
                                | FRIENDS_WITH s d _ => [(s, d)]
                                | INTERESTED_IN _ _ => []
                                end) (filter is_friendship l)
             = flat_map (fun r => match r with
                                  | FRIENDS_WITH s d _ => [(s, d)]
                                  | INTERESTED_IN _ _ => []
                                  end) l).
  { induction l as [|r l IH]; [reflexivity|].
    destruct r; simpl; rewrite IH; reflexivity. }
  intros E. unfold friend_pairs. rewrite <- (H (rels g')), <- (H (rels g)).
  unfold friendships in E. rewrite E. reflexivity.
Qed.

Lemma friend_pairs_add_friendship (id1 id2 : string) (since : option string)
    (now : string) (g : graph) :
  friend_pairs (snd (add_friendship id1 id2 since now g))
  = friend_pairs g
    ++ flat_map (fun p => [(fst p, snd p); (snd p, fst p)])
                (user_pairs g id1 id2).
Proof.
  unfold friend_pairs. simpl. rewrite flat_map_app. f_equal.
  induction (user_pairs g id1 id2) as [|p l IH]; [reflexivity|].
  simpl. rewrite IH. reflexivity.
Qed.

Lemma user_at_same_node (g : graph) (id1 id2 : string) (a : nat) :
  user_at g id1 a -> user_at g id2 a -> id1 = id2.
Proof.
  unfold user_at, node_sat.
  destruct (nth_error (nodes g) a) as [[x ? ? ? ?|]|]; simpl; try discriminate.
  intros H1 H2. apply String.eqb_eq in H1, H2. congruence.
Qed.

Lemma users_with_id_cases (g : graph) (user_id : string) :
  users_with_id g user_id = [] \/ exists u, user_at g user_id u.
Proof.
  destruct (users_with_id g user_id) as [|u l] eqn:E; [left; reflexivity|].
  right. exists u. apply in_users_with_id. rewrite E. left. reflexivity.
Qed.

Lemma irreflexive_by_pairs (g : graph) :
  irreflexive g <-> forall a, ~ In (a, a) (friend_pairs g).
Proof.
  unfold irreflexive. split; intros H a.
  - rewrite in_friend_pairs, (H a). discriminate.
  - destruct (friend g a a) eqn:E; [|reflexivity].
    exfalso. apply (H a), in_friend_pairs. exact E.
Qed.

Lemma NoDup_flat_map {A B : Type} (f : A -> list B) (l : list A) :
  NoDup l ->
  (forall x, In x l -> NoDup (f x)) ->
  (forall x y b, In x l -> In y l -> In b (f x) -> In b (f y) -> x = y) ->
  NoDup (flat_map f l).
Proof.
  induction l as [|x l IH]; intros Hnd Hf Hx; [constructor|]. simpl.
  inversion Hnd as [|? ? Hnx Hl]; subst. apply NoDup_app.
  - apply Hf. left. reflexivity.
  - apply IH; [exact Hl| |].
    + intros y Hy. apply Hf. right. exact Hy.
    + intros y z b Hy Hz. apply Hx; right; assumption.
  - intros b Hb Hin. apply in_flat_map in Hin. destruct Hin as [y [Hy Hby]].
    apply Hnx.
    rewrite (Hx x y b (or_introl eq_refl) (or_intror Hy) Hb Hby).
    exact Hy.
Qed.

Lemma NoDup_user_pairs (g : graph) (id1 id2 : string) :
  NoDup (user_pairs g id1 id2).
Proof.
  unfold user_pairs. apply NoDup_flat_map.
  - apply NoDup_match_nodes.
  - intros a _.
    assert (H : forall l : list nat, NoDup l ->
                  NoDup (map (fun u2 => (a, u2)) l)).
    { intros l Hl. induction Hl as [|b l Hb Hl IH]; [constructor|].
      simpl. constructor; [|exact IH]. intros Hin.
      apply in_map_iff in Hin. destruct Hin as [c [E Hc]].
      inversion E; subst. contradiction. }
    apply H, NoDup_match_nodes.
  - intros a b p _ _ Ha Hb. apply in_map_iff in Ha, Hb.
    destruct Ha as [c [<- _]]. destruct Hb as [d [E _]].
    inversion E. reflexivity.
Qed.

(** C9, as the code has it.  [create_user], [add_interest] and
    [clear_database] keep the friendship relation irreflexive and simple.
    So does [add_friendship] when the two ids differ and no user found
    by the one is a friend of a user found by the other yet.  Nothing
    guards the other calls: [add_friendship] of an existing user with itself writes a
    relationship from the node to itself, and a second [add_friendship]
    for two existing users leaves parallel relationships. *)
Theorem friendship_simple_when_guarded :
  (forall (g : graph) (c : call),
      (forall id1 id2 since now, c <> AddFriendship id1 id2 since now) ->
      irreflexive g -> simple g ->
      irreflexive (snd (perform c g)) /\ simple (snd (perform c g)))
  /\ (forall (g : graph) (id1 id2 : string) (since : option string)
             (now : string),
        id1 <> id2 ->
        (forall a b, user_at g id1 a -> user_at g id2 b ->
                     friend g a b = false /\ friend g b a = false) ->
        irreflexive g -> simple g ->
        let g' := snd (add_friendship id1 id2 since now g) in
        irreflexive g' /\ simple g')
  /\ (forall (g : graph) (user_id : string) (since : option string)
             (now : string) (a : nat),
        user_at g user_id a ->
        friend (snd (add_friendship user_id user_id since now g)) a a = true)
  /\ (forall (g : graph) (id1 id2 : string) (s1 s2 : option string)
             (n1 n2 : string) (a b : nat),
        user_at g id1 a -> user_at g id2 b ->
        ~ simple (snd (add_friendship id1 id2 s2 n2
                         (snd (add_friendship id1 id2 s1 n1 g))))).
Proof.
  split; [|split; [|split]].
  - intros g c Hc Hi Hs.
    assert (E : friendships (snd (perform c g)) = friendships g
                \/ snd (perform c g) = empty).
    { destruct c as [uid nm age loc now|id1 id2 since now|uid nm|].
      - left. apply friendships_create_user.
      - exfalso. eapply Hc. reflexivity.
      - left. apply friendships_add_interest.
      - right. reflexivity. }
    destruct E as [E|E].
    + split.
      * intros a. rewrite (friend_by_friendships _ _ E). apply Hi.
      * unfold simple. rewrite (friend_pairs_by_friendships _ _ E). exact Hs.
    + rewrite E. split; [intros a; reflexivity|constructor].
  - intros g id1 id2 since now Hne Hnf Hi Hs g'.
    set (f := fun p : nat * nat => [(fst p, snd p); (snd p, fst p)]).
    assert (Ep : friend_pairs g'
                 = friend_pairs g ++ flat_map f (user_pairs g id1 id2))
      by apply friend_pairs_add_friendship.
    assert (Hends : forall a b, In (a, b) (user_pairs g id1 id2) ->
                      user_at g id1 a /\ user_at g id2 b /\ a <> b).
    { intros a b H. apply in_user_pairs in H. destruct H as [Ha Hb].
      split; [exact Ha|]. split; [exact Hb|].
      intros ->. apply Hne. eapply user_at_same_node; eassumption. }
    assert (Hnew : forall x y, In (x, y) (flat_map f (user_pairs g id1 id2)) ->
                     x <> y /\ friend g x y = false).
    { intros x y H. apply in_flat_map in H. destruct H as [[a b] [Hp H]].
      destruct (Hends a b Hp) as [Ha [Hb Hab]].
      destruct (Hnf a b Ha Hb) as [F1 F2].
      destruct H as [H|[H|[]]]; inversion H; subst; split; auto. }
    split.
    + apply irreflexive_by_pairs. intros x. rewrite Ep, in_app_iff.
      intros [H|H].
      * apply in_friend_pairs in H. rewrite (Hi x) in H. discriminate.
      * destruct (Hnew x x H) as [H0 _]. apply H0. reflexivity.
    + unfold simple. rewrite Ep. apply NoDup_app.
      * exact Hs.
      * apply NoDup_flat_map.
        -- apply NoDup_user_pairs.
        -- intros [a b] Hp. destruct (Hends a b Hp) as [_ [_ Hab]].
           unfold f. simpl. constructor.
           ++ intros [H|[]]. inversion H; subst. apply Hab. reflexivity.
           ++ constructor; [intros []|constructor].
        -- intros [a b] [c d] q Hp Hq Hin1 Hin2.
           destruct (Hends a b Hp) as [Ha [Hb _]].
           destruct (Hends c d Hq) as [Hc [Hd _]].
           unfold f in Hin1, Hin2. simpl in Hin1, Hin2.
           destruct Hin1 as [<-|[<-|[]]];
             destruct Hin2 as [E|[E|[]]]; inversion E; subst;
             try reflexivity;
             exfalso; apply Hne; eapply user_at_same_node; eassumption.
      * intros [x y] Hp Hin. apply in_friend_pairs in Hp.
        destruct (Hnew x y Hin) as [_ F]. congruence.
  - intros g uid since now a Ha.
    destruct (add_friendship_writes uid uid since now g a a Ha Ha) as [H _].
    apply friend_spec. eexists. exact H.
  - intros g id1 id2 s1 s2 n1 n2 a b Ha Hb Hs.
    set (g1 := snd (add_friendship id1 id2 s1 n1 g)) in *.
    assert (H1 : In (a, b) (friend_pairs g1)).
    { destruct (add_friendship_writes id1 id2 s1 n1 g a b Ha Hb) as [H _].
      apply in_friend_pairs, friend_spec. eexists. exact H. }
    unfold simple in Hs. rewrite friend_pairs_add_friendship in Hs.
    apply NoDup_app_remove_l in Hs as Hs2.
    assert (H2 : In (a, b)
                    (flat_map (fun p => [(fst p, snd p); (snd p, fst p)])
                              (user_pairs g1 id1 id2))).
    { apply in_flat_map. exists (a, b). split; [|left; reflexivity].
      apply in_user_pairs. split; exact Ha || exact Hb. }
    revert H1 H2 Hs. generalize (friend_pairs g1) as l1.
    generalize (flat_map (fun p : nat * nat =>
                            [(fst p, snd p); (snd p, fst p)])
                         (user_pairs g1 id1 id2)) as l2.
    intros l2 l1 H1 H2 Hs. apply in_split in H1.
    destruct H1 as [x [y ->]]. rewrite <- app_assoc in Hs.
    apply NoDup_app_remove_l in Hs. simpl in Hs.
    inversion Hs as [|? ? Hn _]; subst. apply Hn.
    apply in_app_iff. right. exact H2.
Qed.

Lemma friendship_simple_when_guarded_witness :
  let g := snd (create_user "bob" "Bob" 31%Z "Boston" "2024-01-02"
                            Scenario.solo) in
  (irreflexive (snd (perform (AddInterest "bob" "yoga") g))
   /\ simple (snd (perform (AddInterest "bob" "yoga") g)))
  /\ (irreflexive (snd (add_friendship "alice" "bob" None "2024-05-05" g))
      /\ simple (snd (add_friendship "alice" "bob" None "2024-05-05" g)))
  /\ friend (snd (add_friendship "alice" "alice" None "2024-05-05" g)) 0 0
     = true
  /\ ~ simple (snd (add_friendship "alice" "bob" None "2024-07-07"
                      (snd (add_friendship "alice" "bob" None "2024-05-05" g)))).
Proof.
  intros g.
  assert (Hi : irreflexive g) by (intros a; reflexivity).
  assert (Hs : simple g) by constructor.
  split; [|split; [|split]].
  - apply (proj1 friendship_simple_when_guarded g (AddInterest "bob" "yoga"));
      [intros; discriminate|exact Hi|exact Hs].
  - apply (proj1 (proj2 friendship_simple_when_guarded) g "alice" "bob");
      [discriminate|intros a b _ _; split; reflexivity
      |exact Hi|exact Hs].
  - apply (proj1 (proj2 (proj2 friendship_simple_when_guarded))). reflexivity.
  - apply (proj2 (proj2 (proj2 friendship_simple_when_guarded))
             g "alice" "bob" None None "2024-05-05" "2024-07-07" 0 1);
      reflexivity.
Defined.

(** C9 as stated fails: befriending Alice with herself leaves a
    relationship from her node to itself, and befriending Alice and Bob
    twice leaves two relationships from Alice to Bob. *)
Lemma friendship_self_and_parallel :
  friend (run [Scenario.user "alice" "Alice";
               Scenario.friends "alice" "alice"] empty) 0 0 = true
  /\ friend_pairs (run [Scenario.user "alice" "Alice";
                        Scenario.user "bob" "Bob";
                        Scenario.friends "alice" "bob";
                        Scenario.friends "alice" "bob"] empty)
     = [(0, 1); (1, 0); (0, 1); (1, 0)].
Proof. split; reflexivity. Qed.

(** ** Rows and groups of the statistics *)

Lemma optional_not_nil {A : Type} (l : list A) : optional l <> [].
Proof. destruct l; discriminate. Qed.

Lemma in_optional_some {A : Type} (l : list A) (x : A) :
  In (Some x) (optional l) <-> In x l.
Proof.
  destruct l as [|y l]; simpl.
  - split; [intros [H|[]]; discriminate|tauto].
  - split.
    + intros [H|H]; [left; congruence|right].
      apply in_map_iff in H. destruct H as [z [E Hz]]. congruence.
    + intros [H|H]; [left; congruence|right]. apply in_map. exact H.
Qed.

Lemma in_non_null {A : Type} (l : list (option A)) (x : A) :
  In x (non_null l) <-> In (Some x) l.
Proof.
  unfold non_null. rewrite in_flat_map. split.
  - intros [[y|] [Hy H]]; [|contradiction].
    destruct H as [->|[]]. exact Hy.
  - intros H. exists (Some x). split; [exact H|left; reflexivity].
Qed.

Lemma nodup_nil_iff {A : Type} (dec : forall x y : A, {x = y} + {x <> y})
    (l : list A) : nodup dec l = [] <-> l = [].
Proof.
  split; [|intros ->; reflexivity]. destruct l as [|x l]; [reflexivity|].
  intros E. assert (H : In x (nodup dec (x :: l))).
  { apply nodup_In. left. reflexivity. }
  rewrite E in H. contradiction.
Qed.

Lemma in_stats_rows (g : graph) (user_id : string) (r : stats_row) :
  In r (stats_rows g user_id)
  <-> user_at g user_id (r_user r)
      /\ In (r_friend r) (optional (map snd (friends_out g (r_user r))))
      /\ In (r_interest r) (optional (map snd (interests_out g (r_user r))))
      /\ In (r_fof r) (optional (stats_fofs g (r_user r))).
Proof.
  unfold stats_rows. rewrite in_flat_map. split.
  - intros [u [Hu H]]. apply in_users_with_id in Hu.
    apply in_flat_map in H. destruct H as [f [Hf H]].
    apply in_flat_map in H. destruct H as [i [Hi H]].
    apply in_map_iff in H. destruct H as [c [E Hc]]. subst r. simpl.
    repeat split; assumption.
  - intros [Hu [Hf [Hi Hc]]]. exists (r_user r).
    split; [apply in_users_with_id; exact Hu|].
    apply in_flat_map. exists (r_friend r). split; [exact Hf|].
    apply in_flat_map. exists (r_interest r). split; [exact Hi|].
    apply in_map_iff. exists (r_fof r). split; [destruct r; reflexivity|].
    exact Hc.
Qed.

Lemma stats_rows_nil_iff (g : graph) (user_id : string) :
  stats_rows g user_id = [] <-> users_with_id g user_id = [].
Proof.
  split.
  - intros E. destruct (users_with_id_cases g user_id) as [H|[u Hu]];
      [exact H|exfalso].
    assert (exists r, In r (stats_rows g user_id)) as [r Hr].
    { destruct (optional (map snd (friends_out g u))) as [|f lf] eqn:Ef;
        [exfalso; eapply optional_not_nil; exact Ef|].
      destruct (optional (map snd (interests_out g u))) as [|i li] eqn:Ei;
        [exfalso; eapply optional_not_nil; exact Ei|].
      destruct (optional (stats_fofs g u)) as [|c lc] eqn:Ec;
        [exfalso; eapply optional_not_nil; exact Ec|].
      exists (mkRow u f i c). apply in_stats_rows. simpl.
      rewrite Ef, Ei, Ec. repeat split; auto; left; reflexivity. }
    rewrite E in Hr. contradiction.
  - intros E. unfold stats_rows. rewrite E. reflexivity.
Qed.

Lemma stats_groups_nil_iff (g : graph) (user_id : string) :
  stats_groups g user_id = [] <-> users_with_id g user_id = [].
Proof.
  rewrite <- stats_rows_nil_iff. unfold stats_groups. split.
  - intros E. apply map_eq_nil in E. apply nodup_nil_iff in E.
    apply map_eq_nil in E. exact E.
  - intros ->. reflexivity.
Qed.

Lemma in_stats_groups (g : graph) (user_id : string) (s : stats_record) :
  In s (stats_groups g user_id) ->
  exists r, In r (stats_rows g user_id)
    /\ stats_name s = prop_name g (r_user r)
    /\ let grp := filter (in_name_group g (stats_name s))
                         (stats_rows g user_id) in
       friend_count s = count_distinct (non_null (map r_friend grp))
       /\ interest_count s = count_distinct (non_null (map r_interest grp))
       /\ potential_connections s
          = count_distinct (non_null (map r_fof grp)).
Proof.
  unfold stats_groups. intros H. apply in_map_iff in H.
  destruct H as [k [E Hk]]. apply nodup_In in Hk. apply in_map_iff in Hk.
  destruct Hk as [r [Er Hr]]. exists r. subst s. simpl.
  split; [exact Hr|]. split; [symmetry; exact Er|]. repeat split.
Qed.

Lemma single_some_in {A : Type} (l : list A) (x : A) :
  single l = Some x -> In x l.
Proof. destruct l; simpl; intros E; [discriminate|left; congruence]. Qed.


Lemma column_all_null {A B : Type} (f : A -> option B) (l : list A) :
  (forall x, In x l -> f x = None) -> non_null (map f l) = [].
Proof.
  induction l as [|x l IH]; intros H; [reflexivity|]. simpl.
  rewrite (H x (or_introl eq_refl)). simpl. apply IH.
  intros y Hy. apply H. right. exact Hy.
Qed.

Lemma in_optional_nil {A : Type} (x : option A) :
  In x (optional (@nil A)) -> x = None.
Proof. intros [H|[]]. congruence. Qed.

Lemma stats_fofs_no_friends (g : graph) (u : nat) :
  friends_out g u = [] -> stats_fofs g u = [].
Proof. intros E. unfold stats_fofs. rewrite E. reflexivity. Qed.

Lemma statistics_known (g : graph) (user_id : string) (u : nat) :
  user_at g user_id u ->
  exists s, get_network_statistics g user_id = Some s.
Proof.
  intros Hu. unfold get_network_statistics.
  destruct (stats_groups g user_id) as [|s l] eqn:E; [|exists s; reflexivity].
  apply stats_groups_nil_iff in E. apply in_users_with_id in Hu.
  rewrite E in Hu. contradiction.
Qed.



(** ** Second-degree candidates *)

Lemma in_SecondDegree (g : graph) (u c : nat) :
  In c (SecondDegree g u)
  <-> (exists f, friend g u f = true /\ friend g f c = true)
      /\ c <> u /\ friend g u c = false.
Proof.
  unfold SecondDegree. rewrite filter_In, nodup_In, in_flat_map.
  rewrite andb_true_iff, !negb_true_iff, Nat.eqb_neq, mem_false, in_one_hop.
  split.
  - intros [[f [Hf Hc]] [Hne Hnf]]. apply in_one_hop in Hf, Hc.
    split; [exists f; split; assumption|]. split; [exact Hne|].
    destruct (friend g u c); [exfalso; apply Hnf; reflexivity|reflexivity].
  - intros [[f [Hf Hc]] [Hne Hnf]]. split.
    + exists f. split; apply in_one_hop; assumption.
    + split; [exact Hne|]. rewrite Hnf. discriminate.
Qed.

Lemma NoDup_SecondDegree (g : graph) (u : nat) : NoDup (SecondDegree g u).
Proof. apply NoDup_filter, NoDup_nodup. Qed.

Lemma in_mutual_friends (g : graph) (u c f : nat) :
  In f (filter (fun f => mem c (one_hop g f)) (one_hop g u))
  <-> friend g u f = true /\ friend g f c = true.
Proof. rewrite filter_In, mem_spec, !in_one_hop. tauto. Qed.

(** Two relationships that form a path between different end nodes are
    different relationships. *)
Lemma path_rels_differ (g : graph) (u f c i j : nat) :
  In (i, f) (friends_out g u) -> In (j, c) (friends_out g f) -> u <> c ->
  (i =? j) = false.
Proof.
  intros Hi Hj Hne. apply Nat.eqb_neq. intros ->.
  apply in_friends_out in Hi, Hj. destruct Hi as [t Hi]. destruct Hj as [t' Hj].
  rewrite Hi in Hj. inversion Hj; subst. apply Hne. reflexivity.
Qed.

Lemma friend_has_rel (g : graph) (a b : nat) :
  friend g a b = true -> exists i, In (i, b) (friends_out g a).
Proof.
  intros H. apply in_friends_out_friend, in_map_iff in H.
  destruct H as [[i d] [E H]]. simpl in E. subst d. exists i. exact H.
Qed.

Lemma rel_is_friend (g : graph) (a b i : nat) :
  In (i, b) (friends_out g a) -> friend g a b = true.
Proof.
  intros H. apply in_friends_out_friend, in_map_iff. exists (i, b).
  split; [reflexivity|exact H].
Qed.

Lemma in_stats_fofs (g : graph) (u c : nat) :
  In c (stats_fofs g u) <-> In c (SecondDegree g u).
Proof.
  rewrite in_SecondDegree. unfold stats_fofs. rewrite in_flat_map. split.
  - intros [[i f] [Hf H]]. apply in_flat_map in H.
    destruct H as [[j d] [Hd H]]. simpl in H.
    destruct (negb (i =? j) && negb (friend g u d) && negb (u =? d)) eqn:E;
      [|contradiction].
    destruct H as [->|[]].
    apply andb_true_iff in E. destruct E as [E E3].
    apply andb_true_iff in E. destruct E as [_ E2].
    apply negb_true_iff in E2, E3. apply Nat.eqb_neq in E3.
    split; [|split; [congruence|exact E2]].
    exists f. split; eapply rel_is_friend; eassumption.
  - intros [[f [Hf Hc]] [Hne Hnf]].
    destruct (friend_has_rel g u f Hf) as [i Hi].
    destruct (friend_has_rel g f c Hc) as [j Hj].
    exists (i, f). split; [exact Hi|]. apply in_flat_map.
    exists (j, c). split; [exact Hj|]. simpl.
    rewrite (path_rels_differ g u f c i j Hi Hj) by congruence.
    rewrite Hnf. assert (E : (u =? c) = false) by (apply Nat.eqb_neq; congruence).
    rewrite E. left. reflexivity.
Qed.

Lemma in_fof_bindings (g : graph) (user_id : string) (b : fof_binding) :
  In b (fof_bindings g user_id)
  <-> user_at g user_id (b_user b)
      /\ friend g (b_user b) (b_friend b) = true
      /\ friend g (b_friend b) (b_fof b) = true
      /\ node_sat g is_user (b_fof b) = true
      /\ b_fof b <> b_user b
      /\ friend g (b_user b) (b_fof b) = false.
Proof.
  unfold fof_bindings. rewrite in_flat_map. split.
  - intros [u [Hu H]]. apply in_users_with_id in Hu.
    apply in_flat_map in H. destruct H as [[i f] [Hf H]].
    apply in_flat_map in H. destruct H as [[j d] [Hd H]]. simpl in H.
    destruct (negb (i =? j) && node_sat g is_user d && negb (u =? d)
              && negb (friend g u d)) eqn:E; [|contradiction].
    destruct H as [<-|[]]. simpl.
    apply andb_true_iff in E. destruct E as [E E4].
    apply andb_true_iff in E. destruct E as [E E3].
    apply andb_true_iff in E. destruct E as [_ E2].
    apply negb_true_iff in E3, E4. apply Nat.eqb_neq in E3.
    split; [exact Hu|]. split; [eapply rel_is_friend; eassumption|].
    split; [eapply rel_is_friend; eassumption|].
    split; [exact E2|]. split; [congruence|exact E4].
  - destruct b as [u f c]. simpl. intros [Hu [Hf [Hc [Hus [Hne Hnf]]]]].
    exists u. split; [apply in_users_with_id; exact Hu|].
    destruct (friend_has_rel g u f Hf) as [i Hi].
    destruct (friend_has_rel g f c Hc) as [j Hj].
    apply in_flat_map. exists (i, f). split; [exact Hi|].
    apply in_flat_map. exists (j, c). split; [exact Hj|]. simpl.
    rewrite (path_rels_differ g u f c i j Hi Hj) by congruence.
    rewrite Hus, Hnf.
    assert (E : (u =? c) = false) by (apply Nat.eqb_neq; congruence).
    rewrite E. left. reflexivity.
Qed.

Lemma typed_friend_users (g : graph) (a b : nat) :
  typed g -> friend g a b = true ->
  node_sat g is_user a = true /\ node_sat g is_user b = true.
Proof.
  intros Ht H. apply friend_spec in H. destruct H as [t H].
  unfold typed in Ht. rewrite Forall_forall in Ht. apply (Ht _ H).
Qed.

(** ** Keys identify users *)

Lemma fof_key_injective (g : graph) (c d : nat) :
  unique_user_ids g = true ->
  node_sat g is_user c = true -> node_sat g is_user d = true ->
  fof_key g c = fof_key g d -> c = d.
Proof.
  intros Hq Hc Hd E. unfold fof_key in E.
  assert (Ei : prop_id g c = prop_id g d) by congruence.
  unfold prop_id, prop in Ei. unfold node_sat in Hc, Hd.
  destruct (nth_error (nodes g) c) as [[x ? ? ? ?|]|] eqn:Ec; try discriminate.
  destruct (nth_error (nodes g) d) as [[y ? ? ? ?|]|] eqn:Ed; try discriminate.
  simpl in Ei. inversion Ei; subst y.
  apply (proj1 (unique_user_ids_spec g) Hq x); unfold user_at, node_sat.
  - rewrite Ec. simpl. apply String.eqb_refl.
  - rewrite Ed. simpl. apply String.eqb_refl.
Qed.

Lemma nodup_map_injective {A B : Type}
    (decA : forall x y : A, {x = y} + {x <> y})
    (decB : forall x y : B, {x = y} + {x <> y})
    (f : A -> B) (l : list A) :
  (forall x y, In x l -> In y l -> f x = f y -> x = y) ->
  nodup decB (map f l) = map f (nodup decA l).
Proof.
  induction l as [|x l IH]; intros Hinj; [reflexivity|]. simpl.
  assert (IH' : nodup decB (map f l) = map f (nodup decA l)).
  { apply IH. intros y z Hy Hz. apply Hinj; right; assumption. }
  destruct (in_dec decB (f x) (map f l)) as [Hin|Hin];
    destruct (in_dec decA x l) as [Hx|Hx].
  - exact IH'.
  - exfalso. apply in_map_iff in Hin. destruct Hin as [y [E Hy]].
    assert (y = x).
    { apply Hinj; [right; exact Hy|left; reflexivity|exact E]. }
    subst y. contradiction.
  - exfalso. apply Hin. apply in_map. exact Hx.
  - simpl. rewrite IH'. reflexivity.
Qed.

(** ** Ordering and truncation *)

Lemma in_firstn {A : Type} (k : nat) (l : list A) (x : A) :
  In x (firstn k l) -> In x l.
Proof.
  intros H. rewrite <- (firstn_skipn k l). apply in_app_iff. left. exact H.
Qed.

Lemma in_skipn {A : Type} (k : nat) (l : list A) (x : A) :
  In x (skipn k l) -> In x l.
Proof.
  intros H. rewrite <- (firstn_skipn k l). apply in_app_iff. right. exact H.
Qed.

Section Ordering.

Context {A : Type} (f : A -> nat).

Lemma insert_desc_perm (x : A) (l : list A) :
  Permutation (insert_desc f x l) (x :: l).
Proof.
  induction l as [|y t IH]; simpl; [apply Permutation_refl|].
  destruct (f x <? f y).
  - eapply perm_trans; [apply perm_skip, IH|apply perm_swap].
  - apply Permutation_refl.
Qed.

Lemma order_by_desc_perm (l : list A) : Permutation (order_by_desc f l) l.
Proof.
  induction l as [|x l IH]; simpl; [constructor|].
  eapply perm_trans; [apply insert_desc_perm|apply perm_skip, IH].
Qed.

Lemma insert_desc_ranked (x : A) (l : list A) :
  ranked f l -> ranked f (insert_desc f x l).
Proof.
  unfold ranked. induction l as [|y t IH]; intros H; simpl.
  - constructor; constructor.
  - apply StronglySorted_inv in H. destruct H as [Ht Hy].
    destruct (f x <? f y) eqn:E.
    + apply Nat.ltb_lt in E. constructor; [apply IH; exact Ht|].
      eapply Permutation_Forall;
        [apply Permutation_sym, insert_desc_perm|].
      constructor; [lia|exact Hy].
    + apply Nat.ltb_ge in E. constructor.
      * constructor; assumption.
      * constructor; [exact E|]. eapply Forall_impl; [|exact Hy].
        simpl. intros z Hz. lia.
Qed.

Lemma order_by_desc_ranked (l : list A) : ranked f (order_by_desc f l).
Proof.
  induction l as [|x l IH]; simpl; [constructor|].
  apply insert_desc_ranked, IH.
Qed.

Lemma ranked_firstn (k : nat) (l : list A) : ranked f l -> ranked f (firstn k l).
Proof.
  unfold ranked. revert k. induction l as [|x l IH]; intros k H.
  - rewrite firstn_nil. constructor.
  - destruct k; simpl; [constructor|].
    apply StronglySorted_inv in H. destruct H as [Hl Hx].
    constructor; [apply IH; exact Hl|].
    rewrite Forall_forall in *. intros y Hy. apply Hx.
    eapply in_firstn. exact Hy.
Qed.

(** What [LIMIT] cuts off ranks no higher than what it keeps. *)
Lemma ranked_top (k : nat) (l : list A) (x y : A) :
  ranked f l -> In x (firstn k l) -> In y (skipn k l) -> f y <= f x.
Proof.
  unfold ranked. revert k. induction l as [|a l IH]; intros k H Hx Hy.
  - rewrite firstn_nil in Hx. contradiction.
  - destruct k; simpl in Hx, Hy; [contradiction|].
    apply StronglySorted_inv in H. destruct H as [Hl Ha].
    destruct Hx as [->|Hx].
    + rewrite Forall_forall in Ha. apply Ha.
      eapply in_skipn. exact Hy.
    + eapply IH; eassumption.
Qed.

End Ordering.

Lemma insert_desc_map {A B : Type} (f : B -> nat) (h : A -> B) (x : A)
    (l : list A) :
  insert_desc f (h x) (map h l) = map h (insert_desc (fun a => f (h a)) x l).
Proof.
  induction l as [|y t IH]; simpl; [reflexivity|].
  destruct (f (h x) <? f (h y)); simpl; [rewrite IH|]; reflexivity.
Qed.

Lemma order_by_desc_map {A B : Type} (f : B -> nat) (h : A -> B) (l : list A) :
  order_by_desc f (map h l) = map h (order_by_desc (fun a => f (h a)) l).
Proof.
  induction l as [|x l IH]; simpl; [reflexivity|].
  rewrite IH. apply insert_desc_map.
Qed.

Lemma NoDup_firstn {A : Type} (k : nat) (l : list A) :
  NoDup l -> NoDup (firstn k l).
Proof.
  intros H. rewrite <- (firstn_skipn k l) in H.
  eapply NoDup_app_remove_r. exact H.
Qed.

(** ** The groups of find_friends_of_friends *)

Lemma binding_fof_user (g : graph) (user_id : string) (c : nat) :
  In c (map b_fof (fof_bindings g user_id)) -> node_sat g is_user c = true.
Proof.
  intros H. apply in_map_iff in H. destruct H as [b [<- Hb]].
  apply in_fof_bindings in Hb. tauto.
Qed.

(** When the id names one node, that node is the [user] of every row. *)
Lemma sole_user (g : graph) (user_id : string) (u v : nat) :
  users_with_id g user_id = [u] -> user_at g user_id v -> v = u.
Proof.
  intros E Hv. apply in_users_with_id in Hv. rewrite E in Hv.
  destruct Hv as [<-|[]]. reflexivity.
Qed.

Lemma sole_user_at (g : graph) (user_id : string) (u : nat) :
  users_with_id g user_id = [u] -> user_at g user_id u.
Proof.
  intros E. apply in_users_with_id. rewrite E. left. reflexivity.
Qed.

Lemma in_binding_fofs_sole (g : graph) (user_id : string) (u c : nat) :
  users_with_id g user_id = [u] ->
  (In c (map b_fof (fof_bindings g user_id))
   <-> In c (SecondDegree g u) /\ node_sat g is_user c = true).
Proof.
  intros E. pose proof (sole_user_at g user_id u E) as Hu.
  rewrite in_SecondDegree, in_map_iff. split.
  - intros [b [<- Hb]]. apply in_fof_bindings in Hb.
    destruct Hb as [Hbu [Hf [Hc [Hus [Hne Hnf]]]]].
    assert (b_user b = u) by (eapply sole_user; eassumption).
    subst u. split; [|exact Hus].
    split; [exists (b_friend b); split; assumption|]. split; assumption.
  - intros [[[f [Hf Hc]] [Hne Hnf]] Hus]. exists (mkBinding u f c).
    split; [reflexivity|]. apply in_fof_bindings. simpl. tauto.
Qed.

Lemma in_binding_fofs (g : graph) (user_id : string) (u c : nat) :
  unique_user_ids g = true -> user_at g user_id u ->
  (In c (map b_fof (fof_bindings g user_id))
   <-> In c (SecondDegree g u) /\ node_sat g is_user c = true).
Proof.
  intros Hq Hu. apply in_binding_fofs_sole.
  apply users_with_id_unique; assumption.
Qed.

Lemma group_count (g : graph) (user_id : string) (u c : nat) :
  unique_user_ids g = true -> user_at g user_id u ->
  In c (map b_fof (fof_bindings g user_id)) ->
  count_distinct
    (map b_friend (filter (in_group g (fof_key g c)) (fof_bindings g user_id)))
  = mutual_count g u c.
Proof.
  intros Hq Hu Hc. unfold mutual_count. apply count_distinct_NoDup.
  - apply NoDup_filter, NoDup_one_hop.
  - intros f. rewrite in_mutual_friends, in_map_iff. split.
    + intros [b [<- Hb]]. apply filter_In in Hb. destruct Hb as [Hb Hk].
      unfold in_group in Hk.
      destruct (key_eq_dec (fof_key g (b_fof b)) (fof_key g c)) as [E|];
        [|discriminate].
      apply in_fof_bindings in Hb.
      destruct Hb as [Hbu [Hf [Hfc [Hus _]]]].
      assert (b_user b = u)
        by (eapply (proj1 (unique_user_ids_spec g)); eassumption).
      assert (b_fof b = c).
      { apply (fof_key_injective g); auto.
        eapply binding_fof_user. exact Hc. }
      subst. split; assumption.
    + intros [Hf Hfc].
      apply (in_binding_fofs g user_id u c Hq Hu) in Hc.
      destruct Hc as [Hsd Hus]. apply in_SecondDegree in Hsd.
      destruct Hsd as [_ [Hne Hnf]].
      exists (mkBinding u f c). split; [reflexivity|].
      apply filter_In. split.
      * apply in_fof_bindings. simpl. tauto.
      * unfold in_group. simpl b_fof.
        destruct (key_eq_dec (fof_key g c) (fof_key g c)) as [|n];
          [reflexivity|exfalso; apply n; reflexivity].
Qed.

Lemma fof_groups_entries (g : graph) (user_id : string) (u : nat) :
  unique_user_ids g = true -> user_at g user_id u ->
  fof_groups g user_id
  = map (fof_entry g u)
        (nodup Nat.eq_dec (map b_fof (fof_bindings g user_id))).
Proof.
  intros Hq Hu. unfold fof_groups.
  rewrite <- (map_map b_fof (fof_key g)).
  rewrite (nodup_map_injective Nat.eq_dec key_eq_dec).
  - rewrite map_map. apply map_ext_in. intros c Hc. apply nodup_In in Hc.
    unfold fof_entry, fof_key at 1 2 3. simpl. f_equal.
    apply group_count; assumption.
  - intros x y Hx Hy. apply fof_key_injective; auto;
      eapply binding_fof_user; eassumption.
Qed.

Lemma candidates_same (g : graph) (user_id : string) (u c : nat) :
  typed g -> unique_user_ids g = true -> user_at g user_id u ->
  (In c (nodup Nat.eq_dec (map b_fof (fof_bindings g user_id)))
   <-> In c (SecondDegree g u)).
Proof.
  intros Ht Hq Hu. rewrite nodup_In, (in_binding_fofs g user_id u c Hq Hu).
  split; [tauto|]. intros H. split; [exact H|].
  apply in_SecondDegree in H. destruct H as [[f [_ Hc]] _].
  apply (typed_friend_users g f c Ht Hc).
Qed.

(** The answer before [LIMIT]: the entries of the candidates, ranked. *)
Lemma fof_ranked_entries (g : graph) (user_id : string) (u : nat) :
  unique_user_ids g = true -> user_at g user_id u ->
  order_by_desc mutual_friends (fof_groups g user_id)
  = map (fof_entry g u)
        (order_by_desc (mutual_count g u)
           (nodup Nat.eq_dec (map b_fof (fof_bindings g user_id)))).
Proof.
  intros Hq Hu. rewrite (fof_groups_entries g user_id u Hq Hu).
  exact (order_by_desc_map mutual_friends (fof_entry g u) _).
Qed.

(** C1, as the code has it.  In a graph built through the class in which
    user ids are unique, the answer for user [u] lists second-degree
    candidates of [u] only (nodes two [FRIENDS_WITH] hops away that are
    neither [u] nor in its one-hop set), each at most once and each with
    its mutual-friend count, the number of distinct one-hop friends of [u]
    that reach it; the list is ranked by that count and holds the ten
    highest-ranked candidates, so it holds every candidate exactly when
    there are at most ten.  For Alice - Bob - Carol the answer for Alice
    is the one entry of Carol with count 1. *)
Theorem friends_of_friends_top_ten :
  (forall (g : graph) (user_id : string) (u : nat),
      reachable g -> unique_user_ids g = true -> user_at g user_id u ->
      exists cs,
        find_friends_of_friends g user_id = map (fof_entry g u) cs
        /\ NoDup cs
        /\ incl cs (SecondDegree g u)
        /\ List.length cs = Nat.min 10 (List.length (SecondDegree g u))
        /\ ranked (mutual_count g u) cs
        /\ (forall c d, In c (SecondDegree g u) -> ~ In c cs -> In d cs ->
                        mutual_count g u c <= mutual_count g u d)
        /\ (List.length (SecondDegree g u) <= 10 ->
            forall c, In c (SecondDegree g u) -> In c cs))
  /\ find_friends_of_friends Scenario.abc "alice"
     = [mkFof (Some "carol") (Some "Carol") (Some "New York") 1].
Proof.
  split; [|reflexivity].
  intros g uid u Hr Hq Hu. pose proof (reachable_typed g Hr) as Ht.
  set (cand := nodup Nat.eq_dec (map b_fof (fof_bindings g uid))).
  set (sorted := order_by_desc (mutual_count g u) cand).
  assert (Hperm : Permutation sorted cand) by apply order_by_desc_perm.
  assert (Hnd : NoDup sorted).
  { eapply Permutation_NoDup; [apply Permutation_sym; exact Hperm|].
    apply NoDup_nodup. }
  assert (Hin : forall c, In c sorted <-> In c (SecondDegree g u)).
  { intros c. rewrite <- (candidates_same g uid u c Ht Hq Hu). split.
    - apply Permutation_in. exact Hperm.
    - apply Permutation_in, Permutation_sym. exact Hperm. }
  assert (Hlen : List.length sorted = List.length (SecondDegree g u)).
  { apply NoDup_same_length; [exact Hnd|apply NoDup_SecondDegree|exact Hin]. }
  exists (firstn 10 sorted). split; [|split; [|split; [|split; [|split; [|split]]]]].
  - unfold find_friends_of_friends.
    rewrite (fof_ranked_entries g uid u Hq Hu). apply firstn_map.
  - apply NoDup_firstn. exact Hnd.
  - intros c Hc. apply Hin. eapply in_firstn. exact Hc.
  - rewrite length_firstn, Hlen. reflexivity.
  - apply ranked_firstn, order_by_desc_ranked.
  - intros c d Hc Hnc Hd.
    apply (ranked_top (mutual_count g u) 10 sorted d c).
    + apply order_by_desc_ranked.
    + exact Hd.
    + apply Hin in Hc. rewrite <- (firstn_skipn 10 sorted) in Hc.
      apply in_app_iff in Hc. destruct Hc as [Hc|Hc]; [contradiction|exact Hc].
  - intros Hle c Hc. rewrite firstn_all2 by lia. apply Hin. exact Hc.
Qed.

Lemma friends_of_friends_top_ten_witness :
  exists cs,
    find_friends_of_friends Scenario.abc "alice"
    = map (fof_entry Scenario.abc 0) cs
    /\ NoDup cs
    /\ incl cs (SecondDegree Scenario.abc 0)
    /\ List.length cs = Nat.min 10 (List.length (SecondDegree Scenario.abc 0)).
Proof.
  assert (Hr : reachable Scenario.abc).
  { exists [Scenario.user "alice" "Alice"; Scenario.user "bob" "Bob";
            Scenario.user "carol" "Carol";
            Scenario.friends "alice" "bob"; Scenario.friends "bob" "carol"].
    reflexivity. }
  destruct (proj1 friends_of_friends_top_ten Scenario.abc "alice" 0 Hr
                  eq_refl eq_refl) as [cs [H1 [H2 [H3 [H4 _]]]]].
  exists cs. repeat split; assumption.
Defined.

(** C1 as stated fails: the hub of the star has eleven second-degree
    candidates and the answer lists ten. *)
Lemma friends_of_friends_truncated :
  user_at Scenario.star "hub" 0
  /\ List.length (SecondDegree Scenario.star 0) = 11
  /\ List.length (find_friends_of_friends Scenario.star "hub") = 10.
Proof. repeat split; vm_compute; reflexivity. Qed.

(** ** The statistics of a user *)

Lemma optional_inhabited {A : Type} (l : list A) : exists x, In x (optional l).
Proof.
  destruct (optional l) as [|x t] eqn:E.
  - exfalso. eapply optional_not_nil. exact E.
  - exists x. left. reflexivity.
Qed.

Lemma stats_group_fofs (g : graph) (user_id : string) (u : nat)
    (s : stats_record) :
  users_with_id g user_id = [u] ->
  In s (stats_groups g user_id) ->
  stats_name s = prop_name g u
  /\ potential_connections s = List.length (SecondDegree g u).
Proof.
  intros Hsole Hs. pose proof (sole_user_at g user_id u Hsole) as Hu.
  apply in_stats_groups in Hs.
  destruct Hs as [r [Hr [En [_ [_ Ec]]]]].
  assert (Hone : forall x, In x (stats_rows g user_id) -> r_user x = u).
  { intros x Hx. apply in_stats_rows in Hx. destruct Hx as [Hx _].
    eapply sole_user; eassumption. }
  rewrite (Hone r Hr) in En. split; [exact En|].
  rewrite Ec. apply count_distinct_NoDup; [apply NoDup_SecondDegree|].
  intros c. rewrite in_non_null, in_map_iff, <- in_stats_fofs. split.
  - intros [x [E Hx]]. apply filter_In in Hx. destruct Hx as [Hx _].
    pose proof (Hone x Hx) as Ex. apply in_stats_rows in Hx.
    destruct Hx as [_ [_ [_ Hc]]]. rewrite E, Ex in Hc.
    apply in_optional_some. exact Hc.
  - intros Hc.
    destruct (optional_inhabited (map snd (friends_out g u))) as [f Hf].
    destruct (optional_inhabited (map snd (interests_out g u))) as [i Hi].
    exists (mkRow u f i (Some c)). split; [reflexivity|].
    apply filter_In. split.
    + apply in_stats_rows. simpl. repeat split; auto.
      apply in_optional_some. exact Hc.
    + unfold in_name_group. simpl r_user.
      destruct (ostring_eq_dec (prop_name g u) (stats_name s)) as [|n];
        [reflexivity|exfalso; apply n; symmetry; exact En].
Qed.

Lemma fof_groups_length (g : graph) (user_id : string) (u : nat) :
  reachable g -> unique_user_ids g = true -> user_at g user_id u ->
  List.length (fof_groups g user_id) = List.length (SecondDegree g u).
Proof.
  intros Hr Hq Hu. rewrite (fof_groups_entries g user_id u Hq Hu).
  rewrite length_map. apply NoDup_same_length.
  - apply NoDup_nodup.
  - apply NoDup_SecondDegree.
  - intros c. apply candidates_same; auto. apply reachable_typed. exact Hr.
Qed.

Lemma order_by_desc_length {A : Type} (f : A -> nat) (l : list A) :
  List.length (order_by_desc f l) = List.length l.
Proof. apply Permutation_length, order_by_desc_perm. Qed.

(** C7, as the code has it.  For a user [u] whose id no other node
    carries, the statistics carry as [potential_connections] the number
    of second-degree candidates of [u], each counted once whatever its
    number of mutual friends; with more than ten candidates the
    statistics exceed 10 while [find_friends_of_friends] returns at most
    ten records.  In a graph built through the class the candidates are
    the nodes [find_friends_of_friends] groups before [LIMIT 10], and
    when all user ids are unique there is one record per candidate
    before the limit, so the returned list has the smaller of 10 and
    [potential_connections] entries.  The star shows 11 against 10; the
    diamond shows one candidate with two mutual friends counted once. *)
Theorem potential_connections_untruncated :
  (forall (g : graph) (user_id : string) (u : nat),
      users_with_id g user_id = [u] ->
      exists s,
        get_network_statistics g user_id = Some s
        /\ potential_connections s = List.length (SecondDegree g u)
        /\ (10 < List.length (SecondDegree g u) ->
            10 < potential_connections s
            /\ List.length (find_friends_of_friends g user_id) <= 10)
        /\ (reachable g ->
            (forall c, In c (map b_fof (fof_bindings g user_id))
                       <-> In c (SecondDegree g u))
            /\ (unique_user_ids g = true ->
                potential_connections s
                = List.length (fof_groups g user_id)
                /\ List.length (find_friends_of_friends g user_id)
                   = Nat.min 10 (potential_connections s))))
  /\ (option_map potential_connections
        (get_network_statistics Scenario.star "hub") = Some 11
      /\ List.length (find_friends_of_friends Scenario.star "hub") = 10)
  /\ (option_map potential_connections
        (get_network_statistics Scenario.diamond "a") = Some 1
      /\ map mutual_friends (find_friends_of_friends Scenario.diamond "a")
         = [2]).
Proof.
  split; [|split; split; vm_compute; reflexivity].
  intros g uid u E. pose proof (sole_user_at g uid u E) as Hu.
  destruct (statistics_known g uid u Hu) as [s Hs].
  exists s. split; [exact Hs|].
  destruct (stats_group_fofs g uid u s E (single_some_in _ _ Hs))
    as [_ Hp].
  split; [exact Hp|]. split.
  - intros Hbig. split; [lia|].
    unfold find_friends_of_friends. rewrite length_firstn. lia.
  - intros Hr. pose proof (reachable_typed g Hr) as Ht. split.
    + intros c. rewrite (in_binding_fofs_sole g uid u c E).
      split; [tauto|]. intros H. split; [exact H|].
      apply in_SecondDegree in H. destruct H as [[f [_ Hc]] _].
      apply (typed_friend_users g f c Ht Hc).
    + intros Hq. pose proof (fof_groups_length g uid u Hr Hq Hu) as Hl.
      split; [congruence|].
      unfold find_friends_of_friends.
      rewrite length_firstn, order_by_desc_length. congruence.
Qed.

Lemma potential_connections_untruncated_witness :
  exists s,
    get_network_statistics Scenario.star "hub" = Some s
    /\ potential_connections s = List.length (SecondDegree Scenario.star 0)
    /\ 10 < potential_connections s
    /\ List.length (find_friends_of_friends Scenario.star "hub") = 10.
Proof.
  destruct (proj1 potential_connections_untruncated Scenario.star "hub" 0
                  eq_refl) as [s [H1 [H2 [H3 H4]]]].
  assert (Hr : reachable Scenario.star).
  { exists Scenario.star_calls. reflexivity. }
  assert (Hbig : 10 < List.length (SecondDegree Scenario.star 0)).
  { vm_compute. repeat constructor. }
  destruct (H3 Hbig) as [H5 _].
  destruct (H4 Hr) as [_ H6]. destruct (H6 eq_refl) as [_ H7].
  exists s. split; [exact H1|]. split; [exact H2|]. split; [exact H5|].
  rewrite H7. apply Nat.min_l. lia.
Defined.

(** C7 as stated fails: the second node created with the id of Alice is
    a known user without any second-degree candidate, yet the statistics
    asked for by its id count the candidate of the first Alice. *)
Lemma potential_connections_of_namesake :
  reachable Scenario.namesake
  /\ user_at Scenario.namesake "alice" 3
  /\ SecondDegree Scenario.namesake 3 = []
  /\ option_map potential_connections
       (get_network_statistics Scenario.namesake "alice") = Some 1.
Proof.
  split; [|split; [|split]]; [|reflexivity..].
  exists [Scenario.user "alice" "Alice"; Scenario.user "bob" "Bob";
          Scenario.user "carol" "Carol";
          Scenario.friends "alice" "bob"; Scenario.friends "bob" "carol";
          Scenario.user "alice" "Alice"].
  reflexivity.
Qed.

(** ** Communities *)

Lemma in_interests_in (g : graph) (i j x : nat) :
  In (j, x) (interests_in g i)
  <-> nth_error (rels g) j = Some (INTERESTED_IN x i).
Proof.
  unfold interests_in. rewrite in_flat_map. split.
  - intros [[k r] [Hin H]]. apply in_irels in Hin. simpl in H.
    destruct r as [s d t|s d]; [contradiction|].
    destruct (d =? i) eqn:E; [|contradiction].
    apply Nat.eqb_eq in E. destruct H as [H|[]]. inversion H; subst.
    exact Hin.
  - intros H. exists (j, INTERESTED_IN x i). split.
    + apply in_irels. exact H.
    + simpl. rewrite Nat.eqb_refl. left. reflexivity.
Qed.

Lemma in_memberships (g : graph) (i x : nat) :
  In x (memberships g i)
  <-> In (INTERESTED_IN x i) (rels g) /\ node_sat g is_user x = true.
Proof.
  unfold memberships. rewrite filter_In, in_map_iff. split.
  - intros [[[j y] [E H]] Hu]. simpl in E. subst y.
    apply in_interests_in in H. split; [|exact Hu].
    eapply nth_error_In. exact H.
  - intros [H Hu]. split; [|exact Hu]. apply In_nth_error in H.
    destruct H as [j H]. exists (j, x). split; [reflexivity|].
    apply in_interests_in. exact H.
Qed.

Lemma memberships_extends (g g' : graph) (i x : nat) :
  extends g g' -> In x (memberships g i) -> In x (memberships g' i).
Proof.
  intros [Hr Hn]. rewrite !in_memberships. intros [H Hu]. split.
  - apply Hr. exact H.
  - apply Hn. exact Hu.
Qed.

Lemma community_rows_by_interest (g : graph) :
  community_rows g
  = flat_map (fun i => map (pair i) (memberships g i))
             (match_nodes g is_interest).
Proof.
  unfold community_rows. apply flat_map_ext. intros i. unfold memberships.
  induction (interests_in g i) as [|ru l IH]; [reflexivity|]. simpl.
  destruct (node_sat g is_user (snd ru)); simpl; rewrite IH; reflexivity.
Qed.

Lemma filter_rows_of (h : nat -> list nat) (i : nat) (l : list nat) :
  NoDup l ->
  filter (fun r => fst r =? i) (flat_map (fun j => map (pair j) (h j)) l)
  = if in_dec Nat.eq_dec i l then map (pair i) (h i) else [].
Proof.
  assert (Hsame : forall j, filter (fun r : nat * nat => fst r =? i)
                              (map (pair j) (h j))
                            = if j =? i then map (pair j) (h j) else []).
  { intros j. induction (h j) as [|x t IH]; simpl.
    - destruct (j =? i); reflexivity.
    - rewrite IH. destruct (j =? i); reflexivity. }
  induction l as [|j l IH]; intros Hnd; [reflexivity|].
  inversion Hnd as [|? ? Hj Hl]; subst. simpl flat_map.
  rewrite filter_app, Hsame, (IH Hl).
  destruct (j =? i) eqn:E.
  - apply Nat.eqb_eq in E. subst j.
    destruct (in_dec Nat.eq_dec i (i :: l)) as [_|n];
      [|exfalso; apply n; left; reflexivity].
    destruct (in_dec Nat.eq_dec i l); [contradiction|apply app_nil_r].
  - apply Nat.eqb_neq in E.
    destruct (in_dec Nat.eq_dec i l) as [Hi|Hi];
      destruct (in_dec Nat.eq_dec i (j :: l)) as [Hi'|Hi']; try reflexivity.
    + exfalso. apply Hi'. right. exact Hi.
    + exfalso. destruct Hi' as [H|H]; [congruence|contradiction].
Qed.

Lemma in_community_keys (g : graph) (i : nat) :
  In i (map fst (community_rows g))
  <-> node_sat g is_interest i = true /\ memberships g i <> [].
Proof.
  rewrite community_rows_by_interest, in_map_iff. split.
  - intros [[j x] [E H]]. simpl in E. subst j. apply in_flat_map in H.
    destruct H as [k [Hk H]]. apply in_map_iff in H.
    destruct H as [y [E Hy]]. inversion E; subst.
    split; [apply in_match_nodes; exact Hk|].
    intros E0. rewrite E0 in Hy. contradiction.
  - intros [Hi Hne]. destruct (memberships g i) as [|x t] eqn:E; [congruence|].
    exists (i, x). split; [reflexivity|]. apply in_flat_map. exists i.
    split; [apply in_match_nodes; exact Hi|]. rewrite E. left. reflexivity.
Qed.

Lemma community_groups_entries (g : graph) :
  community_groups g
  = map (community_entry g)
        (nodup Nat.eq_dec (map fst (community_rows g))).
Proof.
  unfold community_groups. apply map_ext_in. intros i Hi.
  apply nodup_In, in_community_keys in Hi. destruct Hi as [Hi _].
  assert (E : map snd (filter (fun r => fst r =? i) (community_rows g))
              = memberships g i).
  { rewrite community_rows_by_interest.
    rewrite filter_rows_of by apply NoDup_match_nodes.
    destruct (in_dec Nat.eq_dec i (match_nodes g is_interest)) as [_|n].
    - rewrite map_map. simpl. apply map_id.
    - exfalso. apply n, in_match_nodes. exact Hi. }
  rewrite E. reflexivity.
Qed.

Lemma filter_map_commute {A B : Type} (p : B -> bool) (h : A -> B)
    (l : list A) :
  filter p (map h l) = map h (filter (fun a => p (h a)) l).
Proof.
  induction l as [|x l IH]; [reflexivity|]. simpl.
  destruct (p (h x)); simpl; rewrite IH; reflexivity.
Qed.

(** An accepted threshold returns the rows of the query; another raises. *)
Lemma find_communities_returns (g : graph) (m : Z) :
  int64 m = true -> find_communities g m = Returned (community_query g m).
Proof. unfold find_communities. intros ->. reflexivity. Qed.

Lemma find_communities_raises (g : graph) (m : Z) :
  int64 m = false -> find_communities g m = Raised OverflowError.
Proof. unfold find_communities. intros ->. reflexivity. Qed.

Lemma find_communities_returned (g : graph) (m : Z)
    (cs : list community_record) :
  find_communities g m = Returned cs ->
  int64 m = true /\ cs = community_query g m.
Proof.
  unfold find_communities. destruct (int64 m); [|discriminate].
  intros E. split; [reflexivity|congruence].
Qed.

(** The rows of the query, node by node. *)
Lemma community_query_entries (g : graph) (min_connections : Z) :
  exists l,
    community_query g min_connections = map (community_entry g) l
    /\ NoDup l
    /\ ranked (fun i => List.length (memberships g i)) l
    /\ forall i, In i l <->
         node_sat g is_interest i = true /\ memberships g i <> []
         /\ (min_connections <= Z.of_nat (List.length (memberships g i)))%Z.
Proof.
  set (m := fun i => List.length (memberships g i)).
  set (keys := nodup Nat.eq_dec (map fst (community_rows g))).
  set (kept := filter (fun i => (min_connections <=? Z.of_nat (m i))%Z) keys).
  exists (order_by_desc m kept).
  assert (Hperm : Permutation (order_by_desc m kept) kept)
    by apply order_by_desc_perm.
  split; [|split; [|split]].
  - unfold community_query. rewrite community_groups_entries.
    fold keys. rewrite filter_map_commute.
    exact (order_by_desc_map size (community_entry g) _).
  - eapply Permutation_NoDup; [apply Permutation_sym; exact Hperm|].
    apply NoDup_filter, NoDup_nodup.
  - apply order_by_desc_ranked.
  - intros i. split.
    + intros H. apply (Permutation_in _ Hperm) in H.
      apply filter_In in H. destruct H as [H Hm].
      apply nodup_In, in_community_keys in H. apply Z.leb_le in Hm.
      destruct H as [H1 H2]. repeat split; assumption.
    + intros [H1 [H2 H3]].
      apply (Permutation_in _ (Permutation_sym Hperm)).
      apply filter_In. split.
      * apply nodup_In, in_community_keys. split; assumption.
      * apply Z.leb_le. exact H3.
Qed.

Lemma in_not_nil {A : Type} (x : A) (l : list A) : In x l -> l <> [].
Proof. intros H E. rewrite E in H. contradiction. Qed.

Lemma not_nil_in {A : Type} (l : list A) : l <> [] -> exists x, In x l.
Proof.
  destruct l as [|x t]; [congruence|]. intros _. exists x. left. reflexivity.
Qed.

Lemma extends_add_node (g : graph) (n : node) : extends g (add_node g n).
Proof.
  split; [apply incl_refl|]. intros p i. apply node_sat_add_node_mono.
Qed.

Lemma extends_add_rels (g : graph) (rs : list rel) : extends g (add_rels g rs).
Proof. split; [apply incl_appl, incl_refl|auto]. Qed.

Lemma populated_extends (g g' : graph) :
  extends g g' -> interest_populated g ->
  forall i, node_sat g is_interest i = true -> memberships g' i <> [].
Proof.
  intros Hx Hp i Hi. destruct (not_nil_in _ (Hp i Hi)) as [x Hxm].
  eapply in_not_nil, memberships_extends; eassumption.
Qed.

Lemma populated_add_interest_row (name : string) (g : graph) (u : nat) :
  interest_populated g -> node_sat g is_user u = true ->
  interest_populated (add_interest_row name g u).
Proof.
  intros Hp Hu i Hi.
  pose proof (extends_add_interest_row name g u) as Hx.
  destruct (add_interest_row_cases name g u) as [[_ E]|[_ E]].
  - rewrite E in Hi.
    change (node_sat (add_node g (InterestNode name)) is_interest i = true)
      in Hi.
    rewrite node_sat_add_node in Hi.
    destruct (i =? List.length (nodes g)) eqn:Ei.
    + apply Nat.eqb_eq in Ei. subst i. apply (in_not_nil u).
      apply in_memberships. split.
      * rewrite E. simpl. apply in_app_iff. right. left. reflexivity.
      * apply (proj2 Hx). exact Hu.
    + eapply populated_extends; eassumption.
  - rewrite E in Hi. eapply populated_extends; eassumption.
Qed.

Lemma populated_perform (g : graph) (c : call) :
  interest_populated g -> interest_populated (snd (perform c g)).
Proof.
  intros Hp. destruct c as [uid nm age loc now|id1 id2 since now|uid nm|].
  - apply (create_user_inv interest_populated uid nm age loc now g);
      [exact Hp|].
    intros i Hi. rewrite node_sat_add_node in Hi.
    destruct (i =? List.length (nodes g)); [discriminate Hi|].
    eapply populated_extends; [apply extends_add_node|exact Hp|exact Hi].
  - intros i Hi.
    eapply populated_extends; [apply extends_add_rels|exact Hp|exact Hi].
  - apply (add_interest_inv interest_populated uid nm g); [|exact Hp].
    intros g0 u. apply populated_add_interest_row.
  - intros i Hi. destruct i; discriminate Hi.
Qed.

Lemma reachable_populated (g : graph) : reachable g -> interest_populated g.
Proof.
  apply reachable_induction.
  - intros i Hi. destruct i; discriminate Hi.
  - intros g0 c _. apply populated_perform.
Qed.

Lemma irels_snoc (l : list rel) (r : rel) (s : nat) :
  combine (seq s (List.length (l ++ [r]))) (l ++ [r])
  = combine (seq s (List.length l)) l ++ [(s + List.length l, r)].
Proof.
  revert s. induction l as [|x l IH]; intros s; simpl.
  - rewrite Nat.add_0_r. reflexivity.
  - rewrite IH. f_equal. f_equal. f_equal. f_equal. lia.
Qed.

Lemma memberships_add_one (g : graph) (u i j : nat) :
  node_sat g is_user u = true ->
  memberships (add_rels g [INTERESTED_IN u i]) j
  = memberships g j ++ (if i =? j then [u] else []).
Proof.
  intros Hu. unfold memberships, interests_in, irels. simpl rels.
  rewrite irels_snoc, flat_map_app, map_app, filter_app. f_equal.
  simpl. destruct (i =? j); [|reflexivity]. simpl.
  change (node_sat (add_rels g [INTERESTED_IN u i]) is_user u)
    with (node_sat g is_user u).
  rewrite Hu. reflexivity.
Qed.

Lemma add_interest_one (g : graph) (user_id name : string) (u i : nat) :
  users_with_id g user_id = [u] -> interests_with_name g name = [i] ->
  snd (add_interest user_id name g) = add_rels g [INTERESTED_IN u i].
Proof.
  intros Eu Ei. simpl. rewrite Eu. simpl.
  unfold add_interest_row, merge_interest. rewrite Ei. reflexivity.
Qed.

Lemma interest_by_name (g : graph) (name : string) (j : nat) :
  node_sat g is_interest j = true -> prop_name g j = Some name ->
  In j (interests_with_name g name).
Proof.
  intros Hj Hn. apply in_match_nodes. revert Hj Hn.
  unfold node_sat, prop_name, prop.
  destruct (nth_error (nodes g) j) as [[|nm]|]; simpl; try discriminate.
  intros _ E. inversion E. apply String.eqb_refl.
Qed.

Lemma interest_name (g : graph) (name : string) (j : nat) :
  In j (interests_with_name g name) ->
  node_sat g is_interest j = true /\ prop_name g j = Some name.
Proof.
  intros H. apply in_match_nodes in H. revert H.
  unfold node_sat, prop_name, prop.
  destruct (nth_error (nodes g) j) as [[|nm]|]; simpl; try discriminate.
  intros E. apply String.eqb_eq in E. subst. split; reflexivity.
Qed.

(** What [find_communities] computes for a threshold the driver can
    send.  In a graph built through the
    class it returns one record per [:Interest] node whose number of
    memberships, one per [INTERESTED_IN] relationship from a user, is at
    least [min_connections], each node once, ranked by that number,
    largest first.  The number is the size of the incident user set when
    no user holds the interest twice.  An interest with one membership
    less than the threshold is left out, and one more [add_interest]
    brings it in; so for the hikers and threshold 3. *)
Theorem communities_by_membership_count :
  (forall (g : graph) (min_connections : Z),
      reachable g -> int64 min_connections = true ->
      exists l,
        find_communities g min_connections
        = Returned (map (community_entry g) l)
        /\ NoDup l
        /\ ranked (fun i => List.length (memberships g i)) l
        /\ forall i, In i l <->
             node_sat g is_interest i = true
             /\ (min_connections
                 <= Z.of_nat (List.length (memberships g i)))%Z)
  /\ (forall (g : graph) (i : nat),
        NoDup (memberships g i) ->
        List.length (memberships g i) = List.length (member_set g i))
  /\ (forall (g : graph) (user_id name : string) (u i : nat)
             (min_connections : Z),
        reachable g -> unique_user_ids g = true -> user_at g user_id u ->
        interests_with_name g name = [i] ->
        int64 min_connections = true ->
        Z.of_nat (List.length (memberships g i)) = (min_connections - 1)%Z ->
        exists before after,
          find_communities g min_connections = Returned before
          /\ find_communities (snd (add_interest user_id name g))
                              min_connections = Returned after
          /\ (forall c, In c before -> interest c <> Some name)
          /\ exists c,
               In c after
               /\ interest c = Some name
               /\ Z.of_nat (size c) = min_connections)
  /\ (find_communities Scenario.two_hikers 3 = Returned []
      /\ find_communities Scenario.three_hikers 3
         = Returned [mkCommunity (Some "hiking") 3 ["Alice"; "Bob"; "Carol"]]).
Proof.
  split; [|split; [|split; [|split; reflexivity]]].
  - intros g m Hr Hm64. rewrite (find_communities_returns g m Hm64).
    destruct (community_query_entries g m) as [l [E [Hn [Hs Hl]]]].
    exists l. split; [rewrite E; reflexivity|].
    split; [exact Hn|]. split; [exact Hs|].
    intros i. rewrite Hl. split; [tauto|]. intros [Hi Hm].
    split; [exact Hi|]. split; [|exact Hm].
    apply (reachable_populated g Hr). exact Hi.
  - intros g i Hnd. unfold member_set.
    rewrite (nodup_fixed_point Nat.eq_dec Hnd). reflexivity.
  - intros g uid nm u i m Hr Hq Hu Ei Hm64 Em.
    set (g' := snd (add_interest uid nm g)).
    exists (community_query g m), (community_query g' m).
    split; [apply find_communities_returns; exact Hm64|].
    split; [apply find_communities_returns; exact Hm64|]. split.
    + intros c Hc En.
      destruct (community_query_entries g m) as [l [E [_ [_ Hl]]]].
      rewrite E in Hc. apply in_map_iff in Hc. destruct Hc as [j [<- Hj]].
      apply Hl in Hj. destruct Hj as [Hj [_ Hm]]. simpl in En.
      pose proof (interest_by_name g nm j Hj En) as Hin.
      rewrite Ei in Hin. destruct Hin as [<-|[]]. lia.
    + assert (Eg : g' = add_rels g [INTERESTED_IN u i]).
      { apply add_interest_one; [|exact Ei].
        apply users_with_id_unique; assumption. }
      assert (Hi : In i (interests_with_name g nm))
        by (rewrite Ei; left; reflexivity).
      apply interest_name in Hi. destruct Hi as [Hi Hn].
      assert (Hmem : memberships g' i = memberships g i ++ [u]).
      { rewrite Eg, memberships_add_one, Nat.eqb_refl; [reflexivity|].
        eapply user_has_id_is_user. exact Hu. }
      destruct (community_query_entries g' m) as [l [E [_ [_ Hl]]]].
      exists (community_entry g' i). split; [|split].
      * rewrite E. apply in_map. apply Hl. rewrite Hmem, length_app. simpl.
        split; [rewrite Eg; exact Hi|].
        split; [destruct (memberships g i); discriminate|lia].
      * simpl. rewrite Eg. exact Hn.
      * simpl. rewrite Hmem, length_app. simpl. lia.
Qed.

Lemma communities_by_membership_count_witness :
  (exists l,
      find_communities Scenario.two_hikers 2
      = Returned (map (community_entry Scenario.two_hikers) l) /\ NoDup l)
  /\ List.length (memberships Scenario.two_hikers 3)
     = List.length (member_set Scenario.two_hikers 3)
  /\ (exists before after,
        find_communities Scenario.two_hikers 3 = Returned before
        /\ find_communities
             (snd (add_interest "carol" "hiking" Scenario.two_hikers)) 3
           = Returned after
        /\ (forall c, In c before -> interest c <> Some "hiking")
        /\ exists c,
             In c after
             /\ interest c = Some "hiking" /\ Z.of_nat (size c) = 3%Z).
Proof.
  assert (Hr : reachable Scenario.two_hikers).
  { exists [Scenario.user "alice" "Alice"; Scenario.user "bob" "Bob";
            Scenario.user "carol" "Carol";
            AddInterest "alice" "hiking"; AddInterest "bob" "hiking"].
    reflexivity. }
  split; [|split].
  - destruct (proj1 communities_by_membership_count Scenario.two_hikers 2%Z
                    Hr eq_refl)
      as [l [H1 [H2 _]]].
    exists l. split; assumption.
  - apply (proj1 (proj2 communities_by_membership_count)).
    vm_compute. repeat constructor; simpl; intuition discriminate.
  - apply (proj1 (proj2 (proj2 communities_by_membership_count))
             Scenario.two_hikers "carol" "hiking" 2 3 3%Z Hr);
      reflexivity.
Defined.

(** C6, at the input where the code departs from it.  Alice alone holds
    hiking, recorded twice: the incident user set of the interest has one
    member, yet threshold 2 returns the interest, with size 2 and Alice
    listed twice among the members. *)
Theorem communities_count_relationships :
  reachable Scenario.twice
  /\ member_set Scenario.twice 1 = [0]
  /\ find_communities Scenario.twice 2
     = Returned [mkCommunity (Some "hiking") 2 ["Alice"; "Alice"]].
Proof.
  split; [|split; reflexivity].
  exists [Scenario.user "alice" "Alice";
          AddInterest "alice" "hiking"; AddInterest "alice" "hiking"].
  reflexivity.
Qed.

(** ** Walks *)

Lemma in_friends_any (g : graph) (x y : nat) :
  In y (friends_any g x) <-> linked g x y.
Proof.
  unfold friends_any, linked. rewrite in_flat_map, !friend_spec. split.
  - intros [r [Hr H]]. destruct r as [s d t|s d]; [|contradiction].
    apply in_app_iff in H. destruct H as [H|H].
    + destruct (s =? x) eqn:E; [|contradiction]. apply Nat.eqb_eq in E.
      destruct H as [H|[]]. subst. left. exists t. exact Hr.
    + destruct (d =? x) eqn:E; [|contradiction]. apply Nat.eqb_eq in E.
      destruct H as [H|[]]. subst. right. exists t. exact Hr.
  - intros [[t H]|[t H]].
    + exists (FRIENDS_WITH x y t). split; [exact H|].
      apply in_app_iff. left. rewrite Nat.eqb_refl. left. reflexivity.
    + exists (FRIENDS_WITH y x t). split; [exact H|].
      apply in_app_iff. right. rewrite Nat.eqb_refl. left. reflexivity.
Qed.

Lemma walk_length (g : graph) (a b : nat) (p : list nat) :
  walk g a p b -> 1 <= List.length p.
Proof. intros H. destruct H; simpl; lia. Qed.

Lemma walk_snoc (g : graph) (a y x : nat) (p : list nat) :
  walk g a p y -> linked g y x -> walk g a (p ++ [x]) x.
Proof.
  intros H Hl. induction H as [a|a b c p Hab H IH]; simpl.
  - apply walk_step with (b := x); [exact Hl|constructor].
  - apply walk_step with (b := b); [exact Hab|apply IH; exact Hl].
Qed.

Lemma walk_unsnoc (g : graph) (a x : nat) (q : list nat) :
  walk g a q x ->
  (q = [a] /\ x = a)
  \/ exists q' y, q = q' ++ [x] /\ walk g a q' y /\ linked g y x.
Proof.
  intros H. induction H as [a|a b c p Hab H IH].
  - left. split; reflexivity.
  - right. destruct IH as [[-> ->]|[q' [y [-> [Hq Hl]]]]].
    + exists [a], a. split; [reflexivity|]. split; [constructor|exact Hab].
    + exists (a :: q'), y. split; [reflexivity|].
      split; [|exact Hl]. apply walk_step with (b := b); assumption.
Qed.

Lemma linked_in_universe (g : graph) (a y x : nat) :
  linked g y x -> In x (universe g a).
Proof.
  unfold linked. rewrite !friend_spec. intros [[t H]|[t H]]; right;
    apply in_flat_map; eexists; (split; [exact H|]); simpl; auto.
Qed.

Lemma walk_in_universe (g : graph) (a x : nat) (q : list nat) :
  walk g a q x -> In x (universe g a).
Proof.
  intros H. destruct (walk_unsnoc g a x q H) as [[_ ->]|[q' [y [_ [_ Hl]]]]].
  - left. reflexivity.
  - eapply linked_in_universe. exact Hl.
Qed.

Lemma universe_length (g : graph) (a : nat) :
  List.length (universe g a) <= S (2 * List.length (rels g)).
Proof.
  unfold universe. simpl. apply le_n_S.
  induction (rels g) as [|r l IH]; simpl; [lia|].
  rewrite length_app. destruct r; simpl; lia.
Qed.

(** ** One level of the search *)

Lemma extend_spec (p : list nat) (ns visited v' : list nat)
    (ps : list (list nat)) :
  extend visited p ns = (v', ps) ->
  (forall x, In x v' <-> In x visited \/ In x ns)
  /\ (NoDup visited -> NoDup v')
  /\ (forall q, In q ps -> exists n, q = n :: p /\ In n ns /\ ~ In n visited)
  /\ (forall n, In n v' -> ~ In n visited -> In (n :: p) ps)
  /\ List.length v' = List.length visited + List.length ps.
Proof.
  revert visited v' ps. induction ns as [|n ns IH]; intros visited v' ps E;
    simpl in E.
  - inversion E; subst. split; [|split; [|split; [|split]]].
    + intros x. simpl. tauto.
    + auto.
    + intros q [].
    + intros n Hn Hnn. contradiction.
    + simpl. lia.
  - fold (mem n visited) in E. destruct (mem n visited) eqn:M.
    + apply mem_spec in M. destruct (IH _ _ _ E) as [A [B [C [D L]]]].
      split; [|split; [|split; [|split]]].
      * intros x. rewrite A. simpl. split; [tauto|].
        intros [H|[H|H]]; subst; tauto.
      * exact B.
      * intros q Hq. destruct (C q Hq) as [m [E1 [E2 E3]]].
        exists m. simpl. tauto.
      * exact D.
      * exact L.
    + apply mem_false in M.
      destruct (extend (n :: visited) p ns) as [v ps'] eqn:E'.
      inversion E; subst. destruct (IH _ _ _ E') as [A [B [C [D L]]]].
      split; [|split; [|split; [|split]]].
      * intros x. rewrite A. simpl. tauto.
      * intros Hnd. apply B. constructor; assumption.
      * intros q [<-|Hq].
        -- exists n. simpl. tauto.
        -- destruct (C q Hq) as [m [E1 [E2 E3]]]. exists m. simpl in *. tauto.
      * intros m Hm Hnm. destruct (Nat.eq_dec m n) as [->|Hne].
        -- left. reflexivity.
        -- right. apply D; [exact Hm|]. simpl. intros [H|H]; congruence.
      * rewrite L. simpl. lia.
Qed.

Lemma expand_spec (g : graph) (frontier : list (list nat))
    (visited v' : list nat) (next : list (list nat)) :
  expand g visited frontier = (v', next) ->
  (forall x, In x v' <->
             In x visited \/ exists p, In p frontier /\ linked g (hd 0 p) x)
  /\ (NoDup visited -> NoDup v')
  /\ (forall q, In q next ->
        exists p n, In p frontier /\ q = n :: p
                    /\ linked g (hd 0 p) n /\ ~ In n visited)
  /\ (forall x, In x v' -> ~ In x visited -> heads next x)
  /\ List.length v' = List.length visited + List.length next.
Proof.
  revert visited v' next.
  induction frontier as [|p fr IH]; intros visited v' next E; simpl in E.
  - inversion E; subst. split; [|split; [|split; [|split]]].
    + intros x. split; [tauto|]. intros [H|[p [[] _]]]. exact H.
    + auto.
    + intros q [].
    + intros x Hx Hnx. contradiction.
    + simpl. lia.
  - destruct (extend visited p (friends_any g (hd 0 p))) as [v1 ps1] eqn:E1.
    destruct (expand g v1 fr) as [v2 ps2] eqn:E2. inversion E; subst.
    destruct (extend_spec _ _ _ _ _ E1) as [A1 [B1 [C1 [D1 L1]]]].
    destruct (IH _ _ _ E2) as [A2 [B2 [C2 [D2 L2]]]].
    split; [|split; [|split; [|split]]].
    + intros x. rewrite A2, A1. split.
      * intros [[H|H]|[q [Hq Hl]]].
        -- left. exact H.
        -- right. exists p. split; [left; reflexivity|].
           apply in_friends_any. exact H.
        -- right. exists q. split; [right; exact Hq|exact Hl].
      * intros [H|[q [[<-|Hq] Hl]]].
        -- left. left. exact H.
        -- left. right. apply in_friends_any. exact Hl.
        -- right. exists q. split; assumption.
    + intros Hnd. apply B2, B1, Hnd.
    + intros q Hq. apply in_app_iff in Hq. destruct Hq as [Hq|Hq].
      * destruct (C1 q Hq) as [n [E3 [E4 E5]]]. exists p, n.
        split; [left; reflexivity|]. split; [exact E3|].
        split; [apply in_friends_any; exact E4|exact E5].
      * destruct (C2 q Hq) as [p' [n [E3 [E4 [E5 E6]]]]]. exists p', n.
        split; [right; exact E3|]. split; [exact E4|]. split; [exact E5|].
        intros H. apply E6, A1. left. exact H.
    + intros x Hx Hnx. destruct (in_dec Nat.eq_dec x v1) as [H1|H1].
      * exists (x :: p). split; [|reflexivity].
        apply in_app_iff. left. apply D1; assumption.
      * destruct (D2 x Hx H1) as [q [Hq Hh]]. exists q.
        split; [apply in_app_iff; right; exact Hq|exact Hh].
    + rewrite L2, L1, length_app. lia.
Qed.

(** ** The search is correct *)

Section Search.

Variables (g : graph) (a b : nat).

Lemma within_mono (k x : nat) : within g a k x -> within g a (S k) x.
Proof. intros [p [Hp Hl]]. exists p. split; [exact Hp|lia]. Qed.

Lemma bfs_found (k : nat) (visited : list nat) (frontier : list (list nat))
    (p : list nat) :
  bfs_inv g a b k visited frontier ->
  find (fun p => hd 0 p =? b) frontier = Some p ->
  shortest g a (rev p) b.
Proof.
  intros Inv Hf. apply find_some in Hf. destruct Hf as [Hp Hb].
  apply Nat.eqb_eq in Hb. destruct (inv_paths _ _ _ _ _ _ Inv p Hp) as [Hw Hl].
  rewrite Hb in Hw. split; [exact Hw|].
  intros q Hq. rewrite length_rev, Hl. apply (inv_far _ _ _ _ _ _ Inv q Hq).
Qed.

Lemma bfs_not_yet (k : nat) (visited : list nat) (frontier : list (list nat)) :
  bfs_inv g a b k visited frontier ->
  find (fun p => hd 0 p =? b) frontier = None ->
  forall q, walk g a q b -> S (S k) <= List.length q.
Proof.
  intros Inv Hf q Hq.
  destruct (le_lt_dec (List.length q) (S k)) as [Hle|Hlt]; [exfalso|lia].
  assert (Hb : In b visited).
  { apply (inv_visited _ _ _ _ _ _ Inv). exists q. split; assumption. }
  destruct (inv_front _ _ _ _ _ _ Inv b Hb (inv_far _ _ _ _ _ _ Inv))
    as [p [Hp Hh]].
  pose proof (find_none _ _ Hf p Hp) as Hn. simpl in Hn.
  rewrite Hh, Nat.eqb_refl in Hn. discriminate.
Qed.

Lemma bfs_step (k : nat) (visited v' : list nat)
    (frontier next : list (list nat)) :
  bfs_inv g a b k visited frontier ->
  find (fun p => hd 0 p =? b) frontier = None ->
  expand g visited frontier = (v', next) ->
  bfs_inv g a b (S k) v' next.
Proof.
  intros Inv Hf E. destruct (expand_spec _ _ _ _ _ E) as [A [B [C [D L]]]].
  constructor.
  - intros q Hq. destruct (C q Hq) as [p [n [Hp [-> [Hl Hn]]]]].
    destruct (inv_paths _ _ _ _ _ _ Inv p Hp) as [Hw Hlen]. split.
    + simpl. eapply walk_snoc; eassumption.
    + simpl. lia.
  - intros x. rewrite A. split.
    + intros [H|[p [Hp Hl]]].
      * apply within_mono, (inv_visited _ _ _ _ _ _ Inv). exact H.
      * destruct (inv_paths _ _ _ _ _ _ Inv p Hp) as [Hw Hlen].
        exists (rev p ++ [x]). split; [eapply walk_snoc; eassumption|].
        rewrite length_app, length_rev. simpl. lia.
    + intros [q [Hq Hlen]].
      destruct (walk_unsnoc g a x q Hq) as [[_ ->]|[q' [y [-> [Hq' Hl]]]]].
      * left. apply (inv_visited _ _ _ _ _ _ Inv). exists [a].
        split; [constructor|simpl; lia].
      * rewrite length_app in Hlen. simpl in Hlen.
        assert (Hy : In y visited).
        { apply (inv_visited _ _ _ _ _ _ Inv). exists q'.
          split; [exact Hq'|lia]. }
        destruct (inv_closed _ _ _ _ _ _ Inv y Hy) as [[p [Hp Hh]]|Hc].
        -- right. exists p. split; [exact Hp|]. rewrite Hh. exact Hl.
        -- left. apply Hc. exact Hl.
  - intros x Hx Hfar. destruct (in_dec Nat.eq_dec x visited) as [Hv|Hv].
    + exfalso. apply (inv_visited _ _ _ _ _ _ Inv) in Hv.
      destruct Hv as [q [Hq Hlen]]. specialize (Hfar q Hq). lia.
    + apply D; assumption.
  - intros x Hx. destruct (in_dec Nat.eq_dec x visited) as [Hv|Hv].
    + right. intros y Hl. apply A.
      destruct (inv_closed _ _ _ _ _ _ Inv x Hv) as [[p [Hp Hh]]|Hc].
      * right. exists p. split; [exact Hp|]. rewrite Hh. exact Hl.
      * left. apply Hc. exact Hl.
    + left. apply D; assumption.
  - eapply bfs_not_yet; eassumption.
  - apply B, (inv_nodup _ _ _ _ _ _ Inv).
Qed.

Lemma bfs_exhausted (k : nat) (visited : list nat) :
  bfs_inv g a b k visited [] -> ~ connected g a b.
Proof.
  intros Inv [q Hq].
  assert (Hclosed : forall x y, In x visited -> linked g x y -> In y visited).
  { intros x y Hx Hl.
    destruct (inv_closed _ _ _ _ _ _ Inv x Hx) as [[p [[] _]]|Hc].
    apply Hc. exact Hl. }
  assert (Hall : forall s p t, walk g s p t -> In s visited -> In t visited).
  { intros s p t H. induction H as [s|s m t p Hl H IH]; [auto|].
    intros Hs. apply IH. eapply Hclosed; eassumption. }
  assert (Ha : In a visited).
  { apply (inv_visited _ _ _ _ _ _ Inv). exists [a].
    split; [constructor|simpl; lia]. }
  pose proof (Hall a q b Hq Ha) as Hb.
  destruct (inv_front _ _ _ _ _ _ Inv b Hb (inv_far _ _ _ _ _ _ Inv))
    as [p [[] _]].
Qed.

Lemma visited_bounded (k : nat) (visited : list nat)
    (frontier : list (list nat)) :
  bfs_inv g a b k visited frontier ->
  List.length visited <= List.length (universe g a).
Proof.
  intros Inv. apply NoDup_incl_length; [apply (inv_nodup _ _ _ _ _ _ Inv)|].
  intros x Hx. apply (inv_visited _ _ _ _ _ _ Inv) in Hx.
  destruct Hx as [q [Hq _]]. eapply walk_in_universe. exact Hq.
Qed.

(** With enough fuel the search answers, and answers right. *)
Lemma bfs_correct (fuel : nat) :
  forall (k : nat) (visited : list nat) (frontier : list (list nat)),
    bfs_inv g a b k visited frontier ->
    List.length (universe g a) < fuel + List.length visited ->
    match bfs fuel g b visited frontier with
    | Some p => shortest g a p b
    | None => ~ connected g a b
    end.
Proof.
  induction fuel as [|fuel IH]; intros k visited frontier Inv Hfuel.
  - pose proof (visited_bounded k visited frontier Inv). lia.
  - simpl. destruct (find (fun p => hd 0 p =? b) frontier) as [p|] eqn:Hf.
    + eapply bfs_found; eassumption.
    + destruct (expand g visited frontier) as [v' next] eqn:E.
      pose proof (bfs_step k visited v' frontier next Inv Hf E) as Inv'.
      destruct (expand_spec _ _ _ _ _ E) as [_ [_ [_ [_ L]]]].
      destruct next as [|q next].
      * eapply bfs_exhausted. exact Inv'.
      * apply (IH (S k)); [exact Inv'|].
        assert (Hn : List.length (q :: next) = S (List.length next))
          by reflexivity.
        lia.
Qed.

Lemma bfs_start : bfs_inv g a b 0 [a] [[a]].
Proof.
  constructor.
  - intros p [<-|[]]. split; [constructor|reflexivity].
  - intros x. split.
    + intros [<-|[]]. exists [a]. split; [constructor|simpl; lia].
    + intros [q [Hq Hl]]. destruct Hq as [s|s m t p Hlk Hq].
      * left. reflexivity.
      * apply walk_length in Hq. simpl in Hl. lia.
  - intros x [<-|[]] _. exists [a]. split; [left; reflexivity|reflexivity].
  - intros x [<-|[]]. left. exists [a].
    split; [left; reflexivity|reflexivity].
  - intros q Hq. eapply walk_length. exact Hq.
  - constructor; [intros []|constructor].
Qed.

Lemma shortest_path_correct :
  match shortest_path g a b with
  | Some p => shortest g a p b
  | None => ~ connected g a b
  end.
Proof.
  unfold shortest_path. apply (bfs_correct _ 0); [apply bfs_start|].
  pose proof (universe_length g a).
  assert (List.length [a] = 1) by reflexivity. lia.
Qed.

Lemma shortest_path_some (p : list nat) :
  shortest_path g a b = Some p -> shortest g a p b.
Proof. intros E. pose proof shortest_path_correct as H. rewrite E in H. exact H. Qed.

Lemma shortest_path_none : shortest_path g a b = None -> ~ connected g a b.
Proof. intros E. pose proof shortest_path_correct as H. rewrite E in H. exact H. Qed.

Lemma shortest_path_connected :
  connected g a b -> exists p, shortest_path g a b = Some p.
Proof.
  intros Hc. destruct (shortest_path g a b) as [p|] eqn:E.
  - exists p. reflexivity.
  - exfalso. apply (shortest_path_none E). exact Hc.
Qed.

End Search.

(** ** The rows of find_shortest_connection_path *)

Lemma path_rows_distinct (g : graph) (pairs : list (nat * nat)) :
  (forall ab, In ab pairs -> fst ab <> snd ab) ->
  exists ps,
    path_rows g pairs = Returned ps
    /\ forall p, In p ps <->
         exists ab, In ab pairs
                    /\ shortest_path g (fst ab) (snd ab) = Some p.
Proof.
  induction pairs as [|ab rest IH]; intros Hne.
  - exists []. split; [reflexivity|]. intros p. split; [intros []|].
    intros [ab [[] _]].
  - destruct IH as [ps [E Hps]].
    { intros x Hx. apply Hne. right. exact Hx. }
    assert (Hab : (fst ab =? snd ab) = false).
    { apply Nat.eqb_neq, Hne. left. reflexivity. }
    simpl. rewrite Hab, E.
    destruct (shortest_path g (fst ab) (snd ab)) as [p0|] eqn:Es.
    + exists (p0 :: ps). split; [reflexivity|]. intros p. simpl. rewrite Hps.
      split.
      * intros [<-|[x [Hx Hs]]].
        -- exists ab. split; [left; reflexivity|exact Es].
        -- exists x. split; [right; exact Hx|exact Hs].
      * intros [x [[<-|Hx] Hs]].
        -- left. congruence.
        -- right. exists x. split; assumption.
    + exists ps. split; [reflexivity|]. intros p. rewrite Hps. split.
      * intros [x [Hx Hs]]. exists x. split; [right; exact Hx|exact Hs].
      * intros [x [[<-|Hx] Hs]]; [congruence|].
        exists x. split; assumption.
Qed.





(* ================================================================== *)
(** * Further properties of the methods *)

(** ** Relationships never dangle *)

Lemma typed_rel_in_range (g : graph) (r : rel) : typed_rel g r -> in_range g r.
Proof.
  destruct r; simpl; intros [H1 H2]; split; eapply node_sat_lt; eassumption.
Qed.

(** X2. In every graph built through the class each [FRIENDS_WITH]
    relationship joins two [:User] nodes of the store and each
    [INTERESTED_IN] relationship leads from a [:User] node to an
    [:Interest] node of the store. *)
Theorem relationships_well_typed :
  forall g : graph, reachable g ->
    forall r, In r (rels g) -> typed_rel g r /\ in_range g r.
Proof.
  intros g Hr r Hin. pose proof (reachable_typed g Hr) as Ht.
  unfold typed in Ht. rewrite Forall_forall in Ht. specialize (Ht r Hin).
  split; [exact Ht|apply typed_rel_in_range; exact Ht].
Qed.

Lemma relationships_well_typed_witness :
  typed_rel Scenario.two_hikers (INTERESTED_IN 1 3)
  /\ in_range Scenario.two_hikers (INTERESTED_IN 1 3).
Proof.
  apply (relationships_well_typed Scenario.two_hikers).
  - exists [Scenario.user "alice" "Alice"; Scenario.user "bob" "Bob";
            Scenario.user "carol" "Carol";
            AddInterest "alice" "hiking"; AddInterest "bob" "hiking"].
    reflexivity.
  - right. left. reflexivity.
Defined.

(** ** Answers without matches *)

Lemma flat_map_nil {A B : Type} (f : A -> list B) (l : list A) :
  (forall x, In x l -> f x = []) -> flat_map f l = [].
Proof.
  induction l as [|x l IH]; intros H; [reflexivity|]. simpl.
  rewrite (H x (or_introl eq_refl)). apply IH. intros y Hy. apply H.
  right. exact Hy.
Qed.

Lemma fof_bindings_friendless (g : graph) (user_id : string) :
  (forall u, user_at g user_id u -> friends_out g u = []) ->
  fof_bindings g user_id = [].
Proof.
  intros H. unfold fof_bindings. apply flat_map_nil. intros u Hu.
  apply in_users_with_id in Hu. rewrite (H u Hu). reflexivity.
Qed.

Lemma rec_bindings_no_interest (g : graph) (user_id : string) :
  (forall u, user_at g user_id u -> interests_out g u = []) ->
  rec_bindings g user_id = [].
Proof.
  intros H. unfold rec_bindings. apply flat_map_nil. intros u Hu.
  apply in_users_with_id in Hu. rewrite (H u Hu). reflexivity.
Qed.

(** X3. A user id that matches no node, or only users without friends,
    gets the empty list from [find_friends_of_friends]; one that matches
    no node, or only users without interests, gets the empty list from
    [recommend_friends_by_interests].  Neither call fails. *)
Theorem recommendations_empty_without_matches :
  forall (g : graph) (user_id : string),
    ((forall u, user_at g user_id u -> friends_out g u = []) ->
     find_friends_of_friends g user_id = [])
    /\ ((forall u, user_at g user_id u -> interests_out g u = []) ->
        recommend_friends_by_interests g user_id = []).
Proof.
  intros g uid. split; intros H.
  - unfold find_friends_of_friends, fof_groups.
    rewrite (fof_bindings_friendless g uid H). reflexivity.
  - unfold recommend_friends_by_interests, rec_groups, rec_group.
    rewrite (rec_bindings_no_interest g uid H). reflexivity.
Qed.

Lemma recommendations_empty_without_matches_witness :
  find_friends_of_friends Scenario.two_hikers "ghost" = []
  /\ find_friends_of_friends Scenario.two_hikers "alice" = []
  /\ recommend_friends_by_interests Scenario.abc "bob" = [].
Proof.
  split; [|split].
  - apply (proj1 (recommendations_empty_without_matches
                    Scenario.two_hikers "ghost")).
    intros u _. reflexivity.
  - apply (proj1 (recommendations_empty_without_matches
                    Scenario.two_hikers "alice")).
    intros u _. reflexivity.
  - apply (proj2 (recommendations_empty_without_matches Scenario.abc "bob")).
    intros u _. reflexivity.
Defined.

(** ** Ranked answers of any store *)

Lemma count_distinct_pos (x : nat) (l : list nat) :
  In x l -> 1 <= count_distinct l.
Proof.
  intros H. unfold count_distinct.
  assert (Hn : In x (nodup Nat.eq_dec l)) by (apply nodup_In; exact H).
  destruct (nodup Nat.eq_dec l); [contradiction|simpl; lia].
Qed.

Lemma firstn_at_most {A : Type} (k : nat) (l : list A) :
  List.length (firstn k l) <= k.
Proof. rewrite length_firstn. lia. Qed.

(** X4. Whatever the store holds, duplicate ids included,
    [find_friends_of_friends] returns at most ten records, ranked by
    [mutual_friends] with the largest first, and every record counts at
    least one mutual friend. *)
Theorem friends_of_friends_ranked :
  forall (g : graph) (user_id : string),
    List.length (find_friends_of_friends g user_id) <= 10
    /\ ranked mutual_friends (find_friends_of_friends g user_id)
    /\ forall r, In r (find_friends_of_friends g user_id) ->
                 1 <= mutual_friends r.
Proof.
  intros g uid. unfold find_friends_of_friends.
  split; [apply firstn_at_most|]. split.
  - apply ranked_firstn, order_by_desc_ranked.
  - intros r Hr. apply in_firstn in Hr.
    apply (Permutation_in _ (order_by_desc_perm _ _)) in Hr.
    unfold fof_groups in Hr. apply in_map_iff in Hr.
    destruct Hr as [k [<- Hk]]. simpl. apply nodup_In in Hk.
    apply in_map_iff in Hk. destruct Hk as [b [Eb Hb]].
    apply (count_distinct_pos (b_friend b)). apply in_map.
    apply filter_In. split; [exact Hb|]. unfold in_group.
    destruct (key_eq_dec (fof_key g (b_fof b)) k); [reflexivity|contradiction].
Qed.

(** ** What the statistics count *)

Lemma in_interests_out (g : graph) (a i d : nat) :
  In (i, d) (interests_out g a)
  <-> nth_error (rels g) i = Some (INTERESTED_IN a d).
Proof.
  unfold interests_out. rewrite in_flat_map. split.
  - intros [[j r] [Hin H]]. apply in_irels in Hin. simpl in H.
    destruct r as [s d' t|s d']; [contradiction|].
    destruct (s =? a) eqn:E; [|contradiction].
    apply Nat.eqb_eq in E. destruct H as [H|[]]. inversion H; subst.
    exact Hin.
  - intros H. exists (i, INTERESTED_IN a d). split.
    + apply in_irels. exact H.
    + simpl. rewrite Nat.eqb_refl. left. reflexivity.
Qed.

Lemma in_held (g : graph) (u i : nat) :
  In i (held g u) <-> In (INTERESTED_IN u i) (rels g).
Proof.
  unfold held. rewrite nodup_In, in_map_iff. split.
  - intros [[j d] [E H]]. simpl in E. subst d. apply in_interests_out in H.
    eapply nth_error_In. exact H.
  - intros H. apply In_nth_error in H. destruct H as [j H].
    exists (j, i). split; [reflexivity|]. apply in_interests_out. exact H.
Qed.

Lemma stats_group_counts (g : graph) (user_id : string) (u : nat)
    (s : stats_record) :
  unique_user_ids g = true -> user_at g user_id u ->
  In s (stats_groups g user_id) ->
  friend_count s = List.length (one_hop g u)
  /\ interest_count s = List.length (held g u).
Proof.
  intros Hq Hu Hs. apply in_stats_groups in Hs.
  destruct Hs as [r [Hr [En [Ef [Ei _]]]]].
  assert (Hone : forall x, In x (stats_rows g user_id) -> r_user x = u).
  { intros x Hx. apply in_stats_rows in Hx. destruct Hx as [Hx _].
    eapply (proj1 (unique_user_ids_spec g)); eassumption. }
  rewrite (Hone r Hr) in En.
  assert (Hgrp : forall x, In x (stats_rows g user_id) ->
                           in_name_group g (stats_name s) x = true).
  { intros x Hx. unfold in_name_group. rewrite (Hone x Hx).
    destruct (ostring_eq_dec (prop_name g u) (stats_name s)) as [|n];
      [reflexivity|exfalso; apply n; symmetry; exact En]. }
  destruct (optional_inhabited (map snd (friends_out g u))) as [f0 Hf0].
  destruct (optional_inhabited (map snd (interests_out g u))) as [i0 Hi0].
  destruct (optional_inhabited (stats_fofs g u)) as [c0 Hc0].
  split.
  - rewrite Ef. apply count_distinct_NoDup; [apply NoDup_one_hop|].
    intros f. unfold one_hop. rewrite nodup_In, in_non_null, in_map_iff. split.
    + intros [x [E Hx]]. apply filter_In in Hx. destruct Hx as [Hx _].
      pose proof (Hone x Hx) as Ex. apply in_stats_rows in Hx.
      destruct Hx as [_ [Hf _]]. rewrite E, Ex in Hf.
      apply in_optional_some. exact Hf.
    + intros Hf. exists (mkRow u (Some f) i0 c0). split; [reflexivity|].
      assert (Hrow : In (mkRow u (Some f) i0 c0) (stats_rows g user_id)).
      { apply in_stats_rows. simpl. repeat split; auto.
        apply in_optional_some. exact Hf. }
      apply filter_In. split; [exact Hrow|apply Hgrp; exact Hrow].
  - rewrite Ei. apply count_distinct_NoDup; [apply NoDup_nodup|].
    intros i. unfold held. rewrite nodup_In, in_non_null, in_map_iff. split.
    + intros [x [E Hx]]. apply filter_In in Hx. destruct Hx as [Hx _].
      pose proof (Hone x Hx) as Ex. apply in_stats_rows in Hx.
      destruct Hx as [_ [_ [Hi _]]]. rewrite E, Ex in Hi.
      apply in_optional_some. exact Hi.
    + intros Hi. exists (mkRow u f0 (Some i) c0). split; [reflexivity|].
      assert (Hrow : In (mkRow u f0 (Some i) c0) (stats_rows g user_id)).
      { apply in_stats_rows. simpl. repeat split; auto.
        apply in_optional_some. exact Hi. }
      apply filter_In. split; [exact Hrow|apply Hgrp; exact Hrow].
Qed.

(** X5. For a known user of a store with unique user ids,
    [get_network_statistics] carries the user's name, as [friend_count]
    the number of distinct nodes the user has a [FRIENDS_WITH]
    relationship to, and as [interest_count] the number of distinct nodes
    the user is [INTERESTED_IN]: parallel relationships and the product of
    the three [OPTIONAL MATCH]es do not inflate the counts. *)
Theorem statistics_count_distinct :
  forall (g : graph) (user_id : string) (u : nat),
    unique_user_ids g = true -> user_at g user_id u ->
    exists s,
      get_network_statistics g user_id = Some s
      /\ stats_name s = prop_name g u
      /\ friend_count s = List.length (one_hop g u)
      /\ interest_count s = List.length (held g u)
      /\ (forall f, In f (one_hop g u) <-> friend g u f = true)
      /\ (forall i, In i (held g u) <-> In (INTERESTED_IN u i) (rels g)).
Proof.
  intros g uid u Hq Hu. destruct (statistics_known g uid u Hu) as [s Hs].
  exists s. split; [exact Hs|]. apply single_some_in in Hs.
  destruct (stats_group_fofs g uid u s
              (users_with_id_unique g uid u Hq Hu) Hs) as [Hn _].
  destruct (stats_group_counts g uid u s Hq Hu Hs) as [Hf Hi].
  split; [exact Hn|]. split; [exact Hf|]. split; [exact Hi|].
  split; [intros f; apply in_one_hop|intros i; apply in_held].
Qed.

Lemma statistics_count_distinct_witness :
  exists s,
    get_network_statistics Scenario.twice "alice" = Some s
    /\ stats_name s = Some "Alice"
    /\ friend_count s = 0
    /\ interest_count s = 1.
Proof.
  destruct (statistics_count_distinct Scenario.twice "alice" 0
              eq_refl eq_refl) as [s [H1 [H2 [H3 [H4 _]]]]].
  exists s. split; [exact H1|]. split; [exact H2|].
  split; [exact H3|exact H4].
Defined.

(** ** A user just created *)

Lemma no_elements_nil {A : Type} (l : list A) :
  (forall x, ~ In x l) -> l = [].
Proof.
  destruct l as [|x l]; [reflexivity|]. intros H. exfalso. apply (H x).
  left. reflexivity.
Qed.

Lemma out_of_range_no_friends (g : graph) (n : nat) :
  typed g -> List.length (nodes g) <= n -> friends_out g n = [].
Proof.
  intros Ht Hn. apply no_elements_nil. intros [i d] H.
  apply rel_is_friend in H. apply (typed_friend_users g n d Ht) in H.
  destruct H as [H _]. apply node_sat_lt in H. lia.
Qed.

Lemma out_of_range_no_interests (g : graph) (n : nat) :
  typed g -> List.length (nodes g) <= n -> interests_out g n = [].
Proof.
  intros Ht Hn. apply no_elements_nil. intros [i d] H.
  apply in_interests_out in H. apply nth_error_In in H.
  unfold typed in Ht. rewrite Forall_forall in Ht. specialize (Ht _ H).
  simpl in Ht. destruct Ht as [Hs _]. apply node_sat_lt in Hs. lia.
Qed.

Lemma prop_add_node_new (g : graph) (n : node) (f : node -> option string) :
  prop (add_node g n) f (List.length (nodes g)) = f n.
Proof.
  unfold prop, add_node. simpl.
  rewrite nth_error_app2, Nat.sub_diag by lia. reflexivity.
Qed.

Lemma stats_groups_no_relationship (g : graph) (user_id : string)
    (s : stats_record) :
  (forall u, user_at g user_id u ->
             friends_out g u = [] /\ interests_out g u = []) ->
  In s (stats_groups g user_id) ->
  friend_count s = 0 /\ interest_count s = 0 /\ potential_connections s = 0.
Proof.
  intros Hnone Hs. apply in_stats_groups in Hs.
  destruct Hs as [r [_ [_ [Ef [Ei Ec]]]]]. rewrite Ef, Ei, Ec.
  split; [|split]; (rewrite column_all_null; [reflexivity|]);
    intros x Hx; apply filter_In in Hx; destruct Hx as [Hx _];
    apply in_stats_rows in Hx; destruct Hx as [Hxu [Hxf [Hxi Hxc]]];
    destruct (Hnone _ Hxu) as [E1 E2].
  - rewrite E1 in Hxf. apply in_optional_nil. exact Hxf.
  - rewrite E2 in Hxi. apply in_optional_nil. exact Hxi.
  - rewrite (stats_fofs_no_friends g _ E1) in Hxc.
    apply in_optional_nil. exact Hxc.
Qed.

(** X6. In a graph built through the class, [create_user] with an id no
    node carries yet and an [age] the driver can send makes a user whose
    statistics are its name with three zero counts and for whom both
    recommendation queries return the empty list. *)
Theorem created_user_starts_empty :
  forall (g : graph) (user_id name : string) (age : Z)
         (location now : string),
    reachable g -> users_with_id g user_id = [] -> int64 age = true ->
    let g' := snd (create_user user_id name age location now g) in
    users_with_id g' user_id = [List.length (nodes g)]
    /\ get_network_statistics g' user_id = Some (mkStats (Some name) 0 0 0)
    /\ find_friends_of_friends g' user_id = []
    /\ recommend_friends_by_interests g' user_id = [].
Proof.
  intros g uid name age loc now Hr Hfresh Hage g0.
  assert (Eg : g0 = add_node g (UserNode uid name age loc now)).
  { unfold g0, create_user. rewrite Hage. reflexivity. }
  clearbody g0. subst g0.
  set (g' := add_node g (UserNode uid name age loc now)).
  pose proof (reachable_typed g Hr) as Ht.
  assert (Eu : users_with_id g' uid = [List.length (nodes g)]).
  { unfold g', users_with_id.
    rewrite match_nodes_add_node. fold (users_with_id g uid).
    rewrite Hfresh. simpl. rewrite String.eqb_refl. reflexivity. }
  assert (Hnew : forall u, user_at g' uid u -> u = List.length (nodes g)).
  { intros u Hu. apply in_users_with_id in Hu. rewrite Eu in Hu.
    destruct Hu as [<-|[]]. reflexivity. }
  assert (Hnone : forall u, user_at g' uid u ->
                    friends_out g' u = [] /\ interests_out g' u = []).
  { intros u Hu. rewrite (Hnew u Hu). split.
    - apply (out_of_range_no_friends g); [exact Ht|lia].
    - apply (out_of_range_no_interests g); [exact Ht|lia]. }
  split; [exact Eu|]. split; [|split].
  - assert (Hu : user_at g' uid (List.length (nodes g))).
    { apply in_users_with_id. rewrite Eu. left. reflexivity. }
    destruct (statistics_known g' uid _ Hu) as [s Hs]. rewrite Hs. f_equal.
    apply single_some_in in Hs.
    destruct (stats_groups_no_relationship g' uid s Hnone Hs) as [A [B C]].
    apply in_stats_groups in Hs. destruct Hs as [r [Hr' [En _]]].
    apply in_stats_rows in Hr'. destruct Hr' as [Hru _].
    rewrite (Hnew _ Hru) in En. unfold g', prop_name in En.
    rewrite prop_add_node_new in En. simpl in En.
    destruct s; simpl in *. subst. reflexivity.
  - unfold find_friends_of_friends, fof_groups.
    rewrite (fof_bindings_friendless g' uid); [reflexivity|].
    intros u Hu. apply (Hnone u Hu).
  - unfold recommend_friends_by_interests, rec_groups, rec_group.
    rewrite (rec_bindings_no_interest g' uid); [reflexivity|].
    intros u Hu. apply (Hnone u Hu).
Qed.

Lemma created_user_starts_empty_witness :
  get_network_statistics
    (snd (create_user "dora" "Dora" 33%Z "Boston" "2024-08-08" Scenario.abc))
    "dora"
  = Some (mkStats (Some "Dora") 0 0 0).
Proof.
  refine (proj1 (proj2 (created_user_starts_empty Scenario.abc "dora" "Dora"
                          33%Z "Boston" "2024-08-08" _ eq_refl eq_refl))).
  exists [Scenario.user "alice" "Alice"; Scenario.user "bob" "Bob";
          Scenario.user "carol" "Carol";
          Scenario.friends "alice" "bob"; Scenario.friends "bob" "carol"].
  reflexivity.
Defined.

(** ** Communities of any store *)

Lemma non_null_length {A B : Type} (f : A -> option B) (l : list A) :
  (forall x, In x l -> exists s, f x = Some s) ->
  List.length (non_null (map f l)) = List.length l.
Proof.
  induction l as [|x l IH]; intros H; [reflexivity|]. simpl.
  destruct (H x (or_introl eq_refl)) as [s E]. rewrite E. simpl. f_equal.
  apply IH. intros y Hy. apply H. right. exact Hy.
Qed.

Lemma user_has_name (g : graph) (p : node -> bool) (x : nat) :
  node_sat g p x = true -> exists s, prop_name g x = Some s.
Proof.
  unfold node_sat, prop_name, prop.
  destruct (nth_error (nodes g) x) as [n|]; [|discriminate].
  intros _. exists (node_name n). reflexivity.
Qed.

Lemma in_community_query (g : graph) (m : Z) (c : community_record) :
  In c (community_query g m)
  <-> (m <= Z.of_nat (size c))%Z
      /\ exists i, c = community_entry g i
                   /\ node_sat g is_interest i = true
                   /\ memberships g i <> [].
Proof.
  unfold community_query. split.
  - intros H. apply (Permutation_in _ (order_by_desc_perm _ _)) in H.
    apply filter_In in H. destruct H as [H Hm]. apply Z.leb_le in Hm.
    split; [exact Hm|]. rewrite community_groups_entries in H.
    apply in_map_iff in H. destruct H as [i [<- Hi]].
    apply nodup_In, in_community_keys in Hi. exists i.
    split; [reflexivity|exact Hi].
  - intros [Hm [i [-> Hi]]].
    apply (Permutation_in _ (Permutation_sym (order_by_desc_perm _ _))).
    apply filter_In. split; [|apply Z.leb_le; exact Hm].
    rewrite community_groups_entries. apply in_map.
    apply nodup_In, in_community_keys. exact Hi.
Qed.

(** X7. Whatever the store holds, [find_communities] with a threshold
    the driver can send returns its records ranked by [size], largest
    first; every record has a size of at least the threshold and at
    least 1, and lists exactly [size] member names; and a higher
    threshold returns no record a lower one does not.  A threshold
    outside 64 bits raises [OverflowError]. *)
Theorem communities_ranked_and_monotone :
  forall (g : graph) (m : Z),
    (int64 m = true ->
     exists cs,
       find_communities g m = Returned cs
       /\ ranked size cs
       /\ (forall c, In c cs ->
             (m <= Z.of_nat (size c))%Z /\ 1 <= size c
             /\ List.length (members c) = size c)
       /\ (forall m' cs', (m <= m')%Z ->
             find_communities g m' = Returned cs' -> incl cs' cs))
    /\ (int64 m = false -> find_communities g m = Raised OverflowError).
Proof.
  intros g m. split; [|apply find_communities_raises].
  intros Hm64. exists (community_query g m).
  split; [apply find_communities_returns; exact Hm64|].
  split; [apply order_by_desc_ranked|]. split.
  - intros c Hc. apply in_community_query in Hc.
    destruct Hc as [Hm [i [-> [Hi Hne]]]]. split; [exact Hm|]. simpl. split.
    + destruct (memberships g i); [congruence|simpl; lia].
    + apply non_null_length. intros x Hx. apply in_memberships in Hx.
      destruct Hx as [_ Hx]. eapply user_has_name. exact Hx.
  - intros m' cs' Hle E c Hc.
    apply find_communities_returned in E. destruct E as [_ ->].
    apply in_community_query in Hc.
    apply in_community_query. destruct Hc as [Hm Hi].
    split; [lia|exact Hi].
Qed.

Lemma communities_ranked_and_monotone_witness :
  (exists cs,
      find_communities Scenario.three_hikers 2 = Returned cs
      /\ ranked size cs
      /\ (forall c, In c cs -> List.length (members c) = size c)
      /\ incl [mkCommunity (Some "hiking") 3 ["Alice"; "Bob"; "Carol"]] cs)
  /\ find_communities Scenario.three_hikers (-9223372036854775809)
     = Raised OverflowError.
Proof.
  split.
  - destruct (proj1 (communities_ranked_and_monotone Scenario.three_hikers 2)
                    eq_refl) as [cs [H1 [H2 [H3 H4]]]].
    exists cs. split; [exact H1|]. split; [exact H2|]. split.
    + intros c Hc. apply (H3 c Hc).
    + apply (H4 3%Z); [lia|reflexivity].
  - apply (proj2 (communities_ranked_and_monotone Scenario.three_hikers
                    (-9223372036854775809))).
    reflexivity.
Defined.

(** ** Interests and communities *)

Lemma prop_name_sat (g : graph) (x : nat) (s : string) :
  prop_name g x = Some s
  <-> node_sat g (fun n => String.eqb (node_name n) s) x = true.
Proof.
  unfold prop_name, prop, node_sat.
  destruct (nth_error (nodes g) x) as [n|]; [|split; discriminate].
  rewrite String.eqb_eq. split; congruence.
Qed.

Lemma in_member_names (g : graph) (l : list nat) (x : nat) (s : string) :
  In x l -> prop_name g x = Some s ->
  In s (non_null (map (prop_name g) l)).
Proof.
  intros Hx Hs. apply in_non_null. rewrite <- Hs. apply in_map. exact Hx.
Qed.

(** X8. In a graph built through the class, after [add_interest] for a
    known user the interest is a community at threshold 1: a record of
    [find_communities] carries the interest's name and lists the user's
    name among its members; and no [:Interest] node of such a graph is
    ever left out at threshold 1. *)
Theorem added_interest_is_a_community :
  (forall (g : graph) (user_id name : string) (u : nat),
      reachable g -> user_at g user_id u ->
      let g' := snd (add_interest user_id name g) in
      exists cs c s,
        find_communities g' 1 = Returned cs
        /\ In c cs
        /\ interest c = Some name
        /\ prop_name g u = Some s /\ In s (members c))
  /\ (forall (g : graph) (i : nat),
        reachable g -> node_sat g is_interest i = true ->
        exists cs,
          find_communities g 1 = Returned cs
          /\ In (community_entry g i) cs).
Proof.
  split.
  - intros g uid nm u Hr Hu g'.
    destruct (interest_fold_post nm (users_with_id g uid) g) as [_ [B _]].
    destruct (B u) as [i [Hi Hrel]]; [apply in_users_with_id; exact Hu|].
    fold (snd (add_interest uid nm g)) in Hi, Hrel. fold g' in Hi, Hrel.
    assert (Hx : extends g g') by apply extends_fold.
    destruct (user_has_name g _ u Hu) as [s Hs].
    assert (Hs' : prop_name g' u = Some s).
    { apply prop_name_sat. apply (proj2 Hx). apply prop_name_sat. exact Hs. }
    assert (Hmem : In u (memberships g' i)).
    { apply in_memberships. split; [exact Hrel|]. apply (proj2 Hx).
      eapply user_has_id_is_user. exact Hu. }
    apply interest_name in Hi. destruct Hi as [Hi Hn].
    exists (community_query g' 1), (community_entry g' i), s.
    split; [reflexivity|]. split; [|split; [|split]].
    + apply in_community_query. split.
      * simpl. destruct (memberships g' i); [contradiction|simpl; lia].
      * exists i. split; [reflexivity|]. split; [exact Hi|].
        eapply in_not_nil. exact Hmem.
    + exact Hn.
    + exact Hs.
    + simpl. eapply in_member_names; eassumption.
  - intros g i Hr Hi. pose proof (reachable_populated g Hr i Hi) as Hne.
    exists (community_query g 1). split; [reflexivity|].
    apply in_community_query. split.
    + simpl. destruct (memberships g i); [congruence|simpl; lia].
    + exists i. split; [reflexivity|]. split; assumption.
Qed.

Lemma added_interest_is_a_community_witness :
  (exists cs c s,
      find_communities
        (snd (add_interest "bob" "chess" Scenario.abc)) 1 = Returned cs
      /\ In c cs
      /\ interest c = Some "chess"
      /\ prop_name Scenario.abc 1 = Some s /\ In s (members c))
  /\ exists cs,
       find_communities Scenario.two_hikers 1 = Returned cs
       /\ In (community_entry Scenario.two_hikers 3) cs.
Proof.
  split.
  - apply (proj1 added_interest_is_a_community Scenario.abc "bob" "chess" 1).
    + exists [Scenario.user "alice" "Alice"; Scenario.user "bob" "Bob";
              Scenario.user "carol" "Carol";
              Scenario.friends "alice" "bob"; Scenario.friends "bob" "carol"].
      reflexivity.
    + reflexivity.
  - apply (proj2 added_interest_is_a_community Scenario.two_hikers 3).
    + exists [Scenario.user "alice" "Alice"; Scenario.user "bob" "Bob";
              Scenario.user "carol" "Carol";
              AddInterest "alice" "hiking"; AddInterest "bob" "hiking"].
      reflexivity.
    + reflexivity.
Defined.

(** ** The shape of a shortest path *)

Lemma path_answer (g : graph) (id1 id2 : string) :
  id1 <> id2 ->
  exists r,
    find_shortest_connection_path g id1 id2 = Returned r
    /\ (r = None <->
        forall a b, user_at g id1 a -> user_at g id2 b -> ~ connected g a b)
    /\ forall names, r = Some names ->
         exists a b p,
           user_at g id1 a /\ user_at g id2 b
           /\ shortest g a p b /\ names = map (prop_name g) p.
Proof.
  intros Hne.
  destruct (path_rows_distinct g (user_pairs g id1 id2)) as [ps [E Hps]].
  { intros [x y] Hxy. simpl. apply in_user_pairs in Hxy.
    destruct Hxy as [Hx Hy]. intros ->. apply Hne.
    eapply user_at_same_node; eassumption. }
  exists (option_map (map (prop_name g)) (single ps)). split; [|split].
  - unfold find_shortest_connection_path. rewrite E. reflexivity.
  - split.
    + intros Hr x y Hx Hy Hc.
      destruct (shortest_path_connected g x y Hc) as [p Hp].
      assert (Hin : In p ps).
      { apply Hps. exists (x, y). split; [|exact Hp].
        apply in_user_pairs. split; assumption. }
      destruct ps; [contradiction|discriminate].
    + intros Hnone. destruct ps as [|p ps']; [reflexivity|exfalso].
      destruct (proj1 (Hps p) (or_introl eq_refl)) as [[x y] [Hxy Hs]].
      apply in_user_pairs in Hxy. destruct Hxy as [Hx Hy].
      apply shortest_path_some in Hs. destruct Hs as [Hw _].
      apply (Hnone x y Hx Hy). exists p. exact Hw.
  - intros names Hr. destruct ps as [|p ps']; [discriminate|].
    simpl in Hr. inversion Hr; subst names.
    destruct (proj1 (Hps p) (or_introl eq_refl)) as [[x y] [Hxy Hs]].
    apply in_user_pairs in Hxy. destruct Hxy as [Hx Hy].
    apply shortest_path_some in Hs.
    exists x, y, p. repeat split; try assumption; apply Hs.
Qed.

Lemma linked_sym (g : graph) (x y : nat) : linked g x y -> linked g y x.
Proof. unfold linked. tauto. Qed.

Lemma walk_ends (g : graph) (a b : nat) (p : list nat) :
  walk g a p b -> hd 0 p = a /\ last p 0 = b.
Proof.
  intros H. induction H as [a|a m c p Hl H IH]; [split; reflexivity|].
  split; [reflexivity|]. destruct IH as [_ IH].
  destruct p as [|x p]; [inversion H|]. exact IH.
Qed.

Lemma walk_rev (g : graph) (a b : nat) (p : list nat) :
  walk g a p b -> walk g b (rev p) a.
Proof.
  intros H. induction H as [a|a m c p Hl H IH]; [constructor|].
  simpl. eapply walk_snoc; [exact IH|]. apply linked_sym. exact Hl.
Qed.

Lemma walk_suffix (g : graph) (s t x : nat) (p : list nat) :
  walk g s p t -> In x p ->
  exists q, walk g x q t /\ List.length q <= List.length p.
Proof.
  intros H. induction H as [a|a m c p Hl H IH]; intros Hx.
  - destruct Hx as [<-|[]]. exists [a]. split; [constructor|lia].
  - destruct Hx as [<-|Hx].
    + exists (a :: p). split; [|lia]. eapply walk_step; eassumption.
    + destruct (IH Hx) as [q [Hq Hlen]]. exists q.
      split; [exact Hq|simpl; lia].
Qed.

(** A shortest walk visits no node twice. *)
Lemma shortest_NoDup (g : graph) (a b : nat) (p : list nat) :
  shortest g a p b -> NoDup p.
Proof.
  intros [Hw Hmin]. induction Hw as [a|a m c p Hl Hw IH].
  - constructor; [intros []|constructor].
  - constructor.
    + intros Hin. destruct (walk_suffix g m c a p Hw Hin) as [q [Hq Hlen]].
      specialize (Hmin q Hq). simpl in Hmin. lia.
    + apply IH. intros q Hq.
      assert (Hq' : walk g a (a :: q) c) by (eapply walk_step; eassumption).
      specialize (Hmin _ Hq'). simpl in Hmin. lia.
Qed.

(** X9. When [find_shortest_connection_path] answers with a path for two
    different ids, the path lists the names along a walk from a user with
    the first id to a user with the second: it starts at the one, ends
    at the other, each step follows a friendship in one direction or the
    other, no node occurs twice, and there are at least two entries. *)
Theorem shortest_path_shape :
  forall (g : graph) (id1 id2 : string) (names : list (option string)),
    id1 <> id2 ->
    find_shortest_connection_path g id1 id2 = Returned (Some names) ->
    exists a b p,
      user_at g id1 a /\ user_at g id2 b
      /\ names = map (prop_name g) p
      /\ walk g a p b /\ hd 0 p = a /\ last p 0 = b
      /\ NoDup p /\ 2 <= List.length names.
Proof.
  intros g id1 id2 names Hne E.
  destruct (path_answer g id1 id2 Hne) as [r [Er [_ Hsome]]].
  rewrite Er in E. inversion E; subst r.
  destruct (Hsome names eq_refl) as [a [b [p [Ha [Hb [Hs ->]]]]]].
  exists a, b, p. pose proof Hs as [Hw _].
  destruct (walk_ends g a b p Hw) as [Hh Hl].
  split; [exact Ha|]. split; [exact Hb|]. split; [reflexivity|].
  split; [exact Hw|]. split; [exact Hh|]. split; [exact Hl|].
  split; [eapply shortest_NoDup; exact Hs|].
  rewrite length_map.
  assert (Hab : a <> b).
  { intros ->. apply Hne. eapply user_at_same_node; eassumption. }
  destruct p as [|x [|y p]]; simpl in *; try lia; congruence.
Qed.

Lemma shortest_path_shape_witness :
  exists a b p,
    user_at Scenario.chain "a" a /\ user_at Scenario.chain "d" b
    /\ [Some "A"; Some "B"; Some "C"; Some "D"]
       = map (prop_name Scenario.chain) p
    /\ NoDup p.
Proof.
  destruct (shortest_path_shape Scenario.chain "a" "d"
              [Some "A"; Some "B"; Some "C"; Some "D"])
    as [a [b [p [H1 [H2 [H3 [_ [_ [_ [H4 _]]]]]]]]]];
    [discriminate|reflexivity|].
  exists a, b, p. repeat split; assumption.
Defined.

(** X10. With unique user ids and two different ids, asking for the path
    from the second user to the first gives an answer of the same kind
    and the same length as asking from the first to the second. *)
Theorem shortest_path_length_symmetric :
  forall (g : graph) (id1 id2 : string),
    unique_user_ids g = true -> id1 <> id2 ->
    exists r1 r2,
      find_shortest_connection_path g id1 id2 = Returned r1
      /\ find_shortest_connection_path g id2 id1 = Returned r2
      /\ option_map (@List.length _) r1 = option_map (@List.length _) r2.
Proof.
  intros g id1 id2 Hq Hne.
  assert (Hne' : id2 <> id1) by congruence.
  destruct (path_answer g id1 id2 Hne) as [r1 [E1 [N1 S1]]].
  destruct (path_answer g id2 id1 Hne') as [r2 [E2 [N2 S2]]].
  exists r1, r2. split; [exact E1|]. split; [exact E2|].
  assert (Hflip : forall x y, connected g x y -> connected g y x).
  { intros x y [p Hp]. exists (rev p). apply walk_rev. exact Hp. }
  destruct r1 as [n1|]; destruct r2 as [n2|]; simpl.
  - destruct (S1 n1 eq_refl) as [a [b [p [Ha [Hb [[Hw Hmin] ->]]]]]].
    destruct (S2 n2 eq_refl) as [b' [a' [q [Hb' [Ha' [[Hw' Hmin'] ->]]]]]].
    assert (a' = a)
      by (eapply (proj1 (unique_user_ids_spec g)); eassumption).
    assert (b' = b)
      by (eapply (proj1 (unique_user_ids_spec g)); eassumption).
    subst a' b'. f_equal. rewrite !length_map.
    pose proof (Hmin _ (walk_rev _ _ _ _ Hw')) as L1.
    pose proof (Hmin' _ (walk_rev _ _ _ _ Hw)) as L2.
    rewrite length_rev in L1, L2. lia.
  - exfalso. destruct (S1 n1 eq_refl) as [a [b [p [Ha [Hb [[Hw _] _]]]]]].
    apply (proj1 N2 eq_refl b a Hb Ha). apply Hflip. exists p. exact Hw.
  - exfalso. destruct (S2 n2 eq_refl) as [b [a [p [Hb [Ha [[Hw _] _]]]]]].
    apply (proj1 N1 eq_refl a b Ha Hb). apply Hflip. exists p. exact Hw.
  - reflexivity.
Qed.

Lemma shortest_path_length_symmetric_witness :
  exists r1 r2,
    find_shortest_connection_path Scenario.chain "a" "d" = Returned r1
    /\ find_shortest_connection_path Scenario.chain "d" "a" = Returned r2
    /\ option_map (@List.length _) r1 = option_map (@List.length _) r2.
Proof.
  apply (shortest_path_length_symmetric Scenario.chain "a" "d").
  - reflexivity.
  - discriminate.
Defined.

(** ** Befriending and then asking for the path *)

(** X11. With unique user ids, right after [add_friendship] between two
    different known users the shortest path between them is the direct
    one: exactly their two names, in the order asked. *)
Theorem befriended_users_are_one_hop_apart :
  forall (g : graph) (id1 id2 : string) (since : option string)
         (now : string) (a b : nat),
    unique_user_ids g = true -> id1 <> id2 ->
    user_at g id1 a -> user_at g id2 b ->
    let g' := snd (add_friendship id1 id2 since now g) in
    find_shortest_connection_path g' id1 id2
    = Returned (Some [prop_name g a; prop_name g b])
    /\ find_shortest_connection_path g' id2 id1
       = Returned (Some [prop_name g b; prop_name g a]).
Proof.
  intros g id1 id2 since now a b Hq Hne Ha Hb g'.
  assert (Hq' : unique_user_ids g' = true) by exact Hq.
  assert (Ha' : user_at g' id1 a) by exact Ha.
  assert (Hb' : user_at g' id2 b) by exact Hb.
  assert (Hab : a <> b).
  { intros ->. apply Hne. eapply user_at_same_node; eassumption. }
  assert (Hl : linked g' a b).
  { left. apply friend_spec.
    destruct (add_friendship_writes id1 id2 since now g a b Ha Hb) as [H _].
    eexists. exact H. }
  assert (Hdirect : forall (i j : string) (x y : nat),
             i <> j -> user_at g' i x -> user_at g' j y -> x <> y ->
             linked g' x y ->
             find_shortest_connection_path g' i j
             = Returned (Some [prop_name g x; prop_name g y])).
  { intros i j x y Hij Hx Hy Hxy Hlk.
    destruct (path_answer g' i j Hij) as [r [E [N S]]]. rewrite E.
    destruct r as [names|].
    - destruct (S names eq_refl) as [x' [y' [p [Hx' [Hy' [[Hw Hmin] ->]]]]]].
      assert (x' = x)
        by (eapply (proj1 (unique_user_ids_spec g')); eassumption).
      assert (y' = y)
        by (eapply (proj1 (unique_user_ids_spec g')); eassumption).
      subst x' y'.
      assert (Hw2 : walk g' x [x; y] y).
      { eapply walk_step; [exact Hlk|constructor]. }
      pose proof (Hmin _ Hw2) as Hlen.
      destruct (walk_ends g' x y p Hw) as [Hh Hlast].
      destruct p as [|p0 [|p1 [|p2 p]]]; simpl in *; try lia; try congruence.
      subst. reflexivity.
    - exfalso. apply (proj1 N eq_refl x y Hx Hy). exists [x; y].
      eapply walk_step; [exact Hlk|constructor]. }
  split.
  - apply Hdirect; assumption.
  - apply Hdirect; auto. apply linked_sym. exact Hl.
Qed.

Lemma befriended_users_are_one_hop_apart_witness :
  find_shortest_connection_path
    (snd (add_friendship "a" "d" None "2024-09-09" Scenario.chain)) "a" "d"
  = Returned (Some [Some "A"; Some "D"]).
Proof.
  apply (proj1 (befriended_users_are_one_hop_apart Scenario.chain "a" "d"
                  None "2024-09-09" 0 3 eq_refl
                  ltac:(discriminate) eq_refl eq_refl)).
Defined.

(** ** Recommendations by shared interests *)

Lemma shared_rels_differ (g : graph) (u c i j k : nat) :
  In (j, i) (interests_out g u) -> In (k, c) (interests_in g i) -> u <> c ->
  (j =? k) = false.
Proof.
  intros Hj Hk Hne. apply Nat.eqb_neq. intros ->.
  apply in_interests_out in Hj. apply in_interests_in in Hk.
  rewrite Hj in Hk. inversion Hk. congruence.
Qed.

Lemma in_rec_bindings (g : graph) (user_id : string) (b : rec_binding) :
  In b (rec_bindings g user_id)
  <-> user_at g user_id (rb_user b)
      /\ In (rb_interest b) (held g (rb_user b))
      /\ In (rb_interest b) (held g (rb_other b))
      /\ node_sat g is_user (rb_other b) = true
      /\ rb_other b <> rb_user b
      /\ friend g (rb_user b) (rb_other b) = false.
Proof.
  unfold rec_bindings. rewrite in_flat_map. split.
  - intros [u [Hu H]]. apply in_users_with_id in Hu.
    apply in_flat_map in H. destruct H as [[j i] [Hi H]].
    apply in_flat_map in H. destruct H as [[k c] [Hc H]]. simpl in H.
    destruct (negb (j =? k) && node_sat g is_user c && negb (u =? c)
              && negb (friend g u c)) eqn:E; [|contradiction].
    destruct H as [<-|[]]. simpl.
    apply andb_true_iff in E. destruct E as [E E4].
    apply andb_true_iff in E. destruct E as [E E3].
    apply andb_true_iff in E. destruct E as [_ E2].
    apply negb_true_iff in E3, E4. apply Nat.eqb_neq in E3.
    apply in_interests_out, nth_error_In in Hi.
    apply in_interests_in, nth_error_In in Hc.
    split; [exact Hu|]. split; [apply in_held; exact Hi|].
    split; [apply in_held; exact Hc|].
    split; [exact E2|]. split; [congruence|exact E4].
  - destruct b as [u i c]. simpl. intros [Hu [Hi [Hc [Hus [Hne Hnf]]]]].
    apply in_held, In_nth_error in Hi. destruct Hi as [j Hj].
    apply in_held, In_nth_error in Hc. destruct Hc as [k Hk].
    apply in_interests_out in Hj. apply in_interests_in in Hk.
    exists u. split; [apply in_users_with_id; exact Hu|].
    apply in_flat_map. exists (j, i). split; [exact Hj|].
    apply in_flat_map. exists (k, c). split; [exact Hk|]. simpl.
    rewrite (shared_rels_differ g u c i j k Hj Hk) by congruence.
    rewrite Hus, Hnf.
    assert (E : (u =? c) = false) by (apply Nat.eqb_neq; congruence).
    rewrite E. left. reflexivity.
Qed.

Lemma in_rec_group (g : graph) (user_id : string) (c i : nat) :
  In i (rec_group g user_id c)
  <-> exists b, In b (rec_bindings g user_id)
                /\ rb_other b = c /\ rb_interest b = i.
Proof.
  unfold rec_group. rewrite in_map_iff. split.
  - intros [b [E Hb]]. apply filter_In in Hb. destruct Hb as [Hb Ho].
    apply Nat.eqb_eq in Ho. exists b. repeat split; assumption.
  - intros [b [Hb [Ho Ei]]]. exists b. split; [exact Ei|].
    apply filter_In. split; [exact Hb|]. apply Nat.eqb_eq. exact Ho.
Qed.

(** The records of the answer, each with the node it stands for. *)
Lemma in_recommendations (g : graph) (user_id : string) (r : rec_record) :
  In r (recommend_friends_by_interests g user_id) ->
  exists b, In b (rec_bindings g user_id)
    /\ rec_user_id r = prop_id g (rb_other b)
    /\ rec_name r = prop_name g (rb_other b)
    /\ rec_location r = prop_location g (rb_other b)
    /\ shared_interests r = count_distinct (rec_group g user_id (rb_other b))
    /\ common_interests r
       = nodup string_dec
           (non_null (map (prop_name g) (rec_group g user_id (rb_other b)))).
Proof.
  unfold recommend_friends_by_interests. intros H. apply in_firstn in H.
  apply (Permutation_in _ (order_by_desc_perm _ _)) in H.
  unfold rec_groups in H. apply in_map_iff in H. destruct H as [c [<- Hc]].
  apply nodup_In, in_map_iff in Hc. destruct Hc as [b [<- Hb]].
  exists b. simpl. repeat split. exact Hb.
Qed.

(** X12. Whatever the store holds, [recommend_friends_by_interests]
    returns at most ten records, ranked by [shared_interests] with the
    largest first; every record stands for a [:User] node and counts at
    least one shared interest. *)
Theorem recommendations_ranked :
  forall (g : graph) (user_id : string),
    List.length (recommend_friends_by_interests g user_id) <= 10
    /\ ranked shared_interests (recommend_friends_by_interests g user_id)
    /\ forall r, In r (recommend_friends_by_interests g user_id) ->
         1 <= shared_interests r
         /\ exists c, node_sat g is_user c = true
                      /\ rec_user_id r = prop_id g c
                      /\ rec_name r = prop_name g c
                      /\ rec_location r = prop_location g c.
Proof.
  intros g uid. split; [apply firstn_at_most|]. split.
  - apply ranked_firstn, order_by_desc_ranked.
  - intros r Hr. apply in_recommendations in Hr.
    destruct Hr as [b [Hb [E1 [E2 [E3 [E4 _]]]]]]. split.
    + rewrite E4. apply (count_distinct_pos (rb_interest b)).
      apply in_rec_group. exists b. repeat split. exact Hb.
    + exists (rb_other b). apply in_rec_bindings in Hb.
      repeat split; tauto.
Qed.

Lemma in_shared (g : graph) (u c i : nat) :
  In i (shared g u c) <-> In i (held g u) /\ In i (held g c).
Proof. unfold shared. rewrite filter_In, mem_spec. tauto. Qed.

(** X13. With unique user ids, every record of
    [recommend_friends_by_interests] for a known user stands for a
    [:User] node that is not the user and not a direct friend of the
    user, and its [shared_interests] is the number of distinct interest
    nodes the two hold in common. *)
Theorem recommendations_exclude_self_and_friends :
  forall (g : graph) (user_id : string) (u : nat) (r : rec_record),
    unique_user_ids g = true -> user_at g user_id u ->
    In r (recommend_friends_by_interests g user_id) ->
    exists c,
      node_sat g is_user c = true
      /\ c <> u /\ friend g u c = false
      /\ rec_user_id r = prop_id g c
      /\ rec_name r = prop_name g c
      /\ rec_location r = prop_location g c
      /\ shared_interests r = List.length (shared g u c)
      /\ 1 <= shared_interests r.
Proof.
  intros g uid u r Hq Hu Hr. apply in_recommendations in Hr.
  destruct Hr as [b [Hb [E1 [E2 [E3 [E4 _]]]]]].
  pose proof (proj1 (in_rec_bindings g uid b) Hb)
    as [Hbu [Hi [Hc [Hus [Hne Hnf]]]]].
  assert (Eu : rb_user b = u)
    by (eapply (proj1 (unique_user_ids_spec g)); eassumption).
  rewrite Eu in *. exists (rb_other b).
  assert (Hcount : count_distinct (rec_group g uid (rb_other b))
                   = List.length (shared g u (rb_other b))).
  { apply count_distinct_NoDup.
    - unfold shared. apply NoDup_filter, NoDup_nodup.
    - intros i. rewrite in_rec_group, in_shared. split.
      + intros [b' [Hb' [Ho <-]]]. apply in_rec_bindings in Hb'.
        destruct Hb' as [Hbu' [Hi' [Hc' _]]].
        assert (rb_user b' = u)
          by (eapply (proj1 (unique_user_ids_spec g)); eassumption).
        rewrite Ho in Hc'. split; congruence.
      + intros [Hiu Hic]. exists (mkRecBinding u i (rb_other b)).
        split; [|split; reflexivity]. apply in_rec_bindings. simpl.
        repeat split; assumption. }
  split; [exact Hus|]. split; [exact Hne|]. split; [exact Hnf|].
  split; [exact E1|]. split; [exact E2|]. split; [exact E3|].
  split; [congruence|].
  rewrite E4. apply (count_distinct_pos (rb_interest b)).
  apply in_rec_group. exists b. repeat split. exact Hb.
Qed.

Lemma recommendations_exclude_self_and_friends_witness :
  exists c,
    node_sat Scenario.two_hikers is_user c = true
    /\ c <> 0 /\ friend Scenario.two_hikers 0 c = false
    /\ Some "bob" = prop_id Scenario.two_hikers c
    /\ 1 = List.length (shared Scenario.two_hikers 0 c).
Proof.
  destruct (recommendations_exclude_self_and_friends Scenario.two_hikers
              "alice" 0
              (mkRec (Some "bob") (Some "Bob") (Some "New York") 1 ["hiking"])
              eq_refl eq_refl (or_introl eq_refl))
    as [c [H1 [H2 [H3 [H4 [_ [_ [H5 _]]]]]]]].
  exists c. repeat split; assumption.
Defined.

Lemma non_null_map_names (g : graph) (l : list nat) :
  (forall i, In i l -> exists s, prop_name g i = Some s) ->
  non_null (map (prop_name g) l)
  = map (fun i => match prop_name g i with
                  | Some s => s
                  | None => EmptyString
                  end) l.
Proof.
  induction l as [|i l IH]; intros H; [reflexivity|]. simpl.
  destruct (H i (or_introl eq_refl)) as [s E]. rewrite E. simpl. f_equal.
  apply IH. intros j Hj. apply H. right. exact Hj.
Qed.

Lemma held_is_interest (g : graph) (u i : nat) :
  typed g -> In i (held g u) -> node_sat g is_interest i = true.
Proof.
  intros Ht Hi. apply in_held in Hi. unfold typed in Ht.
  rewrite Forall_forall in Ht. apply (Ht _ Hi).
Qed.

Lemma interest_name_injective (g : graph) (i j : nat) (s : string) :
  interest_unique g ->
  node_sat g is_interest i = true -> node_sat g is_interest j = true ->
  prop_name g i = Some s -> prop_name g j = Some s -> i = j.
Proof.
  intros Hq Hi Hj Ei Ej.
  pose proof (interest_by_name g s i Hi Ei) as Ii.
  pose proof (interest_by_name g s j Hj Ej) as Ij.
  rewrite (interest_unique_singleton g s i Hq Ii) in Ij.
  destruct Ij as [E|[]]. exact E.
Qed.

(** X14. In a graph built through the class, every record of
    [recommend_friends_by_interests] lists exactly as many common
    interest names as its [shared_interests] says, no name twice. *)
Theorem recommendations_names_match_count :
  forall (g : graph) (user_id : string) (r : rec_record),
    reachable g ->
    In r (recommend_friends_by_interests g user_id) ->
    List.length (common_interests r) = shared_interests r
    /\ NoDup (common_interests r).
Proof.
  intros g uid r Hr Hin. pose proof (reachable_typed g Hr) as Ht.
  pose proof (reachable_interest_unique g Hr) as Hq.
  apply in_recommendations in Hin.
  destruct Hin as [b [_ [_ [_ [_ [E4 E5]]]]]].
  set (l := rec_group g uid (rb_other b)) in *.
  assert (Hl : forall i, In i l -> node_sat g is_interest i = true).
  { intros i Hi. apply in_rec_group in Hi. destruct Hi as [b' [Hb' [_ <-]]].
    apply in_rec_bindings in Hb'. destruct Hb' as [_ [Hh _]].
    eapply held_is_interest; eassumption. }
  split; [|rewrite E5; apply NoDup_nodup].
  rewrite E5, E4. rewrite non_null_map_names.
  - rewrite (nodup_map_injective Nat.eq_dec string_dec).
    + rewrite length_map. reflexivity.
    + intros i j Hi Hj E.
      destruct (user_has_name g _ i (Hl i Hi)) as [s Es].
      destruct (user_has_name g _ j (Hl j Hj)) as [t Et].
      rewrite Es, Et in E. subst t.
      eapply interest_name_injective; eauto.
  - intros i Hi. eapply user_has_name. apply Hl. exact Hi.
Qed.

Lemma recommendations_names_match_count_witness :
  List.length ["hiking"] = 1 /\ NoDup ["hiking"].
Proof.
  apply (recommendations_names_match_count Scenario.two_hikers "alice"
           (mkRec (Some "bob") (Some "Bob") (Some "New York") 1 ["hiking"])).
  - exists [Scenario.user "alice" "Alice"; Scenario.user "bob" "Bob";
            Scenario.user "carol" "Carol";
            AddInterest "alice" "hiking"; AddInterest "bob" "hiking"].
    reflexivity.
  - left. reflexivity.
Defined.

(** ** Friendships do not depend on who asked *)

(** X15. [add_friendship] of A with B and of B with A write the same
    relationships: the same nodes, the same number of relationships and,
    relationship by relationship, the same ends and the same [since]. *)
Theorem add_friendship_order_irrelevant :
  forall (g : graph) (id1 id2 : string) (since : option string)
         (now : string),
    let g1 := snd (add_friendship id1 id2 since now g) in
    let g2 := snd (add_friendship id2 id1 since now g) in
    nodes g1 = nodes g2
    /\ (forall r, In r (rels g1) <-> In r (rels g2))
    /\ List.length (rels g1) = List.length (rels g2)
    /\ forall a b, friend g1 a b = friend g2 a b.
Proof.
  intros g id1 id2 since now g1 g2.
  assert (Hin : forall r, In r (rels g1) <-> In r (rels g2)).
  { intros r. unfold g1, g2. simpl. rewrite !in_app_iff, !in_friendship_rels.
    split; (intros [H|[a [b [Ha [Hb H]]]]]; [left; exact H|right]);
      exists b, a; repeat split; auto; tauto. }
  split; [reflexivity|]. split; [exact Hin|]. split.
  - unfold g1, g2. simpl. rewrite !length_app. f_equal.
    assert (Hlen : forall (t : string) (l : list (nat * nat)),
               List.length
                 (flat_map (fun p => [FRIENDS_WITH (fst p) (snd p) t;
                                      FRIENDS_WITH (snd p) (fst p) t]) l)
               = 2 * List.length l).
    { intros t l. induction l as [|p l IH]; simpl; [reflexivity|].
      rewrite IH. lia. }
    assert (Hpairs : forall i j,
               List.length (user_pairs g i j)
               = List.length (users_with_id g i)
                 * List.length (users_with_id g j)).
    { intros i j. unfold user_pairs.
      induction (users_with_id g i) as [|x l IH]; simpl; [reflexivity|].
      rewrite length_app, length_map, IH. reflexivity. }
    rewrite !Hlen, !Hpairs. lia.
  - intros a b. apply eq_true_iff_eq. rewrite !friend_spec.
    split; intros [t H]; exists t; apply Hin; exact H.
Qed.

(** ** User ids stay unique unless an id is reused *)

Lemma users_with_id_add_interest_row (name user_id : string) (g : graph)
    (u : nat) :
  users_with_id (add_interest_row name g u) user_id = users_with_id g user_id.
Proof.
  destruct (add_interest_row_cases name g u) as [[_ E]|[_ E]]; rewrite E.
  - change (users_with_id (add_node g (InterestNode name)) user_id
            = users_with_id g user_id).
    unfold users_with_id. rewrite match_nodes_add_node. simpl.
    apply app_nil_r.
  - reflexivity.
Qed.

Lemma users_with_id_add_interest (uid name user_id : string) (g : graph) :
  users_with_id (snd (add_interest uid name g)) user_id
  = users_with_id g user_id.
Proof.
  apply (add_interest_inv
           (fun g' => users_with_id g' user_id = users_with_id g user_id)).
  - intros g0 u H _. rewrite users_with_id_add_interest_row. exact H.
  - reflexivity.
Qed.

Lemma unique_by_users (g g' : graph) :
  (forall user_id, users_with_id g' user_id = users_with_id g user_id) ->
  unique_user_ids g = true -> unique_user_ids g' = true.
Proof.
  intros H Hq. apply unique_user_ids_spec. intros uid u v Hu Hv.
  apply in_users_with_id in Hu, Hv. rewrite H in Hu, Hv.
  apply in_users_with_id in Hu, Hv.
  eapply (proj1 (unique_user_ids_spec g)); eassumption.
Qed.

(** X16. User ids stay unique under every call except a [create_user]
    that reuses an id: [add_friendship], [add_interest] and
    [clear_database] keep them unique, and so does [create_user] with an
    id no node carries yet. *)
Theorem unique_ids_kept :
  forall (g : graph) (c : call),
    unique_user_ids g = true ->
    (forall user_id name age location now,
        c = CreateUser user_id name age location now ->
        users_with_id g user_id = []) ->
    unique_user_ids (snd (perform c g)) = true.
Proof.
  intros g c Hq Hfresh.
  destruct c as [uid nm age loc now|id1 id2 since now|uid nm|].
  - specialize (Hfresh uid nm age loc now eq_refl).
    apply (create_user_inv (fun g' => unique_user_ids g' = true)
             uid nm age loc now g); [exact Hq|].
    apply unique_user_ids_spec. intros x u v Hu Hv.
    apply in_users_with_id in Hu, Hv. simpl in Hu, Hv.
    unfold users_with_id in Hu, Hv. rewrite match_nodes_add_node in Hu, Hv.
    fold (users_with_id g x) in Hu, Hv. simpl in Hu, Hv.
    destruct (String.eqb uid x) eqn:E.
    + apply String.eqb_eq in E. subst x. rewrite Hfresh in Hu, Hv.
      destruct Hu as [<-|[]]. destruct Hv as [<-|[]]. reflexivity.
    + rewrite app_nil_r in Hu, Hv. apply in_users_with_id in Hu, Hv.
      eapply (proj1 (unique_user_ids_spec g)); eassumption.
  - exact Hq.
  - apply (unique_by_users g); [|exact Hq].
    intros x. apply users_with_id_add_interest.
  - reflexivity.
Qed.

Lemma unique_ids_kept_witness :
  unique_user_ids
    (snd (perform (CreateUser "dora" "Dora" 33%Z "Boston" "2024-08-08")
                  Scenario.abc)) = true
  /\ unique_user_ids
       (snd (perform (AddInterest "bob" "chess") Scenario.abc)) = true.
Proof.
  split.
  - apply unique_ids_kept; [reflexivity|].
    intros uid nm age loc now E. inversion E. reflexivity.
  - apply unique_ids_kept; [reflexivity|]. intros uid nm age loc now E.
    discriminate E.
Defined.
